(** * Protoson (pson.h): value model, encoder and decoder

    A shallow embedding of [src/pson.h].  Bytes and machine integers are
    [Z] with the wrap-around of their C++ type written out; an allocated
    block is the list of its bytes; the [void*] payload of a value is a
    sum over what the pointer can designate. *)

From Stdlib Require Import ZArith List Lia Bool.
From Stdlib Require Import Floats.SpecFloat.
Import ListNotations.
Local Open Scope Z_scope.

(** ** Machine integers *)

Definition uint8_t (z : Z) : Z := z mod 2 ^ 8.
Definition uint32_t (z : Z) : Z := z mod 2 ^ 32.
Definition uint64_t (z : Z) : Z := z mod 2 ^ 64.
(** [size_t] is taken to be 64 bits wide. *)
Definition size_t (z : Z) : Z := z mod 2 ^ 64.
(** Two's-complement reading of a 64-bit pattern, for [int64_t]. *)
Definition int64_t (z : Z) : Z := (z + 2 ^ 63) mod 2 ^ 64 - 2 ^ 63.

Definition len (buffer : list Z) : Z := Z.of_nat (length buffer).

(** ** enum pb_wire_type *)

Definition varint : Z := 0.
Definition fixed_64 : Z := 1.
Definition length_delimited : Z := 2.
Definition fixed_32 : Z := 5.

(** ** enum pson::field_type *)

Definition null_field : Z := 0.
Definition varint_field : Z := 1.
Definition svarint_field : Z := 2.
Definition float_field : Z := 3.
Definition double_field : Z := 4.
Definition true_field : Z := 5.
Definition false_field : Z := 6.
Definition zero_field : Z := 7.
Definition one_field : Z := 8.
Definition string_field : Z := 9.
Definition bytes_field : Z := 10.
Definition object_field : Z := 11.
Definition array_field : Z := 12.

(** ** The value tree

    [pson::value_] is a [void*]: it is [NULL], or points to a block of
    bytes obtained from the pool, or to a [pson_object], or to a
    [pson_array].  [pson::field_type_] holds whatever number [set_type]
    stored, also one outside the enumeration.  A [pson_container<T>] is
    the list of its items in link order. *)

Record pson_pair_of (P : Type) : Type := mk_pair { pair_name : list Z; pair_value : P }.

Inductive slot (P : Type) : Type :=
| NULL : slot P
| block (bytes : list Z) : slot P
| object_ptr (object : list (pson_pair_of P)) : slot P
| array_ptr (array : list P) : slot P.

Arguments mk_pair {P} pair_name pair_value.
Arguments pair_name {P} p.
Arguments pair_value {P} p.
Arguments NULL {P}.
Arguments block {P} bytes.
Arguments object_ptr {P} object.
Arguments array_ptr {P} array.

(** Induction over a value reaches the values held in its containers. *)
Scheme All for list.
Scheme All for pson_pair_of.
Scheme All for slot.

Inductive pson : Type :=
  mk_pson { field_type_ : Z; value_ : slot pson }.

Definition pson_pair := pson_pair_of pson.
Definition pson_object := list pson_pair.
Definition pson_array := list pson.

(** [pson()] and the static [pson::empty_value]. *)
Definition pson_default : pson := mk_pson null_field NULL.
Definition empty_value : pson := pson_default.

Definition get_type (p : pson) : Z := field_type_ p.
Definition get_value (p : pson) : slot pson := value_ p.
Definition set_type (p : pson) (type : Z) : pson := mk_pson type (value_ p).
Definition set_value (p : pson) (v : slot pson) : pson := mk_pson (field_type_ p) v.

(** The bytes a payload pointer designates when it is read as a buffer.
    Reading through [NULL] or through a container pointer is outside the
    model and yields no byte. *)
Definition bytes_at (v : slot pson) : list Z :=
  match v with
  | block bytes => bytes
  | _ => []
  end.

(** The container a payload pointer designates; a pointer of another
    kind is outside the model and read as an empty container. *)
Definition object_at (v : slot pson) : pson_object :=
  match v with
  | object_ptr object => object
  | _ => []
  end.

Definition array_at (v : slot pson) : pson_array :=
  match v with
  | array_ptr array => array
  | _ => []
  end.

(** [pson_container<T>::create_item]: a default-constructed item is linked
    after the last one; the reference returned is its position. *)
Definition create_item {T : Type} (dflt : T) (c : list T) : list T * nat :=
  (c ++ [dflt], length c).

(** Assignment through a reference to the item at position [i]. *)
Fixpoint store_item {T : Type} (c : list T) (i : nat) (x : T) : list T :=
  match c, i with
  | [], _ => []
  | _ :: rest, O => x :: rest
  | y :: rest, S i' => y :: store_item rest i' x
  end.

(** ** C strings *)

(** [strlen]: the bytes before the first NUL. *)
Fixpoint strlen (str : list Z) : Z :=
  match str with
  | [] => 0
  | c :: rest => if c =? 0 then 0 else 1 + strlen rest
  end.

(** The characters of a C string, without the terminator. *)
Fixpoint c_chars (str : list Z) : list Z :=
  match str with
  | [] => []
  | c :: rest => if c =? 0 then [] else c :: c_chars rest
  end.

(** [memcpy(allocate(strlen(str)+1), str, strlen(str)+1)]. *)
Definition strdup (str : list Z) : list Z := c_chars str ++ [0].

(** [strcmp(a, b) == 0]. *)
Definition streq (a b : list Z) : bool :=
  if list_eq_dec Z.eq_dec (c_chars a) (c_chars b) then true else false.

(** ** Blocks from the pool *)

(** [pool.allocate(size)].  Neither allocator initialises the block it
    hands out; the model takes its bytes to be zero.  Every block below
    is overwritten in full unless a read from the byte source fails. *)
Definition allocate (size : Z) : list Z := repeat 0 (Z.to_nat size).

(** [memcpy(dst + offset, src, n)] with [src] the [n] bytes copied. *)
Definition memcpy (dst : list Z) (offset : Z) (src : list Z) : list Z :=
  firstn (Z.to_nat offset) dst ++ src
  ++ skipn (Z.to_nat offset + length src) dst.

(** ** float and double

    [float] is IEEE 754 binary32 and [double] binary64, as [spec_float]
    values in canonical form for their format, rounded to nearest even;
    their object representation is the little-endian encoding. *)

Module IEEE.

Section Format.
Variables prec emax width : Z.

(** Integer to floating point. *)
Definition of_int (i : Z) : spec_float := binary_normalize prec emax i 0 false.

(** Conversion from another format. *)
Definition convert (x : spec_float) : spec_float :=
  match x with
  | S754_finite s m e => binary_round prec emax s m e
  | _ => x
  end.

(** The bit pattern; the NaN is the quiet one with an empty payload. *)
Definition bits (x : spec_float) : Z :=
  let sign (s : bool) := if s then 2 ^ (width - 1) else 0 in
  let exponent (b : Z) := Z.shiftl b (prec - 1) in
  let ones := 2 ^ (width - prec) - 1 in
  match x with
  | S754_zero s => sign s
  | S754_infinity s => sign s + exponent ones
  | S754_nan => exponent ones + 2 ^ (prec - 2)
  | S754_finite s m e =>
      if Zpos m <? 2 ^ (prec - 1) then sign s + Zpos m
      else sign s + exponent (e - emin prec emax + 1) + (Zpos m - 2 ^ (prec - 1))
  end.
End Format.

Fixpoint le_bytes (n : nat) (z : Z) : list Z :=
  match n with
  | O => []
  | S n' => z mod 2 ^ 8 :: le_bytes n' (Z.shiftr z 8)
  end.

Definition float_of_int := of_int 24 128.
Definition double_of_int := of_int 53 1024.
Definition to_float := convert 24 128.
Definition to_double := convert 53 1024.
Definition float_bytes (x : spec_float) : list Z := le_bytes 4 (bits 24 128 32 x).
Definition double_bytes (x : spec_float) : list Z := le_bytes 8 (bits 53 1024 64 x).

(** [(int64_t)x]: truncation toward zero.  The conversion is undefined
    for a NaN, an infinity and a value whose truncation is not an
    [int64_t]; that is [None]. *)
Definition to_int64 (x : spec_float) : option Z :=
  match x with
  | S754_zero _ => Some 0
  | S754_finite s m e =>
      let z := cond_Zopp s (Z.shiftl (Zpos m) e) in
      if (- 2 ^ 63 <=? z) && (z <? 2 ^ 63) then Some z else None
  | _ => None
  end.

(** The literal [0.00001]. *)
Definition tolerance : spec_float := S754_finite false 5902958103587057 (-69).

End IEEE.

(** ** class pson *)

Module Pson.

(** [pson::get_varint_size]: [while(value>>=7) size++;].  A 64-bit value
    is exhausted after ten shifts, which is the fuel the loop is given. *)
Fixpoint get_varint_size_loop (fuel : nat) (value size : Z) : Z :=
  match fuel with
  | O => size
  | S fuel' =>
      let value := Z.shiftr value 7 in
      if value =? 0 then size else get_varint_size_loop fuel' value (size + 1)
  end.

Definition get_varint_size (value : Z) : Z :=
  get_varint_size_loop 10 (uint64_t value) 1.

(** [pson::pb_encode_varint(buffer, value)]: the [do ... while(value)]
    loop; the bytes are listed in the order they are stored at
    [buffer[count]]. *)
Fixpoint pb_encode_varint_loop (fuel : nat) (value : Z) : list Z :=
  match fuel with
  | O => []
  | S fuel' =>
      let byte := uint8_t (Z.land value 0x7F) in
      let value := Z.shiftr value 7 in
      let byte := if value =? 0 then byte else Z.lor byte 0x80 in
      byte :: (if value =? 0 then [] else pb_encode_varint_loop fuel' value)
  end.

Definition pb_encode_varint (value : Z) : list Z :=
  pb_encode_varint_loop 10 (uint64_t value).

(** [pson::pb_decode_varint]: bytes are read from the buffer while the
    last one read is [>= 0x80]; a read past the end of the block is
    outside the model and ends the loop.  The group is shifted in 64
    bits; from the eleventh byte on the shift count exceeds the width,
    which the source leaves undefined and the model takes to shift every
    bit out. *)
Fixpoint pb_decode_varint_loop (buffer : list Z) (value pos : Z) : Z :=
  match buffer with
  | [] => value
  | byte :: rest =>
      let value := Z.lor value (uint64_t (Z.shiftl (Z.land byte 0x7F) (pos * 7))) in
      if byte >=? 0x80 then pb_decode_varint_loop rest value (pos + 1) else value
  end.

Definition pb_decode_varint (v : slot pson) : Z :=
  match v with
  | NULL => 0
  | _ => pb_decode_varint_loop (bytes_at v) 0 0
  end.

(** [template<class T> void operator=(T value)] at [T = int64_t], the
    instance [operator=(float)] and [operator=(double)] call, and at
    [T = uint64_t].  [value] is the mathematical value of the argument;
    [-value], reached only for a signed argument, is taken in
    two's complement.  The zero and one branches return before anything
    is stored: [value_] stays what it was. *)
Definition assign_int (p : pson) (value : Z) : pson :=
  if value =? 0 then mk_pson zero_field (value_ p)
  else if value =? 1 then mk_pson one_field (value_ p)
  else
    let type := if value <? 0 then svarint_field else varint_field in
    let uint_value := uint64_t (if value >? 0 then value else int64_t (- value)) in
    let buffer := allocate (get_varint_size uint_value) in
    mk_pson type (block (memcpy buffer 0 (pb_encode_varint uint_value))).

(** [void operator=(bool value)]. *)
Definition assign_bool (p : pson) (value : bool) : pson :=
  mk_pson (if value then true_field else false_field) (value_ p).

(** [template<class T> void set(T value)] at [float] and [double]. *)
Definition set_float (p : pson) (value : spec_float) : pson :=
  mk_pson (field_type_ p) (block (memcpy (allocate 4) 0 (IEEE.float_bytes value))).

Definition set_double (p : pson) (value : spec_float) : pson :=
  mk_pson (field_type_ p) (block (memcpy (allocate 8) 0 (IEEE.double_bytes value))).

(** [void operator=(float value)]; [None] where [(int64_t)value] is
    undefined. *)
Definition assign_float (p : pson) (value : spec_float) : option pson :=
  match IEEE.to_int64 value with
  | None => None
  | Some i =>
      if SFeqb value (IEEE.float_of_int i) then Some (assign_int p i)
      else Some (set_float (mk_pson float_field (value_ p)) value)
  end.

(** [void operator=(double value)]; [value-(float)value] is a [double]
    subtraction after the [float] is converted back. *)
Definition assign_double (p : pson) (value : spec_float) : option pson :=
  match IEEE.to_int64 value with
  | None => None
  | Some i =>
      if SFeqb value (IEEE.double_of_int i) then Some (assign_int p i)
      else if SFleb
                (SFabs (SFsub 53 1024 value (IEEE.to_double (IEEE.to_float value))))
                IEEE.tolerance
      then assign_float p (IEEE.to_float value)
      else Some (set_double (mk_pson double_field (value_ p)) value)
  end.

(** [void operator=(const char *str)]. *)
Definition assign_string (p : pson) (str : list Z) : pson :=
  let size := strlen str + 1 in
  mk_pson string_field (block (memcpy (allocate size) 0 (strdup str))).

(** [set_bytes(bytes, size)], [bytes] being the [size] bytes given. *)
Definition set_bytes (p : pson) (bytes : list Z) : pson :=
  let size := len bytes in
  let varint_size := get_varint_size size in
  let buffer := allocate (varint_size + size) in
  let buffer := memcpy buffer 0 (pb_encode_varint size) in
  let buffer := memcpy buffer varint_size bytes in
  mk_pson bytes_field (block buffer).

End Pson.

(** ** class pson_object *)

Module Object.

(** The [for(iterator it=begin(); it.valid(); it.next())] scan of both
    [operator[]]: the position of the first pair whose name compares
    equal under [strcmp]. *)
Fixpoint find (object : pson_object) (name : list Z) (i : nat) : option nat :=
  match object with
  | [] => None
  | item :: rest =>
      if streq (pair_name item) name then Some i else find rest name (S i)
  end.

(** [pson_pair()] holds no name yet; [set_name] copies one in. *)
Definition pair_default : pson_pair := mk_pair [] pson_default.

Definition set_name (pair : pson_pair) (name : list Z) : pson_pair :=
  let name_size := strlen name + 1 in
  mk_pair (memcpy (allocate name_size) 0 (strdup name)) (pair_value pair).

(** [pson &operator[](const char *name)]: the object after the call and
    the position of the pair whose value is returned by reference. *)
Definition subscript (object : pson_object) (name : list Z) : pson_object * nat :=
  match find object name 0 with
  | Some i => (object, i)
  | None =>
      let '(object, i) := create_item pair_default object in
      (store_item object i (set_name (nth i object pair_default) name), i)
  end.

(** [const pson & operator[](const char *name) const]. *)
Definition subscript_const (object : pson_object) (name : list Z) : pson :=
  match find object name 0 with
  | Some i => pair_value (nth i object pair_default)
  | None => empty_value
  end.

End Object.

(** ** class pson_encoder *)

Module Encoder.

(** The encoder's state: the tally [written_] and what a sink that keeps
    its bytes has received.  The tally counts bytes of lists held in
    memory and is kept unbounded. *)
Record pson_encoder : Type := mk_encoder { written_ : Z; sink_ : list Z }.

Definition fresh : pson_encoder := mk_encoder 0 [].
Definition bytes_written (e : pson_encoder) : Z := written_ e.

(** The virtual [write(buffer, size)], given the [size] bytes at [buffer]. *)
Definition writer : Type := pson_encoder -> list Z -> pson_encoder.

(** [pson_encoder::write]: the base class only tallies. *)
Definition write : writer :=
  fun e buffer => mk_encoder (written_ e + len buffer) (sink_ e).

(** Modelled from the spec: the byte sink of a derived encoder, which is
    not in [pson.h]: "an abstract write(bytes) sink".  It keeps the bytes
    in the order written and tallies them as the base class does. *)
Definition write_sink : writer :=
  fun e buffer => mk_encoder (written_ e + len buffer) (sink_ e ++ buffer).

Section Primitives.
Variable w : writer.

(** [pb_encode_varint(uint64_t value)]. *)
Fixpoint pb_encode_varint_loop (fuel : nat) (value : Z) (e : pson_encoder)
  : pson_encoder :=
  match fuel with
  | O => e
  | S fuel' =>
      let byte := uint8_t (Z.land value 0x7F) in
      let value := Z.shiftr value 7 in
      let byte := if value >? 0 then Z.lor byte 0x80 else byte in
      let e := w e [byte] in
      if value >? 0 then pb_encode_varint_loop fuel' value e else e
  end.

Definition pb_encode_varint (value : Z) (e : pson_encoder) : pson_encoder :=
  pb_encode_varint_loop 10 (uint64_t value) e.

(** [pb_encode_tag]: [field_number] is a [uint32_t]. *)
Definition pb_encode_tag (wire_type field_number : Z) (e : pson_encoder)
  : pson_encoder :=
  let tag := Z.lor (uint64_t (Z.shiftl (uint32_t field_number) 3)) wire_type in
  pb_encode_varint tag e.

(** [pb_encode_varint(uint32_t field, uint64_t value)]. *)
Definition pb_encode_varint_field (field value : Z) (e : pson_encoder)
  : pson_encoder :=
  pb_encode_varint value (pb_encode_tag varint field e).

(** [pb_write_varint]: the varint stored at [buffer] is written byte by
    byte; the result is the number of bytes written.  A read past the
    end of the block is outside the model and ends the loop. *)
Fixpoint pb_write_varint_loop (buffer : list Z) (bytes_written : Z)
  (e : pson_encoder) : Z * pson_encoder :=
  match buffer with
  | [] => (bytes_written, e)
  | byte :: rest =>
      let e := w e [byte] in
      let bytes_written := bytes_written + 1 in
      if byte >=? 0x80 then pb_write_varint_loop rest bytes_written e
      else (bytes_written, e)
  end.

Definition pb_write_varint (buffer : list Z) (e : pson_encoder)
  : Z * pson_encoder :=
  pb_write_varint_loop buffer 0 e.

(** [pb_encode_string(const char* str)]. *)
Definition pb_encode_string (str : list Z) (e : pson_encoder) : pson_encoder :=
  let string_size := strlen str in
  let e := pb_encode_varint string_size e in
  w e (firstn (Z.to_nat string_size) str).

(** [pb_encode_string(const char* str, uint32_t field_number)]. *)
Definition pb_encode_string_field (str : list Z) (field_number : Z)
  (e : pson_encoder) : pson_encoder :=
  pb_encode_string str (pb_encode_tag length_delimited field_number e).

Definition pb_encode_fixed32 (value : list Z) (e : pson_encoder) : pson_encoder :=
  w e (firstn 4 value).

Definition pb_encode_fixed64 (value : list Z) (e : pson_encoder) : pson_encoder :=
  w e (firstn 8 value).

Definition pb_encode_fixed32_field (field : Z) (value : list Z)
  (e : pson_encoder) : pson_encoder :=
  pb_encode_fixed32 value (pb_encode_tag fixed_32 field e).

Definition pb_encode_fixed64_field (field : Z) (value : list Z)
  (e : pson_encoder) : pson_encoder :=
  pb_encode_fixed64 value (pb_encode_tag fixed_64 field e).

End Primitives.

(** [pb_encode_submessage<T>(element, field_number)].  [encode_element]
    is [encode(T&)] for the element at hand, for whichever [write] the
    encoder it runs on has.  The local [sink] is a plain [pson_encoder]:
    its [write] is the tallying one of the base class. *)
Definition pb_encode_submessage (w : writer)
  (encode_element : writer -> pson_encoder -> pson_encoder)
  (field_number : Z) (e : pson_encoder) : pson_encoder :=
  let e := pb_encode_tag w length_delimited field_number e in
  let sink := encode_element write fresh in
  let e := pb_encode_varint w (bytes_written sink) e in
  encode_element w e.

(** [encode(pson&)], with [encode(pson_pair&)], [encode(pson_object&)]
    and [encode(pson_array&)] unfolded where the recursion goes through
    them; they are given their own names below.  A container pointer
    that does not match the tag is outside the model and read as an
    empty container. *)
Fixpoint encode (w : writer) (value : pson) (e : pson_encoder) {struct value}
  : pson_encoder :=
  let type := get_type value in
  if (type =? true_field) || (type =? false_field)
     || (type =? one_field) || (type =? zero_field) then
    pb_encode_tag w varint type e
  else if type =? string_field then
    pb_encode_string_field w (bytes_at (get_value value)) string_field e
  else if type =? bytes_field then
    let e := pb_encode_tag w length_delimited bytes_field e in
    let buffer := bytes_at (get_value value) in
    let '(n, e) := pb_write_varint w buffer e in
    w e (firstn (Z.to_nat (Pson.pb_decode_varint (get_value value)))
           (skipn (Z.to_nat n) buffer))
  else if (type =? svarint_field) || (type =? varint_field) then
    let e := pb_encode_tag w varint type e in
    snd (pb_write_varint w (bytes_at (get_value value)) e)
  else if type =? float_field then
    pb_encode_fixed32_field w float_field (bytes_at (get_value value)) e
  else if type =? double_field then
    pb_encode_fixed64_field w double_field (bytes_at (get_value value)) e
  else if type =? object_field then
    match value_ value with
    | object_ptr object =>
        pb_encode_submessage w
          (fun w e =>
             fold_left
               (fun e pair => encode w (pair_value pair) (pb_encode_string w (pair_name pair) e))
               object e)
          object_field e
    | _ => pb_encode_submessage w (fun _ e => e) object_field e
    end
  else if type =? array_field then
    match value_ value with
    | array_ptr array =>
        pb_encode_submessage w
          (fun w e => fold_left (fun e item => encode w item e) array e)
          array_field e
    | _ => pb_encode_submessage w (fun _ e => e) array_field e
    end
  else
    pb_encode_tag w varint null_field e.

(** [encode(pson_pair&)]. *)
Definition encode_pair (w : writer) (pair : pson_pair) (e : pson_encoder)
  : pson_encoder :=
  encode w (pair_value pair) (pb_encode_string w (pair_name pair) e).

(** [encode(pson_object&)]: the iterator walks the pairs in link order. *)
Definition encode_object (w : writer) (object : pson_object) (e : pson_encoder)
  : pson_encoder :=
  fold_left (fun e pair => encode_pair w pair e) object e.

(** [encode(pson_array&)]. *)
Definition encode_array (w : writer) (array : pson_array) (e : pson_encoder)
  : pson_encoder :=
  fold_left (fun e item => encode w item e) array e.

(** The bytes a sink that keeps them receives for one value. *)
Definition encoded (value : pson) : list Z := sink_ (encode write_sink value fresh).

End Encoder.

(** ** class pson_decoder *)

Module Decoder.

(** The decoder's state: the count [read_] and the bytes its source has
    still to deliver. *)
Record pson_decoder : Type := mk_decoder { read_ : Z; source_ : list Z }.

Definition start (source : list Z) : pson_decoder := mk_decoder 0 source.
Definition bytes_read (d : pson_decoder) : Z := read_ d.

(** Modelled from the spec: the byte source of a derived decoder, which
    is not in [pson.h]: "an abstract read(buffer, count) -> success
    source".  A read of [size] bytes succeeds when the source still holds
    that many: it delivers them and counts them as [pson_decoder::read]
    does.  Otherwise it fails, delivers nothing and counts nothing
    ("however many bytes were successfully read"). *)
Definition read (d : pson_decoder) (size : Z) : option (list Z) * pson_decoder :=
  if size <=? len (source_ d) then
    (Some (firstn (Z.to_nat size) (source_ d)),
     mk_decoder (read_ d + size) (skipn (Z.to_nat size) (source_ d)))
  else (None, d).

Definition succeeded (r : option (list Z)) : bool :=
  match r with Some _ => true | None => false end.

(** [pb_decode_varint32].  The sixth read finds [bit_pos = 35], so six
    rounds of fuel always reach a [return]. *)
Fixpoint pb_decode_varint32_loop (fuel : nat) (varint bit_pos : Z)
  (d : pson_decoder) : Z * pson_decoder :=
  match fuel with
  | O => (varint, d)
  | S fuel' =>
      match read d 1 with
      | (Some [byte], d) =>
          if bit_pos >=? 32 then (varint, d)
          else
            let varint :=
              Z.lor varint (uint32_t (Z.shiftl (Z.land byte 0x7F) bit_pos)) in
            let bit_pos := uint8_t (bit_pos + 7) in
            if byte >? 0x80 then pb_decode_varint32_loop fuel' varint bit_pos d
            else (varint, d)
      | (_, d) => (varint, d)
      end
  end.

Definition pb_decode_varint32 (d : pson_decoder) : Z * pson_decoder :=
  pb_decode_varint32_loop 6 0 0 d.

Section Varint64.
(** [(uint32_t)(byte&0x7F) << bit_pos] is evaluated in 32 bits; for
    [bit_pos >= 32] the language leaves the result open, and
    [wide_shift] stands for what the target computes. *)
Variable wide_shift : Z -> Z -> Z.

Definition shl_uint32 (x n : Z) : Z :=
  if n <? 32 then uint32_t (Z.shiftl x n) else wide_shift x n.

(** [pb_decode_varint64]: the eleventh read finds [bit_pos = 70]. *)
Fixpoint pb_decode_varint64_loop (fuel : nat) (varint bit_pos : Z)
  (d : pson_decoder) : Z * pson_decoder :=
  match fuel with
  | O => (varint, d)
  | S fuel' =>
      match read d 1 with
      | (Some [byte], d) =>
          if bit_pos >=? 64 then (varint, d)
          else
            let varint :=
              uint64_t (Z.lor varint (shl_uint32 (Z.land byte 0x7F) bit_pos)) in
            let bit_pos := uint8_t (bit_pos + 7) in
            if byte >? 0x80 then pb_decode_varint64_loop fuel' varint bit_pos d
            else (varint, d)
      | (_, d) => (varint, d)
      end
  end.

Definition pb_decode_varint64 (d : pson_decoder) : Z * pson_decoder :=
  pb_decode_varint64_loop 11 0 0 d.
End Varint64.

(** [pb_decode_tag]: the wire type, the field number, the decoder. *)
Definition pb_decode_tag (d : pson_decoder) : Z * Z * pson_decoder :=
  let '(temp, d) := pb_decode_varint32 d in
  (Z.land temp 0x07, Z.shiftr temp 3, d).

(** [pb_skip]: [size] single-byte reads, whatever their outcome. *)
Fixpoint pb_skip_loop (n : nat) (success : bool) (d : pson_decoder)
  : bool * pson_decoder :=
  match n with
  | O => (success, d)
  | S n' =>
      let '(r, d) := read d 1 in
      pb_skip_loop n' (success && succeeded r) d
  end.

Definition pb_skip (size : Z) (d : pson_decoder) : bool * pson_decoder :=
  pb_skip_loop (Z.to_nat size) true d.

(** [pb_read_string(str, size)]: the success of the read, the block at
    [str] after the call, the decoder. *)
Definition pb_read_string (str : list Z) (size : Z) (d : pson_decoder)
  : bool * list Z * pson_decoder :=
  let '(r, d) := read d size in
  let str := match r with Some bytes => memcpy str 0 bytes | None => str end in
  (succeeded r, memcpy str size [0], d).

(** The loop of [pb_read_varint]: the bytes gathered in [temp], or [None]
    for [return false].  Each round consumes a byte or returns, so the
    fuel [pb_read_varint] gives, one more than the source holds, is never
    used up.  (More than ten bytes overrun [temp] in the source; the
    model keeps them.) *)
Fixpoint pb_read_varint_loop (fuel : nat) (temp : list Z) (d : pson_decoder)
  : option (list Z) * pson_decoder :=
  match fuel with
  | O => (None, d)
  | S fuel' =>
      match read d 1 with
      | (Some [byte], d) =>
          let temp := temp ++ [byte] in
          if byte >=? 0x80 then pb_read_varint_loop fuel' temp d
          else (Some temp, d)
      | (_, d) => (None, d)
      end
  end.

Definition pb_read_varint (value : pson) (d : pson_decoder)
  : bool * pson * pson_decoder :=
  match pb_read_varint_loop (S (length (source_ d))) [] d with
  | (Some temp, d) =>
      (true, set_value value (block (memcpy (allocate (len temp)) 0 temp)), d)
  | (None, d) => (false, value, d)
  end.

Section Container.
Context {T : Type}.
Variable dflt : T.
Variable decode_item : T -> pson_decoder -> option (T * pson_decoder).

(** [decode(pson_object&, size)] and [decode(pson_array&, size)]:
    [while(size-(bytes_read()-start_read)>0) decode(c.create_item());]
    in [size_t] arithmetic.  Nothing in the loop forces progress, so it
    runs on fuel; [None] is fuel used up. *)
Fixpoint decode_items (fuel : nat) (container : list T) (size start_read : Z)
  (d : pson_decoder) : option (list T * pson_decoder) :=
  if size_t (size - (bytes_read d - start_read)) >? 0 then
    match fuel with
    | O => None
    | S fuel' =>
        let '(container, i) := create_item dflt container in
        match decode_item (nth i container dflt) d with
        | None => None
        | Some (item, d) =>
            decode_items fuel' (store_item container i item) size start_read d
        end
    end
  else Some (container, d).
End Container.

(** [decode(pson_pair&)], given [decode(pson&)]. *)
Definition decode_pair_with
  (decode_value : pson -> pson_decoder -> option (pson * pson_decoder))
  (item : pson_pair) (d : pson_decoder) : option (pson_pair * pson_decoder) :=
  let '(name_size, d) := pb_decode_varint32 d in
  let '(_, name, d) :=
    pb_read_string (allocate (uint32_t (name_size + 1))) name_size d in
  match decode_value (pair_value item) d with
  | Some (value, d) => Some (mk_pair name value, d)
  | None => None
  end.

(** [decode(pson&)].  The function returns nothing; the model returns the
    value and the decoder as the call leaves them, or [None] when the
    fuel is used up. *)
Fixpoint decode (fuel : nat) (value : pson) (d : pson_decoder)
  : option (pson * pson_decoder) :=
  match fuel with
  | O => None
  | S fuel' =>
      let '(wire_type, field_number, d) := pb_decode_tag d in
      let value := set_type value field_number in
      if wire_type =? length_delimited then
        let '(size, d) := pb_decode_varint32 d in
        if field_number =? string_field then
          let '(_, str, d) :=
            pb_read_string (allocate (uint32_t (size + 1))) size d in
          Some (set_value value (block str), d)
        else if field_number =? bytes_field then
          let varint_size := Pson.get_varint_size size in
          let buffer := allocate (size + varint_size) in
          let buffer := memcpy buffer 0 (Pson.pb_encode_varint size) in
          let '(r, d) := read d size in
          let buffer :=
            match r with
            | Some bytes => memcpy buffer varint_size bytes
            | None => buffer
            end in
          Some (set_value value (block buffer), d)
        else if field_number =? object_field then
          match
            decode_items Object.pair_default (decode_pair_with (decode fuel'))
              fuel' [] size (bytes_read d) d
          with
          | Some (object, d) => Some (set_value value (object_ptr object), d)
          | None => None
          end
        else if field_number =? array_field then
          match
            decode_items pson_default (decode fuel') fuel' [] size (bytes_read d) d
          with
          | Some (array, d) => Some (set_value value (array_ptr array), d)
          | None => None
          end
        else
          let '(_, d) := pb_skip size d in
          Some (value, d)
      else if (field_number =? svarint_field) || (field_number =? varint_field)
      then
        let '(_, value, d) := pb_read_varint value d in
        Some (value, d)
      else if field_number =? float_field then
        let '(r, d) := read d 4 in
        let buffer :=
          match r with
          | Some bytes => memcpy (allocate 4) 0 bytes
          | None => allocate 4
          end in
        Some (set_value value (block buffer), d)
      else if field_number =? double_field then
        let '(r, d) := read d 8 in
        let buffer :=
          match r with
          | Some bytes => memcpy (allocate 8) 0 bytes
          | None => allocate 8
          end in
        Some (set_value value (block buffer), d)
      else Some (value, d)
  end.



(** [decode(pson_array&, size)]. *)
Definition decode_array (fuel : nat) (array : pson_array) (size : Z)
  (d : pson_decoder) : option (pson_array * pson_decoder) :=
  decode_items pson_default (decode fuel) fuel array size (bytes_read d) d.

End Decoder.

(** ** class circular_memory_allocator *)

Module Allocator.

(** The allocator's state is [index_]; a block is named by its offset in
    [buffer_]. *)
Record circular_memory_allocator : Type := mk_allocator { index_ : Z }.

Definition fresh : circular_memory_allocator := mk_allocator 0.

Section Ring.
Variable buffer_size : Z.

(** [allocate(size)]: the offset of [position] and the allocator after
    the call; [index_ + size] is a [size_t] sum. *)
Definition allocate (a : circular_memory_allocator) (size : Z)
  : Z * circular_memory_allocator :=
  let index := if size_t (index_ a + size) >? buffer_size then 0 else index_ a in
  (index, mk_allocator (size_t (index + size))).

(** [deallocate] has an empty body. *)
Definition deallocate (a : circular_memory_allocator) (position : Z)
  : circular_memory_allocator := a.

End Ring.

End Allocator.

(** ** pson_container<T>::iterator *)

Module Container.

Section Iterator.
Context {T : Type}.

(** An iterator is its [current] pointer: the items from the current one
    on, the empty list for [NULL]. *)
Definition iterator : Type := list T.

Definition begin (c : list T) : iterator := c.

Definition valid (it : iterator) : bool :=
  match it with
  | [] => false
  | _ :: _ => true
  end.

(** [next()]: the result and the iterator after the call. *)
Definition next (it : iterator) : bool * iterator :=
  match it with
  | [] => (false, [])
  | _ :: rest => (true, rest)
  end.

(** [item()]; on an iterator that is not valid the source dereferences
    [NULL], which is outside the model and yields [dflt]. *)
Definition item (dflt : T) (it : iterator) : T := hd dflt it.

(** The loop [while(it.valid()){ body(it.item()); it.next(); }] of
    [encode(pson_object&)] and [encode(pson_array&)], over any state. *)
Fixpoint while_valid {S : Type} (fuel : nat) (dflt : T) (body : T -> S -> S)
  (it : iterator) (s : S) : option S :=
  if valid it then
    match fuel with
    | O => None
    | S fuel' =>
        let s := body (item dflt it) s in
        let '(_, it) := next it in
        while_valid fuel' dflt body it s
    end
  else Some s.

End Iterator.

End Container.

(** ** class pson: stored floats *)

Module Memory.

(** The integer a block holds in little-endian order. *)
Fixpoint le_value (bytes : list Z) : Z :=
  match bytes with
  | [] => 0
  | byte :: rest => byte + 2 ^ 8 * le_value rest
  end.

Section Format.
Variables prec emax width : Z.

(** The number a bit pattern stands for; every NaN pattern is the one
    NaN of [spec_float]. *)
Definition of_bits (z : Z) : spec_float :=
  let s := 2 ^ (width - 1) <=? z in
  let b := (z / 2 ^ (prec - 1)) mod 2 ^ (width - prec) in
  let f := z mod 2 ^ (prec - 1) in
  if b =? 0 then
    match f with
    | Zpos m => S754_finite s m (emin prec emax)
    | _ => S754_zero s
    end
  else if b =? 2 ^ (width - prec) - 1 then
    if f =? 0 then S754_infinity s else S754_nan
  else
    match f + 2 ^ (prec - 1) with
    | Zpos m => S754_finite s m (b + emin prec emax - 1)
    | _ => S754_nan
    end.
End Format.

(** The payload read through a [float] or a [double] pointer. *)
Definition load_float (v : slot pson) : spec_float :=
  of_bits 24 128 32 (le_value (firstn 4 (bytes_at v))).

Definition load_double (v : slot pson) : spec_float :=
  of_bits 53 1024 64 (le_value (firstn 8 (bytes_at v))).

End Memory.

(** ** class pson: reading a value *)

Module Value.

Definition is_boolean (p : pson) : bool :=
  (field_type_ p =? true_field) || (field_type_ p =? false_field).

Definition is_string (p : pson) : bool := field_type_ p =? string_field.

Definition is_bytes (p : pson) : bool := field_type_ p =? bytes_field.

Definition is_number (p : pson) : bool :=
  (field_type_ p =? varint_field) || (field_type_ p =? svarint_field)
  || (field_type_ p =? float_field) || (field_type_ p =? double_field)
  || (field_type_ p =? zero_field) || (field_type_ p =? one_field).

Definition is_object (p : pson) : bool := field_type_ p =? object_field.

Definition is_array (p : pson) : bool := field_type_ p =? array_field.

Definition is_null (p : pson) : bool := field_type_ p =? null_field.

(** [operator const char *() const]; the literal [""] is the one
    byte 0. *)
Definition to_c_str (p : pson) : list Z :=
  if field_type_ p =? string_field then bytes_at (value_ p) else [0].

(** [struct buffer_descriptor]: [buffer_] is [NULL] or points into a
    block, and is given as the bytes from there to the end of the
    block. *)
Record buffer_descriptor : Type :=
  mk_descriptor { buffer_ : option (list Z); size_ : Z }.

(** [operator buffer_descriptor()]. *)
Definition to_buffer (p : pson) : buffer_descriptor :=
  if field_type_ p =? bytes_field then
    let size := Pson.pb_decode_varint (value_ p) in
    mk_descriptor
      (Some (skipn (Z.to_nat (Pson.get_varint_size size)) (bytes_at (value_ p))))
      size
  else mk_descriptor None 0.

(** [template<class T> operator T() const] at [T = int64_t].  The
    varint read is a [uint64_t], negated as such under the svarint tag,
    and converted to [int64_t] by its two's-complement reading; [None] is
    a float or double whose conversion to [int64_t] is undefined. *)
Definition to_int64 (p : pson) : option Z :=
  let type := field_type_ p in
  if (type =? zero_field) || (type =? false_field) then Some 0
  else if (type =? one_field) || (type =? true_field) then Some 1
  else if type =? float_field then IEEE.to_int64 (Memory.load_float (value_ p))
  else if type =? double_field then IEEE.to_int64 (Memory.load_double (value_ p))
  else if type =? varint_field then
    Some (int64_t (Pson.pb_decode_varint (value_ p)))
  else if type =? svarint_field then
    Some (int64_t (uint64_t (- Pson.pb_decode_varint (value_ p))))
  else Some 0.

(** The same operator at [T = double]: the [uint64_t] of the varint
    cases is converted to the nearest double. *)
Definition to_double (p : pson) : spec_float :=
  let type := field_type_ p in
  if (type =? zero_field) || (type =? false_field) then IEEE.double_of_int 0
  else if (type =? one_field) || (type =? true_field) then IEEE.double_of_int 1
  else if type =? float_field then IEEE.to_double (Memory.load_float (value_ p))
  else if type =? double_field then Memory.load_double (value_ p)
  else if type =? varint_field then
    IEEE.double_of_int (Pson.pb_decode_varint (value_ p))
  else if type =? svarint_field then
    IEEE.double_of_int (uint64_t (- Pson.pb_decode_varint (value_ p)))
  else IEEE.double_of_int 0.

(** [pson::operator pson_object &()] and [pson::operator pson_array &()]:
    the value after the call; the reference returned designates the
    container its payload points to. *)
Definition as_object (p : pson) : pson :=
  if negb (field_type_ p =? object_field) then mk_pson object_field (object_ptr [])
  else p.

Definition as_array (p : pson) : pson :=
  if negb (field_type_ p =? array_field) then mk_pson array_field (array_ptr [])
  else p.

(** [pson & pson::operator[](const char *name)]: the value after the
    call and the position, in its object, of the pair whose value is
    returned by reference. *)
Definition subscript (p : pson) (name : list Z) : pson * nat :=
  let p := as_object p in
  let '(object, i) := Object.subscript (object_at (value_ p)) name in
  (mk_pson (field_type_ p) (object_ptr object), i).

(** [const pson & pson::operator[](const char *name) const]: the value
    after the call and the value the result refers to.  On an object the
    payload pointer is cast to [pson_object *], which is not const, so
    the subscript that runs is the mutable one of [pson_object]: a name
    that is absent is linked, in a method that is declared const. *)
Definition subscript_const (p : pson) (name : list Z) : pson * pson :=
  if negb (field_type_ p =? object_field) then (p, empty_value)
  else
    let '(object, i) := Object.subscript (object_at (value_ p)) name in
    (mk_pson (field_type_ p) (object_ptr object),
     pair_value (nth i object Object.pair_default)).

(** An assignment through the reference [operator[]] returned: [assign]
    is applied to the value of the pair at position [i]. *)
Definition assign_at (p : pson) (i : nat) (assign : pson -> pson) : pson :=
  let object := object_at (value_ p) in
  let item := nth i object Object.pair_default in
  mk_pson (field_type_ p)
    (object_ptr (store_item object i (mk_pair (pair_name item) (assign (pair_value item))))).

End Value.

(** ** class pson_array *)

Module Array.

(** [template<class T> void add(T item_value)]:
    [create_item() = item_value], with [assign] the [operator=] that
    [T] selects. *)
Definition add (assign : pson -> pson) (array : pson_array) : pson_array :=
  let '(array, i) := create_item pson_default array in
  store_item array i (assign (nth i array pson_default)).

End Array.

(** * What the specification says about varints *)

(** The number of significant bits of a magnitude. *)
Definition bitlength (M : Z) : Z := if M =? 0 then 0 else Z.log2 M + 1.

(** "ceil(bitlength(M)/7), at least 1". *)
Definition minimal_varint_size (M : Z) : Z := Z.max 1 ((bitlength M + 6) / 7).

(** * Notions used to state the properties *)

Import Encoder.
Import Decoder.

(** [emits f bs]: run with the tallying [write], [f] adds [len bs] to
    the tally and leaves the sink alone; run with a sink that keeps its
    bytes, it adds the same to the tally and appends [bs]. *)
Definition emits (f : writer -> pson_encoder -> pson_encoder) (bs : list Z) : Prop :=
  forall e,
    f write e = mk_encoder (written_ e + len bs) (sink_ e) /\
    f write_sink e = mk_encoder (written_ e + len bs) (sink_ e ++ bs).

(** The bytes of a tag. *)
Definition tag_bytes (wire_type field_number : Z) : list Z :=
  Pson.pb_encode_varint
    (Z.lor (uint64_t (Z.shiftl (uint32_t field_number) 3)) wire_type).

(** The varint at the head of a block, as [pb_write_varint] walks it. *)
Fixpoint varint_prefix (buffer : list Z) : list Z :=
  match buffer with
  | [] => []
  | byte :: rest => byte :: (if byte >=? 0x80 then varint_prefix rest else [])
  end.

(** The payload of a bytes value as [encode] writes it: the length
    varint at the head of the block, then as many bytes as it says. *)
Definition bytes_payload (v : slot pson) : list Z :=
  let buffer := bytes_at v in
  varint_prefix buffer
  ++ firstn (Z.to_nat (Pson.pb_decode_varint v))
       (skipn (Z.to_nat (len (varint_prefix buffer))) buffer).

(** The bytes of a pair: its name as a length-delimited string, then
    its value. *)
Definition pair_wire (item : pson_pair) : list Z :=
  (Pson.pb_encode_varint (strlen (pair_name item))
   ++ firstn (Z.to_nat (strlen (pair_name item))) (pair_name item))
  ++ encoded (pair_value item).

(** The body of a composite: its children, one after the other. *)
Definition object_wire (object : pson_object) : list Z := flat_map pair_wire object.
Definition array_wire (array : pson_array) : list Z := flat_map encoded array.

(** The tags that stand for their value on their own. *)
Definition zero_payload_tags : list Z :=
  [null_field; true_field; false_field; zero_field; one_field].

(** A decoder that has taken [k] more bytes from its source. *)
Definition advanced (d : pson_decoder) (k : nat) : pson_decoder :=
  mk_decoder (read_ d + Z.of_nat k) (skipn k (source_ d)).

(** The types [decode] knows under the length-delimited kind, and the
    types for which it reads a payload under the other kinds. *)
Definition known_length_delimited (field_number : Z) : bool :=
  (field_number =? string_field) || (field_number =? bytes_field)
  || (field_number =? object_field) || (field_number =? array_field).

Definition known_with_payload (field_number : Z) : bool :=
  (field_number =? svarint_field) || (field_number =? varint_field)
  || (field_number =? float_field) || (field_number =? double_field).

(** The tags the integer rule can set. *)
Definition integer_tags : list Z := [zero_field; one_field; varint_field; svarint_field].

(** The double 1.5. *)
Definition double_1_5 : spec_float := S754_finite false 6755399441055744 (-52).
(** The double 3 + 2^-30. *)
Definition double_3_and_a_bit : spec_float := S754_finite false 6755399443152896 (-51).
(** The double 1000 + 2^-16. *)
Definition double_1000_and_a_bit : spec_float := S754_finite false 8796093156425728 (-43).
(** The double nearest to 0.1 + 1e-12. *)
Definition double_0_1_offset : spec_float := S754_finite false 7205759403864852 (-56).

(** A block that holds exactly one varint of at most ten bytes. *)
Fixpoint complete_varint (buffer : list Z) : bool :=
  match buffer with
  | [] => false
  | byte :: rest =>
      if byte >=? 0x80 then complete_varint rest
      else match rest with [] => true | _ => false end
  end.

(** A block that holds a C string of fewer than 128 characters and its
    terminator, and nothing else. *)
Definition short_c_string (buffer : list Z) : bool :=
  (if list_eq_dec Z.eq_dec buffer (strdup buffer) then true else false)
  && (strlen buffer <? 128).

(** A block as [set_bytes] fills it, for fewer than 128 bytes. *)
Definition short_bytes (buffer : list Z) : bool :=
  match buffer with
  | [] => false
  | size :: bytes => (size =? len bytes) && (size <? 128)
  end.

(** The trees the assignments build, with every string, name, byte
    buffer and composite body shorter than 128 bytes on the wire, and no
    stale pointer under a tag that has no payload. *)
Fixpoint short_tree (v : pson) : bool :=
  let type := field_type_ v in
  match value_ v with
  | NULL =>
      (type =? null_field) || (type =? true_field) || (type =? false_field)
      || (type =? zero_field) || (type =? one_field)
  | block buffer =>
      if type =? string_field then short_c_string buffer
      else if type =? bytes_field then short_bytes buffer
      else if (type =? svarint_field) || (type =? varint_field) then
        complete_varint buffer && (len buffer <=? 10)
      else if type =? float_field then len buffer =? 4
      else if type =? double_field then len buffer =? 8
      else false
  | object_ptr object =>
      (type =? object_field)
      && forallb
           (fun item => short_c_string (pair_name item) && short_tree (pair_value item))
           object
      && (len (object_wire object) <? 128)
  | array_ptr array =>
      (type =? array_field) && forallb short_tree array
      && (len (array_wire array) <? 128)
  end.

(** The number of values in a tree: fuel enough to decode it. *)
Fixpoint nodes (v : pson) : nat :=
  match value_ v with
  | object_ptr object =>
      S (fold_right (fun item n => (nodes (pair_value item) + n)%nat) O object)
  | array_ptr array => S (fold_right (fun item n => (nodes item + n)%nat) O array)
  | _ => 1
  end.

(** Decoding the encoding of [v] into a new value gives [v] back and
    consumes exactly the encoding, whatever follows it in the source. *)
Definition round_trips (fuel : nat) (v : pson) : Prop :=
  forall r rest,
    decode fuel pson_default (mk_decoder r (encoded v ++ rest))
    = Some (v, mk_decoder (r + len (encoded v)) rest).

(** An object with a repeated name, a nested array and one value of
    each of several kinds. *)
Definition sample_tree : pson :=
  mk_pson object_field
    (object_ptr
       [mk_pair [97; 0] (Pson.assign_int pson_default (-300));
        mk_pair [98; 0]
          (mk_pson array_field
             (array_ptr
                [mk_pson true_field NULL; Pson.assign_string pson_default [104; 105];
                 Pson.set_bytes pson_default [1; 2; 3];
                 mk_pson float_field (block [0; 0; 192; 63])]));
        mk_pair [97; 0] (mk_pson zero_field NULL)]).

(** An item decoder gives [x] back from the bytes [wire x], consuming
    exactly those, whatever follows them in the source. *)
Definition restores {T : Type} (dflt : T)
  (decode_item : T -> pson_decoder -> option (T * pson_decoder))
  (wire : T -> list Z) (x : T) : Prop :=
  0 < len (wire x) /\
  forall r rest,
    decode_item dflt (mk_decoder r (wire x ++ rest))
    = Some (x, mk_decoder (r + len (wire x)) rest).

(** A run of allocations: the blocks handed out, each as its offset and
    its size, and the allocator after the last one. *)
Fixpoint allocate_all (buffer_size : Z) (a : Allocator.circular_memory_allocator)
  (sizes : list Z) : list (Z * Z) * Allocator.circular_memory_allocator :=
  match sizes with
  | [] => ([], a)
  | size :: rest =>
      let '(position, a) := Allocator.allocate buffer_size a size in
      let '(blocks, a) := allocate_all buffer_size a rest in
      ((position, size) :: blocks, a)
  end.

(** Blocks of the given sizes laid back to back from [start]. *)
Fixpoint laid_out (start : Z) (sizes : list Z) : list (Z * Z) :=
  match sizes with
  | [] => []
  | size :: rest => (start, size) :: laid_out (start + size) rest
  end.

(** The sum of a list of sizes. *)
Definition total (sizes : list Z) : Z := fold_right Z.add 0 sizes.

(** A block lies within a buffer of [buffer_size] bytes. *)
Definition within (buffer_size : Z) (b : Z * Z) : Prop :=
  0 <= fst b /\ fst b + snd b <= buffer_size.

(** The pairs of [sample_tree]. *)
Definition sample_tree_pairs : pson_object := object_at (value_ sample_tree).

(** From [d] to [d'] the decoder has taken bytes from the head of its
    source and counted each of them. *)
Definition took (d d' : pson_decoder) : Prop :=
  exists taken,
    source_ d = taken ++ source_ d' /\ read_ d' = read_ d + len taken.

(** How many of the seven type predicates hold of a value. *)
Definition kinds_of (p : pson) : nat :=
  length
    (filter (fun is_kind => is_kind p)
       [Value.is_null; Value.is_boolean; Value.is_number; Value.is_string;
        Value.is_bytes; Value.is_object; Value.is_array]).

(** The tree with the payload pointer set to [NULL] under every tag that
    stands for its value on its own, in the value and in every value
    below it: what a pointer left behind by an earlier assignment cannot
    be told from on the wire. *)
Fixpoint cleared (v : pson) : pson :=
  let type := field_type_ v in
  if existsb (Z.eqb type) zero_payload_tags then mk_pson type NULL
  else
    mk_pson type
      match value_ v with
      | object_ptr object =>
          object_ptr
            (map (fun item => mk_pair (pair_name item) (cleared (pair_value item)))
               object)
      | array_ptr array => array_ptr (map cleared array)
      | other => other
      end.

(** * Properties *)

(** ** Arithmetic of seven-bit groups *)

Lemma land_127 (v : Z) : Z.land v 0x7F = v mod 128.
Proof. change 0x7F with (Z.ones 7). now rewrite Z.land_ones by lia. Qed.

Lemma shiftr_7 (v : Z) : Z.shiftr v 7 = v / 128.
Proof. now rewrite Z.shiftr_div_pow2 by lia. Qed.

Lemma lor_disjoint (a b n : Z) :
  0 <= n -> 0 <= a < 2 ^ n -> Z.lor a (b * 2 ^ n) = a + b * 2 ^ n.
Proof.
  intros Hn Ha.
  rewrite <- (Z.add_lor_land a (b * 2 ^ n)).
  replace (Z.land a (b * 2 ^ n)) with 0; [lia|].
  symmetry. apply Z.bits_inj'. intros i Hi.
  rewrite Z.land_spec, Z.bits_0, <- Z.shiftl_mul_pow2 by lia.
  destruct (Z.lt_ge_cases i n) as [Hlt|Hge].
  - rewrite Z.shiftl_spec_low by lia. apply andb_false_r.
  - replace a with (a mod 2 ^ n) by (apply Z.mod_small; lia).
    rewrite Z.mod_pow2_bits_high by lia. reflexivity.
Qed.

Lemma group_mark (x : Z) : 0 <= x < 128 -> Z.lor x 0x80 = x + 128.
Proof. intros Hx. apply (lor_disjoint x 1 7); simpl; lia. Qed.

Lemma uint8_group (v : Z) : uint8_t (Z.land v 0x7F) = v mod 128.
Proof.
  rewrite land_127. unfold uint8_t.
  apply Z.mod_small. pose proof (Z.mod_pos_bound v 128). simpl; lia.
Qed.

Lemma bitlength_small (v : Z) : 0 <= v < 128 -> minimal_varint_size v = 1.
Proof.
  intros Hv. unfold minimal_varint_size, bitlength.
  destruct (v =? 0) eqn:E; [reflexivity|].
  apply Z.eqb_neq in E.
  assert (Z.log2 v < 7) by (apply Z.log2_lt_pow2; simpl; lia).
  pose proof (Z.log2_nonneg v).
  assert ((Z.log2 v + 1 + 6) / 7 = 1) by (symmetry; apply Z.div_unique with (r := Z.log2 v); lia).
  lia.
Qed.

Lemma bitlength_step (v : Z) :
  128 <= v -> minimal_varint_size v = 1 + minimal_varint_size (v / 128).
Proof.
  intros Hv. unfold minimal_varint_size, bitlength.
  assert (H7 : 7 <= Z.log2 v) by (apply Z.log2_le_pow2; simpl; lia).
  assert (Hq : 0 < v / 128) by (apply Z.div_str_pos; lia).
  destruct (v =? 0) eqn:E; [apply Z.eqb_eq in E; lia|].
  destruct (v / 128 =? 0) eqn:E'; [apply Z.eqb_eq in E'; lia|].
  rewrite <- shiftr_7, Z.log2_shiftr by lia.
  rewrite (Z.max_r 0 (Z.log2 v - 7)) by lia.
  replace (Z.log2 v + 1 + 6) with (Z.log2 v - 7 + 1 + 6 + 1 * 7) by lia.
  rewrite Z.div_add by lia.
  assert (1 <= (Z.log2 v - 7 + 1 + 6) / 7) by (apply Z.div_le_lower_bound; lia).
  lia.
Qed.

(** ** [pson::get_varint_size] and [pson::pb_encode_varint] *)

Lemma pow_7_succ (n : nat) : 2 ^ (7 * Z.of_nat (S n)) = 128 * 2 ^ (7 * Z.of_nat n).
Proof.
  replace (7 * Z.of_nat (S n)) with (7 + 7 * Z.of_nat n) by lia.
  rewrite Z.pow_add_r by lia. reflexivity.
Qed.

Lemma group_rest_bound (n : nat) (v : Z) :
  0 <= v < 2 ^ (7 * Z.of_nat (S n)) -> 0 <= v / 128 < 2 ^ (7 * Z.of_nat n).
Proof.
  rewrite pow_7_succ. intros Hv. split.
  - apply Z.div_pos; lia.
  - apply Z.div_lt_upper_bound; lia.
Qed.

Lemma group_rest_zero (v : Z) : 0 <= v -> (v / 128 =? 0) = (v <? 128).
Proof.
  intros Hv. destruct (v <? 128) eqn:E.
  - apply Z.ltb_lt in E. apply Z.eqb_eq. apply Z.div_small; lia.
  - apply Z.ltb_ge in E. apply Z.eqb_neq.
    assert (0 < v / 128) by (apply Z.div_str_pos; lia). lia.
Qed.

Lemma get_varint_size_loop_spec (fuel : nat) :
  forall v size, 0 <= v < 2 ^ (7 * Z.of_nat (S fuel)) ->
    Pson.get_varint_size_loop (S fuel) v size = size + minimal_varint_size v - 1.
Proof.
  induction fuel as [|fuel IH]; intros v size Hv.
  - simpl in Hv. cbn [Pson.get_varint_size_loop].
    rewrite shiftr_7, group_rest_zero by lia.
    replace (v <? 128) with true by (symmetry; apply Z.ltb_lt; lia).
    rewrite bitlength_small; lia.
  - change (Pson.get_varint_size_loop (S (S fuel)) v size)
      with (if Z.shiftr v 7 =? 0 then size
            else Pson.get_varint_size_loop (S fuel) (Z.shiftr v 7) (size + 1)).
    rewrite shiftr_7, group_rest_zero by lia.
    destruct (v <? 128) eqn:E.
    + apply Z.ltb_lt in E. rewrite bitlength_small; lia.
    + apply Z.ltb_ge in E.
      rewrite IH by (apply group_rest_bound; exact Hv).
      rewrite (bitlength_step v E). lia.
Qed.

Lemma uint64_bound (v : Z) : 0 <= uint64_t v < 2 ^ (7 * Z.of_nat 10).
Proof.
  unfold uint64_t. pose proof (Z.mod_pos_bound v (2 ^ 64)).
  change (2 ^ (7 * Z.of_nat 10)) with (2 ^ 70).
  assert (2 ^ 64 < 2 ^ 70) by (apply Z.pow_lt_mono_r; lia). lia.
Qed.

Lemma get_varint_size_minimal (v : Z) :
  Pson.get_varint_size v = minimal_varint_size (uint64_t v).
Proof.
  unfold Pson.get_varint_size.
  rewrite get_varint_size_loop_spec by apply uint64_bound. lia.
Qed.

Lemma pb_encode_varint_loop_length (fuel : nat) :
  forall v, 0 <= v < 2 ^ (7 * Z.of_nat (S fuel)) ->
    len (Pson.pb_encode_varint_loop (S fuel) v) = minimal_varint_size v.
Proof.
  unfold len.
  induction fuel as [|fuel IH]; intros v Hv.
  - simpl in Hv. cbn [Pson.pb_encode_varint_loop].
    rewrite shiftr_7, group_rest_zero by lia.
    replace (v <? 128) with true by (symmetry; apply Z.ltb_lt; lia).
    rewrite bitlength_small by lia. reflexivity.
  - change (Pson.pb_encode_varint_loop (S (S fuel)) v)
      with ((if Z.shiftr v 7 =? 0 then uint8_t (Z.land v 0x7F)
             else Z.lor (uint8_t (Z.land v 0x7F)) 0x80)
            :: (if Z.shiftr v 7 =? 0 then []
                else Pson.pb_encode_varint_loop (S fuel) (Z.shiftr v 7))).
    rewrite shiftr_7, group_rest_zero by lia.
    destruct (v <? 128) eqn:E.
    + apply Z.ltb_lt in E. rewrite bitlength_small by lia. reflexivity.
    + apply Z.ltb_ge in E. cbn [length].
      rewrite Nat2Z.inj_succ, IH by (apply group_rest_bound; exact Hv).
      rewrite (bitlength_step v E). lia.
Qed.

(** The block [operator=(T)] allocates has the size the varint needs. *)
Lemma pb_encode_varint_length (v : Z) :
  len (Pson.pb_encode_varint v) = Pson.get_varint_size v.
Proof.
  unfold Pson.pb_encode_varint.
  rewrite pb_encode_varint_loop_length by apply uint64_bound.
  now rewrite get_varint_size_minimal.
Qed.

(** Fuel beyond what the value needs changes nothing. *)
Lemma pb_encode_varint_loop_fuel (fuel : nat) :
  forall v extra, 0 <= v < 2 ^ (7 * Z.of_nat (S fuel)) ->
    Pson.pb_encode_varint_loop (S fuel + extra) v = Pson.pb_encode_varint_loop (S fuel) v.
Proof.
  induction fuel as [|fuel IH]; intros v extra Hv.
  - simpl in Hv. cbn [Nat.add Pson.pb_encode_varint_loop].
    rewrite shiftr_7, group_rest_zero by lia.
    now replace (v <? 128) with true by (symmetry; apply Z.ltb_lt; lia).
  - change (S (S fuel) + extra)%nat with (S (S fuel + extra)).
    cbn [Pson.pb_encode_varint_loop].
    rewrite shiftr_7. destruct (v / 128 =? 0); [reflexivity|].
    f_equal. apply (IH (v / 128) extra). apply group_rest_bound; exact Hv.
Qed.

(** ** What an encoder routine hands to [write] *)

Lemma len_app (a b : list Z) : len (a ++ b) = len a + len b.
Proof. unfold len. rewrite length_app. lia. Qed.

Lemma len_nonneg (a : list Z) : 0 <= len a.
Proof. unfold len. lia. Qed.

Lemma emits_nothing : emits (fun _ e => e) [].
Proof.
  intros [n k]; cbn. rewrite app_nil_r, Z.add_0_r. split; reflexivity.
Qed.

Lemma emits_write (bs : list Z) : emits (fun w e => w e bs) bs.
Proof. intros e; split; reflexivity. Qed.

Lemma emits_seq f g a b :
  emits f a -> emits g b -> emits (fun w e => g w (f w e)) (a ++ b).
Proof.
  intros Hf Hg e. destruct (Hf e) as [Hf1 Hf2].
  rewrite Hf1, Hf2.
  destruct (Hg (mk_encoder (written_ e + len a) (sink_ e))) as [Hg1 _].
  destruct (Hg (mk_encoder (written_ e + len a) (sink_ e ++ a))) as [_ Hg2].
  rewrite Hg1, Hg2. cbn. rewrite len_app, app_assoc, Z.add_assoc.
  split; reflexivity.
Qed.

Lemma emits_ext f g bs : (forall w e, f w e = g w e) -> emits f bs -> emits g bs.
Proof. intros E H e. rewrite <- !E. apply H. Qed.

Lemma emits_fold {A : Type} (f : A -> writer -> pson_encoder -> pson_encoder)
  (g : A -> list Z) (l : list A) :
  (forall x, In x l -> emits (f x) (g x)) ->
  emits (fun w e => fold_left (fun e x => f x w e) l e) (flat_map g l).
Proof.
  induction l as [|x l IH]; intros H.
  - apply emits_nothing.
  - cbn [fold_left flat_map].
    apply emits_seq with (f := f x)
             (g := fun w e => fold_left (fun e x => f x w e) l e).
    + apply H. now left.
    + apply IH. intros y Hy. apply H. now right.
Qed.

Lemma emits_unique f a b : emits f a -> emits f b -> a = b.
Proof.
  intros Ha Hb. destruct (Ha fresh) as [_ Ea]. destruct (Hb fresh) as [_ Eb].
  rewrite Ea in Eb. now inversion Eb.
Qed.

(** The encoder's varint writer hands over the bytes that
    [pson::pb_encode_varint] stores. *)
Lemma encoder_varint_loop (w : writer) (fuel : nat) :
  forall v e, 0 <= v ->
    pb_encode_varint_loop w fuel v e
    = fold_left (fun e b => w e [b]) (Pson.pb_encode_varint_loop fuel v) e.
Proof.
  induction fuel as [|fuel IH]; intros v e Hv; [reflexivity|].
  cbn [pb_encode_varint_loop Pson.pb_encode_varint_loop].
  assert (Hq : 0 <= Z.shiftr v 7) by (apply Z.shiftr_nonneg; exact Hv).
  destruct (Z.shiftr v 7 =? 0) eqn:E.
  - apply Z.eqb_eq in E. rewrite E. reflexivity.
  - apply Z.eqb_neq in E.
    replace (Z.shiftr v 7 >? 0) with true by (symmetry; apply Z.gtb_lt; lia).
    cbn [fold_left]. now rewrite IH.
Qed.

Lemma emits_bytewise (bs : list Z) :
  emits (fun w e => fold_left (fun e b => w e [b]) bs e) bs.
Proof.
  assert (E : flat_map (fun b : Z => [b]) bs = bs)
    by (induction bs as [|b bs IH]; cbn; [|rewrite IH]; reflexivity).
  pose proof (emits_fold (fun b w e => w e [b]) (fun b => [b]) bs) as H.
  rewrite E in H. apply H.
  intros b _. apply emits_write.
Qed.

Lemma uint64_nonneg (v : Z) : 0 <= uint64_t v.
Proof. unfold uint64_t. apply Z.mod_pos_bound. reflexivity. Qed.

Lemma emits_varint (v : Z) :
  emits (fun w => pb_encode_varint w v) (Pson.pb_encode_varint v).
Proof.
  apply emits_ext with (2 := emits_bytewise (Pson.pb_encode_varint v)).
  intros w e. unfold pb_encode_varint.
  symmetry. apply encoder_varint_loop. apply uint64_nonneg.
Qed.

Lemma emits_tag (wire_type field_number : Z) :
  emits (fun w => pb_encode_tag w wire_type field_number)
    (tag_bytes wire_type field_number).
Proof. apply emits_varint. Qed.

Lemma pb_write_varint_loop_spec (w : writer) (buffer : list Z) :
  forall n e,
    pb_write_varint_loop w buffer n e
    = (n + len (varint_prefix buffer),
       fold_left (fun e b => w e [b]) (varint_prefix buffer) e).
Proof.
  induction buffer as [|byte rest IH]; intros n e.
  - cbn. now rewrite Z.add_0_r.
  - cbn [pb_write_varint_loop varint_prefix].
    destruct (byte >=? 0x80).
    + rewrite IH. cbn [fold_left]. unfold len. cbn [length].
      f_equal. lia.
    + cbn [fold_left]. unfold len. cbn [length]. f_equal.
Qed.

Lemma pb_write_varint_count (w : writer) (buffer : list Z) (e : pson_encoder) :
  fst (pb_write_varint w buffer e) = len (varint_prefix buffer).
Proof. unfold pb_write_varint. now rewrite pb_write_varint_loop_spec. Qed.

Lemma emits_write_varint (buffer : list Z) :
  emits (fun w e => snd (pb_write_varint w buffer e)) (varint_prefix buffer).
Proof.
  apply emits_ext with (2 := emits_bytewise (varint_prefix buffer)).
  intros w e. unfold pb_write_varint. now rewrite pb_write_varint_loop_spec.
Qed.

Lemma emits_string (str : list Z) :
  emits (fun w => pb_encode_string w str)
    (Pson.pb_encode_varint (strlen str) ++ firstn (Z.to_nat (strlen str)) str).
Proof.
  apply emits_seq with (f := fun w => pb_encode_varint w (strlen str))
           (g := fun w e => w e (firstn (Z.to_nat (strlen str)) str)).
  - apply emits_varint.
  - apply emits_write.
Qed.

(** Two-pass sizing: what [pb_encode_submessage] hands over, given what
    [encode(element)] does. *)
Lemma emits_submessage el body (field_number : Z) :
  emits el body ->
  emits (fun w => pb_encode_submessage w el field_number)
    (tag_bytes length_delimited field_number
     ++ Pson.pb_encode_varint (len body) ++ body).
Proof.
  intros Hel.
  assert (Hcount : bytes_written (el write fresh) = len body)
    by (destruct (Hel fresh) as [E _]; rewrite E; reflexivity).
  unfold pb_encode_submessage. rewrite Hcount.
  apply emits_seq with (f := fun w => pb_encode_tag w length_delimited field_number)
           (g := fun w e => el w (pb_encode_varint w (len body) e)).
  - apply emits_tag.
  - apply emits_seq with (f := fun w => pb_encode_varint w (len body)) (g := el).
    + apply emits_varint.
    + exact Hel.
Qed.

(** ** Reading a stored varint back: [pson::pb_decode_varint] *)

Lemma group_shift_fits (v pos : Z) :
  0 <= v -> 0 <= pos -> v * 2 ^ (7 * pos) < 2 ^ 64 ->
  0 <= (v mod 128) * 2 ^ (7 * pos) < 2 ^ 64.
Proof.
  intros Hv Hpos Hfit.
  assert (HP : 0 < 2 ^ (7 * pos)) by (apply Z.pow_pos_nonneg; lia).
  pose proof (Z.mod_pos_bound v 128 ltac:(lia)) as Hg.
  assert (v mod 128 <= v) by (apply Z.mod_le; lia).
  split.
  - apply Z.mul_nonneg_nonneg; lia.
  - apply Z.le_lt_trans with (v * 2 ^ (7 * pos)); [|exact Hfit].
    apply Z.mul_le_mono_nonneg_r; lia.
Qed.

Lemma decode_group (acc v pos : Z) :
  0 <= v -> 0 <= pos -> 0 <= acc < 2 ^ (7 * pos) -> v * 2 ^ (7 * pos) < 2 ^ 64 ->
  Z.lor acc (uint64_t (Z.shiftl (v mod 128) (pos * 7)))
  = acc + (v mod 128) * 2 ^ (7 * pos).
Proof.
  intros Hv Hpos Hacc Hfit.
  rewrite Z.shiftl_mul_pow2, (Z.mul_comm pos 7) by lia.
  unfold uint64_t. rewrite Z.mod_small by (apply group_shift_fits; assumption).
  apply lor_disjoint; lia.
Qed.

Lemma group_split (v acc P : Z) :
  acc + v mod 128 * P + v / 128 * (128 * P) = acc + v * P.
Proof.
  pose proof (Z.div_mod v 128 ltac:(lia)) as Hdm.
  rewrite Hdm at 3. ring.
Qed.

Lemma pb_decode_varint_loop_encode (fuel : nat) :
  forall v acc pos rest,
    0 <= v < 2 ^ (7 * Z.of_nat (S fuel)) -> 0 <= pos ->
    0 <= acc < 2 ^ (7 * pos) -> v * 2 ^ (7 * pos) < 2 ^ 64 ->
    Pson.pb_decode_varint_loop (Pson.pb_encode_varint_loop (S fuel) v ++ rest) acc pos
    = acc + v * 2 ^ (7 * pos).
Proof.
  induction fuel as [|fuel IH]; intros v acc pos rest Hv Hpos Hacc Hfit.
  all: pose proof (Z.mod_pos_bound v 128 ltac:(lia)) as Hg.
  all: pose proof (decode_group acc v pos ltac:(lia) Hpos Hacc Hfit) as Hstep.
  - change (2 ^ (7 * Z.of_nat 1)) with 128 in Hv.
    cbn [Pson.pb_encode_varint_loop app].
    rewrite shiftr_7, group_rest_zero, uint8_group by lia.
    replace (v <? 128) with true by (symmetry; apply Z.ltb_lt; lia).
    cbn [app Pson.pb_decode_varint_loop].
    rewrite land_127, Z.mod_mod, Hstep by lia.
    replace (v mod 128 >=? 128) with false by (symmetry; rewrite Z.geb_leb; apply Z.leb_gt; lia).
    rewrite (Z.mod_small v 128) by lia. reflexivity.
  - change (Pson.pb_encode_varint_loop (S (S fuel)) v)
      with ((if Z.shiftr v 7 =? 0 then uint8_t (Z.land v 0x7F)
             else Z.lor (uint8_t (Z.land v 0x7F)) 0x80)
            :: (if Z.shiftr v 7 =? 0 then []
                else Pson.pb_encode_varint_loop (S fuel) (Z.shiftr v 7))).
    rewrite shiftr_7, group_rest_zero, uint8_group by lia.
    destruct (v <? 128) eqn:E.
    + apply Z.ltb_lt in E.
      cbn [app Pson.pb_decode_varint_loop].
      rewrite land_127, Z.mod_mod, Hstep by lia.
      replace (v mod 128 >=? 128) with false by (symmetry; rewrite Z.geb_leb; apply Z.leb_gt; lia).
      rewrite (Z.mod_small v 128) by lia. reflexivity.
    + apply Z.ltb_ge in E.
      cbn [app Pson.pb_decode_varint_loop].
      rewrite (group_mark (v mod 128)) by lia.
      rewrite land_127.
      replace ((v mod 128 + 128) mod 128) with (v mod 128)
        by (apply Z.mod_unique with (q := 1); lia).
      rewrite Hstep.
      replace (v mod 128 + 128 >=? 128) with true by (symmetry; rewrite Z.geb_leb; apply Z.leb_le; lia).
      assert (Hpow : 2 ^ (7 * (pos + 1)) = 128 * 2 ^ (7 * pos)).
      { replace (7 * (pos + 1)) with (7 + 7 * pos) by lia.
        rewrite Z.pow_add_r by lia. reflexivity. }
      assert (HP : 0 < 2 ^ (7 * pos)) by (apply Z.pow_pos_nonneg; lia).
      pose proof (group_rest_bound (S fuel) v Hv) as Hq.
      pose proof (group_split v acc (2 ^ (7 * pos))) as Hsplit.
      assert (Hgp : v mod 128 * 2 ^ (7 * pos) < 128 * 2 ^ (7 * pos))
        by (apply Z.mul_lt_mono_pos_r; lia).
      assert (0 <= v mod 128 * 2 ^ (7 * pos)) by (apply Z.mul_nonneg_nonneg; lia).
      assert (0 <= v / 128 * (128 * 2 ^ (7 * pos))) by (apply Z.mul_nonneg_nonneg; lia).
      rewrite IH.
      * rewrite Hpow. exact Hsplit.
      * exact Hq.
      * lia.
      * rewrite Hpow. clear - Hacc Hg HP. nia.
      * rewrite Hpow. clear - Hsplit Hfit Hacc H. lia.
Qed.

(** Decoding what [pson::pb_encode_varint] stored gives the magnitude
    back, whatever follows the varint in the block. *)
Lemma pb_decode_varint_encode (M : Z) (rest : list Z) :
  0 <= M < 2 ^ 64 ->
  Pson.pb_decode_varint (block (Pson.pb_encode_varint M ++ rest)) = M.
Proof.
  intros HM. unfold Pson.pb_decode_varint, Pson.pb_encode_varint, bytes_at.
  assert (E : uint64_t M = M) by (apply Z.mod_small; exact HM).
  rewrite E, pb_decode_varint_loop_encode;
    [ | rewrite <- E; apply uint64_bound | | | ]; simpl; lia.
Qed.

(** ** Blocks filled in full *)

Lemma memcpy_whole (size : Z) (src : list Z) :
  size = len src -> memcpy (allocate size) 0 src = src.
Proof.
  intros ->. unfold memcpy, allocate, len.
  rewrite Nat2Z.id. cbn [Z.to_nat firstn app Nat.add].
  rewrite skipn_all2 by (rewrite repeat_length; lia).
  apply app_nil_r.
Qed.

Lemma memcpy_tail (head src : list Z) (size : Z) :
  size = len src ->
  memcpy (memcpy (allocate (len head + size)) 0 head) (len head) src = head ++ src.
Proof.
  intros ->. unfold memcpy at 2. unfold allocate, len.
  cbn [Z.to_nat firstn app Nat.add].
  unfold memcpy. rewrite Nat2Z.id.
  rewrite firstn_app, firstn_all, Nat.sub_diag. cbn [firstn].
  rewrite app_nil_r. f_equal.
  rewrite skipn_all2; [apply app_nil_r|].
  rewrite length_app, length_skipn, repeat_length. lia.
Qed.

(** ** [encode(pson&)] by cases *)

Lemma list_all_In {A : Type} {PA : A -> Type} (Q : A -> Prop) {l : list A} :
  (forall a, PA a -> Q a) -> list_all A PA l -> forall x, In x l -> Q x.
Proof.
  intros HQ. induction 1 as [|a Ha l Hl IH]; intros x Hx; [contradiction|].
  destruct Hx as [<-|Hx]; [apply HQ; exact Ha|apply IH; exact Hx].
Qed.

Lemma list_all_In_prop {A : Type} {P : A -> Prop} {l : list A} :
  list_all A P l -> forall x, In x l -> P x.
Proof.
  induction 1 as [|a Ha l Hl IH]; intros x Hx; [contradiction|].
  destruct Hx as [<-|Hx]; [exact Ha|apply IH; exact Hx].
Qed.

Lemma pair_all_value (P : pson -> Prop) (item : pson_pair) :
  pson_pair_of_all pson P item -> P (pair_value item).
Proof. intros [n pv H]. exact H. Qed.

Lemma encode_unfold (w : writer) (value : pson) (e : pson_encoder) :
  encode w value e =
  let type := get_type value in
  if (type =? true_field) || (type =? false_field)
     || (type =? one_field) || (type =? zero_field) then
    pb_encode_tag w varint type e
  else if type =? string_field then
    pb_encode_string_field w (bytes_at (get_value value)) string_field e
  else if type =? bytes_field then
    let e := pb_encode_tag w length_delimited bytes_field e in
    let buffer := bytes_at (get_value value) in
    let '(n, e) := pb_write_varint w buffer e in
    w e (firstn (Z.to_nat (Pson.pb_decode_varint (get_value value)))
           (skipn (Z.to_nat n) buffer))
  else if (type =? svarint_field) || (type =? varint_field) then
    let e := pb_encode_tag w varint type e in
    snd (pb_write_varint w (bytes_at (get_value value)) e)
  else if type =? float_field then
    pb_encode_fixed32_field w float_field (bytes_at (get_value value)) e
  else if type =? double_field then
    pb_encode_fixed64_field w double_field (bytes_at (get_value value)) e
  else if type =? object_field then
    pb_encode_submessage w
      (fun w e => encode_object w (object_at (get_value value)) e) object_field e
  else if type =? array_field then
    pb_encode_submessage w
      (fun w e => encode_array w (array_at (get_value value)) e) array_field e
  else
    pb_encode_tag w varint null_field e.
Proof.
  destruct value as [type [|bytes|object|array]]; reflexivity.
Qed.

Lemma emits_bytes_payload (v : slot pson) :
  emits
    (fun w e =>
       let '(n, e) := pb_write_varint w (bytes_at v) e in
       w e (firstn (Z.to_nat (Pson.pb_decode_varint v))
              (skipn (Z.to_nat n) (bytes_at v))))
    (bytes_payload v).
Proof.
  apply emits_ext with
    (f := fun w e =>
            w (snd (pb_write_varint w (bytes_at v) e))
              (firstn (Z.to_nat (Pson.pb_decode_varint v))
                 (skipn (Z.to_nat (len (varint_prefix (bytes_at v)))) (bytes_at v)))).
  - intros w e. rewrite <- (pb_write_varint_count w (bytes_at v) e).
    now destruct (pb_write_varint w (bytes_at v) e).
  - apply emits_seq with
      (f := fun w e => snd (pb_write_varint w (bytes_at v) e))
      (g := fun w e =>
              w e (firstn (Z.to_nat (Pson.pb_decode_varint v))
                     (skipn (Z.to_nat (len (varint_prefix (bytes_at v)))) (bytes_at v)))).
    + apply emits_write_varint.
    + apply emits_write.
Qed.

(** Every value hands some fixed byte string to [write], whichever
    [write] the encoder has. *)
Lemma encode_emits_some (value : pson) : exists bs, emits (fun w => encode w value) bs.
Proof.
  induction value as [type v IH].
  set (value := {| field_type_ := type; value_ := v |}).
  destruct ((type =? true_field) || (type =? false_field)
            || (type =? one_field) || (type =? zero_field)) eqn:E1.
  { eexists. eapply emits_ext; [|apply (emits_tag varint type)].
    intros w e. rewrite encode_unfold. cbn. now rewrite E1. }
  destruct (type =? string_field) eqn:E2.
  { eexists. eapply emits_ext;
      [|apply emits_seq with
          (f := fun w => pb_encode_tag w length_delimited string_field)
          (g := fun w => pb_encode_string w (bytes_at v));
        [apply emits_tag|apply emits_string]].
    intros w e. rewrite encode_unfold. cbn. now rewrite E1, E2. }
  destruct (type =? bytes_field) eqn:E3.
  { eexists. eapply emits_ext;
      [|apply emits_seq with
          (f := fun w => pb_encode_tag w length_delimited bytes_field);
        [apply emits_tag|apply (emits_bytes_payload v)]].
    intros w e. rewrite encode_unfold. cbn. now rewrite E1, E2, E3. }
  destruct ((type =? svarint_field) || (type =? varint_field)) eqn:E4.
  { eexists. eapply emits_ext;
      [|apply emits_seq with
          (f := fun w => pb_encode_tag w varint type);
        [apply emits_tag|apply (emits_write_varint (bytes_at v))]].
    intros w e. rewrite encode_unfold. cbn. now rewrite E1, E2, E3, E4. }
  destruct (type =? float_field) eqn:E5.
  { eexists. eapply emits_ext;
      [|apply emits_seq with
          (f := fun w => pb_encode_tag w fixed_32 float_field);
        [apply emits_tag|apply (emits_write (firstn 4 (bytes_at v)))]].
    intros w e. rewrite encode_unfold. cbn. now rewrite E1, E2, E3, E4, E5. }
  destruct (type =? double_field) eqn:E6.
  { eexists. eapply emits_ext;
      [|apply emits_seq with
          (f := fun w => pb_encode_tag w fixed_64 double_field);
        [apply emits_tag|apply (emits_write (firstn 8 (bytes_at v)))]].
    intros w e. rewrite encode_unfold. cbn. now rewrite E1, E2, E3, E4, E5, E6. }
  destruct (type =? object_field) eqn:E7.
  { assert (Hbody : exists body,
               emits (fun w e => encode_object w (object_at v) e) body).
    { destruct IH as [|bytes|object Hall|array Hall]; cbn [object_at];
        try (exists []; apply emits_nothing).
      assert (Hpair : forall item, In item object ->
                exists bs, emits (fun w e => encode_pair w item e) bs).
      { intros item Hin.
        destruct (list_all_In
                    (fun item => exists bs, emits (fun w => encode w (pair_value item)) bs)
                    (pair_all_value _) Hall item Hin) as [bs Hbs].
        eexists. unfold encode_pair.
        apply emits_seq with (f := fun w => pb_encode_string w (pair_name item))
                             (g := fun w => encode w (pair_value item));
          [apply emits_string|exact Hbs]. }
      clear Hall. unfold encode_object.
      induction object as [|item object IHo].
      - exists []. apply emits_nothing.
      - destruct (Hpair item (or_introl eq_refl)) as [b1 Hb1].
        destruct IHo as [b2 Hb2]; [intros; apply Hpair; now right|].
        exists (b1 ++ b2). cbn [fold_left].
        apply emits_seq with
          (f := fun w e => encode_pair w item e)
          (g := fun w e => fold_left (fun e pair => encode_pair w pair e) object e);
          assumption. }
    destruct Hbody as [body Hbody].
    eexists. eapply emits_ext; [|apply (emits_submessage _ _ object_field Hbody)].
    intros w e. rewrite encode_unfold. cbn. now rewrite E1, E2, E3, E4, E5, E6, E7. }
  destruct (type =? array_field) eqn:E8.
  { assert (Hbody : exists body,
               emits (fun w e => encode_array w (array_at v) e) body).
    { destruct IH as [|bytes|object Hall|array Hall]; cbn [array_at];
        try (exists []; apply emits_nothing).
      pose proof (list_all_In_prop Hall) as Hitem. clear Hall.
      unfold encode_array.
      induction array as [|item array IHa].
      - exists []. apply emits_nothing.
      - destruct (Hitem item (or_introl eq_refl)) as [b1 Hb1].
        destruct IHa as [b2 Hb2]; [intros; apply Hitem; now right|].
        exists (b1 ++ b2). cbn [fold_left].
        apply emits_seq with
          (f := fun w e => encode w item e)
          (g := fun w e => fold_left (fun e item => encode w item e) array e);
          assumption. }
    destruct Hbody as [body Hbody].
    eexists. eapply emits_ext; [|apply (emits_submessage _ _ array_field Hbody)].
    intros w e. rewrite encode_unfold. cbn.
    now rewrite E1, E2, E3, E4, E5, E6, E7, E8. }
  eexists. eapply emits_ext; [|apply (emits_tag varint null_field)].
  intros w e. rewrite encode_unfold. cbn.
  now rewrite E1, E2, E3, E4, E5, E6, E7, E8.
Qed.

(** ** The bytes on the wire *)

Lemma encoded_emits (value : pson) : emits (fun w => encode w value) (encoded value).
Proof.
  destruct (encode_emits_some value) as [bs H].
  replace (encoded value) with bs; [exact H|].
  unfold encoded. destruct (H fresh) as [_ E]. now rewrite E.
Qed.

Lemma emits_pair (item : pson_pair) : emits (fun w => encode_pair w item) (pair_wire item).
Proof.
  unfold encode_pair, pair_wire.
  apply emits_seq with (f := fun w => pb_encode_string w (pair_name item))
                       (g := fun w => encode w (pair_value item)).
  - apply emits_string.
  - apply encoded_emits.
Qed.

Lemma emits_object (object : pson_object) :
  emits (fun w => encode_object w object) (object_wire object).
Proof.
  apply (emits_fold (fun item w e => encode_pair w item e) pair_wire object).
  intros item _. apply emits_pair.
Qed.

Lemma emits_array (array : pson_array) :
  emits (fun w => encode_array w array) (array_wire array).
Proof.
  apply (emits_fold (fun item w e => encode w item e) encoded array).
  intros item _. apply encoded_emits.
Qed.

Lemma emits_sink f bs : emits f bs -> sink_ (f write_sink fresh) = bs.
Proof. intros H. destruct (H fresh) as [_ E]. now rewrite E. Qed.

Lemma emits_count f bs : emits f bs -> bytes_written (f write fresh) = len bs.
Proof. intros H. destruct (H fresh) as [E _]. now rewrite E. Qed.

Lemma encoded_object (object : pson_object) :
  encoded (mk_pson object_field (object_ptr object))
  = tag_bytes length_delimited object_field
    ++ Pson.pb_encode_varint (len (object_wire object)) ++ object_wire object.
Proof.
  apply (emits_unique (fun w => encode w (mk_pson object_field (object_ptr object)))).
  - apply encoded_emits.
  - eapply emits_ext;
      [|apply (emits_submessage _ _ object_field (emits_object object))].
    intros w e. now rewrite encode_unfold.
Qed.

Lemma encoded_array (array : pson_array) :
  encoded (mk_pson array_field (array_ptr array))
  = tag_bytes length_delimited array_field
    ++ Pson.pb_encode_varint (len (array_wire array)) ++ array_wire array.
Proof.
  apply (emits_unique (fun w => encode w (mk_pson array_field (array_ptr array)))).
  - apply encoded_emits.
  - eapply emits_ext;
      [|apply (emits_submessage _ _ array_field (emits_array array))].
    intros w e. now rewrite encode_unfold.
Qed.

(** ** Two-pass sizing of composites *)

(** C8.  For every object and every array, whatever the encoder has
    written before: the tally of the counting-only pass (a plain
    [pson_encoder] run on the composite) equals the number of bytes the
    real pass writes for it; the real pass appends exactly those bytes;
    and the value is written as its tag, the varint of that tally, and
    those bytes -- so the length prefix is the exact size of the body that
    follows it. *)
Theorem two_pass_submessage_sizing :
  forall (object : pson_object) (array : pson_array) (e : pson_encoder),
    (let count := bytes_written (encode_object write object fresh) in
     let body := sink_ (encode_object write_sink object fresh) in
     len body = count /\
     encode_object write_sink object e
     = mk_encoder (written_ e + count) (sink_ e ++ body) /\
     sink_ (encode write_sink (mk_pson object_field (object_ptr object)) e)
     = sink_ e ++ tag_bytes length_delimited object_field
       ++ Pson.pb_encode_varint count ++ body) /\
    (let count := bytes_written (encode_array write array fresh) in
     let body := sink_ (encode_array write_sink array fresh) in
     len body = count /\
     encode_array write_sink array e
     = mk_encoder (written_ e + count) (sink_ e ++ body) /\
     sink_ (encode write_sink (mk_pson array_field (array_ptr array)) e)
     = sink_ e ++ tag_bytes length_delimited array_field
       ++ Pson.pb_encode_varint count ++ body).
Proof.
  intros object array e. split.
  - pose proof (emits_object object) as H.
    rewrite (emits_count _ _ H), (emits_sink _ _ H).
    cbv zeta. split; [reflexivity|]. split; [apply H|].
    destruct (encoded_emits (mk_pson object_field (object_ptr object)) e) as [_ E].
    rewrite E. cbn [sink_]. now rewrite encoded_object.
  - pose proof (emits_array array) as H.
    rewrite (emits_count _ _ H), (emits_sink _ _ H).
    cbv zeta. split; [reflexivity|]. split; [apply H|].
    destruct (encoded_emits (mk_pson array_field (array_ptr array)) e) as [_ E].
    rewrite E. cbn [sink_]. now rewrite encoded_array.
Qed.

(** ** Values without a payload *)

Lemma encode_to_sink (value : pson) (e : pson_encoder) :
  encode write_sink value e
  = mk_encoder (written_ e + len (encoded value)) (sink_ e ++ encoded value).
Proof. apply encoded_emits. Qed.

(** C9.  Assigning the integer 0 or 1, or a boolean, gives a value that
    is written as its tag varint alone: one byte is added to the tally
    and to the sink, whatever the value held before.  A new value assigned
    the integer 0 is the single byte 56 on the wire.  Each of the tags
    null, true, false, zero and one is written as its one-byte tag varint
    and nothing else, whatever the payload pointer holds. *)
Theorem zero_payload_compaction :
  forall (p : pson) (e : pson_encoder),
    encode write_sink (Pson.assign_int p 0) e
    = mk_encoder (written_ e + 1) (sink_ e ++ tag_bytes varint zero_field) /\
    encode write_sink (Pson.assign_int p 1) e
    = mk_encoder (written_ e + 1) (sink_ e ++ tag_bytes varint one_field) /\
    encode write_sink (Pson.assign_bool p true) e
    = mk_encoder (written_ e + 1) (sink_ e ++ tag_bytes varint true_field) /\
    encode write_sink (Pson.assign_bool p false) e
    = mk_encoder (written_ e + 1) (sink_ e ++ tag_bytes varint false_field) /\
    encoded (Pson.assign_int pson_default 0) = [56] /\
    Forall
      (fun type =>
         forall v : slot pson,
           encode write_sink (mk_pson type v) e
           = mk_encoder (written_ e + 1) (sink_ e ++ [8 * type])
           /\ tag_bytes varint type = [8 * type])
      zero_payload_tags.
Proof.
  intros p e.
  repeat split; try (rewrite encode_to_sink; reflexivity); try reflexivity.
  repeat constructor; rewrite encode_to_sink; reflexivity.
Qed.

(** ** Integer assignment *)

Lemma uint64_of_int64 (x : Z) : uint64_t (int64_t x) = uint64_t x.
Proof.
  unfold uint64_t, int64_t.
  rewrite Zminus_mod_idemp_l.
  replace (x + 2 ^ 63 - 2 ^ 63) with x by lia. reflexivity.
Qed.

Lemma magnitude_of_int64 (value : Z) :
  - 2 ^ 63 <= value < 2 ^ 64 -> value <> 0 ->
  uint64_t (if value >? 0 then value else int64_t (- value)) = Z.abs value.
Proof.
  intros Hr Hnz. destruct (value >? 0) eqn:E.
  - apply Z.gtb_lt in E. unfold uint64_t. rewrite Z.mod_small; lia.
  - assert (value < 0) by (pose proof (Zgt_cases value 0) as C; rewrite E in C; lia).
    rewrite uint64_of_int64. unfold uint64_t. rewrite Z.mod_small; lia.
Qed.

Lemma assign_int_stores (p : pson) (value : Z) :
  - 2 ^ 63 <= value < 2 ^ 64 -> value <> 0 -> value <> 1 ->
  Pson.assign_int p value
  = mk_pson (if value <? 0 then svarint_field else varint_field)
      (block (Pson.pb_encode_varint (Z.abs value))).
Proof.
  intros Hr H0 H1. unfold Pson.assign_int.
  replace (value =? 0) with false by (symmetry; apply Z.eqb_neq; exact H0).
  replace (value =? 1) with false by (symmetry; apply Z.eqb_neq; exact H1).
  rewrite magnitude_of_int64 by assumption.
  rewrite memcpy_whole by (symmetry; apply pb_encode_varint_length).
  reflexivity.
Qed.

(** C5.  For every integer an [int64_t] or a [uint64_t] can hold,
    assigned to a value: 0 sets the tag zero and 1 the tag one, and
    neither stores a payload (the payload pointer is left as it was,
    [NULL] in a new value); a negative integer sets the tag svarint and
    any other the tag varint, and the payload is the varint encoding of
    the absolute value, which reads back as that magnitude. *)
Theorem integer_assignment_policy :
  forall (p : pson) (value : Z),
    - 2 ^ 63 <= value < 2 ^ 64 ->
    let p' := Pson.assign_int p value in
    (value = 0 -> field_type_ p' = zero_field /\ value_ p' = value_ p) /\
    (value = 1 -> field_type_ p' = one_field /\ value_ p' = value_ p) /\
    (value < 0 ->
     field_type_ p' = svarint_field /\
     value_ p' = block (Pson.pb_encode_varint (Z.abs value)) /\
     Pson.pb_decode_varint (value_ p') = Z.abs value) /\
    (1 < value ->
     field_type_ p' = varint_field /\
     value_ p' = block (Pson.pb_encode_varint value) /\
     Pson.pb_decode_varint (value_ p') = value).
Proof.
  intros p value Hr p'. subst p'. repeat split; intros; subst; try reflexivity.
  all: rewrite assign_int_stores by lia; cbn [field_type_ value_].
  all: try (replace (value <? 0) with true by (symmetry; apply Z.ltb_lt; lia);
            reflexivity).
  all: try (replace (value <? 0) with false by (symmetry; apply Z.ltb_ge; lia);
            reflexivity).
  all: try (rewrite Z.abs_eq by lia; reflexivity).
  all: rewrite <- (app_nil_r (Pson.pb_encode_varint _));
       rewrite pb_decode_varint_encode; lia.
Qed.

Lemma integer_assignment_policy_witness :
  - 2 ^ 63 <= -300 < 2 ^ 64 /\
  field_type_ (Pson.assign_int pson_default (-300)) = svarint_field /\
  value_ (Pson.assign_int pson_default (-300)) = block [172; 2].
Proof.
  split; [lia|].
  destruct (integer_assignment_policy pson_default (-300) ltac:(lia))
    as (_ & _ & Hneg & _).
  destruct (Hneg ltac:(lia)) as (Ht & Hv & _).
  split; [exact Ht|exact Hv].
Defined.

(** C5 as stated fails.  A value that holds the string [hi] and is then
    assigned the integer 0 has the tag zero and still the pointer to the
    block of the string: [operator=(T)] returns after setting the tag, so
    the value with tag zero has a payload, the one it had before.
    Likewise for 1 and the tag one.  Only a value that had no payload has
    none afterwards. *)
Lemma zero_assignment_keeps_old_payload :
  field_type_ (Pson.assign_int (Pson.assign_string pson_default [104; 105]) 0)
  = zero_field /\
  value_ (Pson.assign_int (Pson.assign_string pson_default [104; 105]) 0)
  = block [104; 105; 0] /\
  field_type_ (Pson.assign_int (Pson.assign_string pson_default [104; 105]) 1)
  = one_field /\
  value_ (Pson.assign_int (Pson.assign_string pson_default [104; 105]) 1)
  = block [104; 105; 0] /\
  block [104; 105; 0] <> @NULL pson /\
  value_ (Pson.assign_int pson_default 0) = NULL.
Proof. repeat split; try reflexivity. discriminate. Qed.

(** ** The streaming varint readers *)

Lemma advanced_0 (d : pson_decoder) : advanced d 0 = d.
Proof. destruct d. unfold advanced. cbn. now rewrite Z.add_0_r. Qed.

Lemma advanced_advanced (d : pson_decoder) (j k : nat) :
  advanced (advanced d j) k = advanced d (j + k).
Proof.
  unfold advanced. cbn [read_ source_].
  rewrite skipn_skipn, Nat2Z.inj_add, (Nat.add_comm k j), Z.add_assoc.
  reflexivity.
Qed.

(** A read either fails and leaves the decoder alone, or delivers the
    bytes at the head of the source and advances past them. *)
Lemma read_cases (d : pson_decoder) (size : Z) :
  0 <= size ->
  (read d size = (None, d) /\ len (source_ d) < size) \/
  (read d size = (Some (firstn (Z.to_nat size) (source_ d)), advanced d (Z.to_nat size))
   /\ size <= len (source_ d)).
Proof.
  intros Hs. unfold read. destruct (size <=? len (source_ d)) eqn:E.
  - right. apply Z.leb_le in E. split; [|exact E].
    unfold advanced. now rewrite Z2Nat.id.
  - left. apply Z.leb_gt in E. now split.
Qed.

Lemma read_one (d : pson_decoder) :
  match source_ d with
  | [] => read d 1 = (None, d)
  | byte :: _ => read d 1 = (Some [byte], advanced d 1)
  end.
Proof.
  destruct d as [r [|byte rest]]; cbn [source_].
  - reflexivity.
  - unfold read, advanced, len. cbn [source_ length read_].
    replace (1 <=? Z.of_nat (S (length rest))) with true
      by (symmetry; apply Z.leb_le; lia).
    reflexivity.
Qed.

Lemma varint32_loop_advances (fuel : nat) :
  forall varint bit_pos d,
    exists k, (k <= fuel)%nat /\
      snd (pb_decode_varint32_loop fuel varint bit_pos d) = advanced d k.
Proof.
  induction fuel as [|fuel IH]; intros varint bit_pos d.
  - exists 0%nat. split; [lia|]. cbn. now rewrite advanced_0.
  - cbn [pb_decode_varint32_loop].
    pose proof (read_one d) as R. destruct (source_ d) as [|byte rest]; rewrite R.
    + exists 0%nat. split; [lia|]. cbn. now rewrite advanced_0.
    + destruct (bit_pos >=? 32); [exists 1%nat; split; [lia|reflexivity]|].
      destruct (byte >? 0x80); [|exists 1%nat; split; [lia|reflexivity]].
      destruct (IH (Z.lor varint (uint32_t (Z.shiftl (Z.land byte 0x7F) bit_pos)))
                  (uint8_t (bit_pos + 7)) (advanced d 1)) as [k [Hk E]].
      exists (1 + k)%nat. split; [lia|]. now rewrite E, advanced_advanced.
Qed.

Lemma varint64_loop_advances (wide_shift : Z -> Z -> Z) (fuel : nat) :
  forall varint bit_pos d,
    exists k, (k <= fuel)%nat /\
      snd (pb_decode_varint64_loop wide_shift fuel varint bit_pos d) = advanced d k.
Proof.
  induction fuel as [|fuel IH]; intros varint bit_pos d.
  - exists 0%nat. split; [lia|]. cbn. now rewrite advanced_0.
  - cbn [pb_decode_varint64_loop].
    pose proof (read_one d) as R. destruct (source_ d) as [|byte rest]; rewrite R.
    + exists 0%nat. split; [lia|]. cbn. now rewrite advanced_0.
    + destruct (bit_pos >=? 64); [exists 1%nat; split; [lia|reflexivity]|].
      destruct (byte >? 0x80); [|exists 1%nat; split; [lia|reflexivity]].
      destruct (IH (uint64_t (Z.lor varint (shl_uint32 wide_shift (Z.land byte 0x7F) bit_pos)))
                  (uint8_t (bit_pos + 7)) (advanced d 1)) as [k [Hk E]].
      exists (1 + k)%nat. split; [lia|]. now rewrite E, advanced_advanced.
Qed.

(** The loops return on their own: once [bit_pos] has passed the cap
    within the fuel given, more fuel changes nothing. *)
Lemma varint32_loop_fuel (fuel : nat) :
  forall extra varint bit_pos d,
    0 <= bit_pos < 249 -> 32 <= bit_pos + 7 * Z.of_nat fuel ->
    pb_decode_varint32_loop (S fuel + extra) varint bit_pos d
    = pb_decode_varint32_loop (S fuel) varint bit_pos d.
Proof.
  induction fuel as [|fuel IH]; intros extra varint bit_pos d Hb Hcap.
  all: cbn [Nat.add pb_decode_varint32_loop].
  all: destruct (read d 1) as [[[|byte [|]]|] d']; try reflexivity.
  all: destruct (bit_pos >=? 32) eqn:E; try reflexivity.
  all: rewrite Z.geb_leb in E; apply Z.leb_gt in E.
  - lia.
  - destruct (byte >? 0x80); [|reflexivity].
    assert (Hu : uint8_t (bit_pos + 7) = bit_pos + 7)
      by (apply Z.mod_small; simpl; lia).
    rewrite Hu. apply (IH extra); lia.
Qed.

Lemma varint64_loop_fuel (wide_shift : Z -> Z -> Z) (fuel : nat) :
  forall extra varint bit_pos d,
    0 <= bit_pos < 249 -> 64 <= bit_pos + 7 * Z.of_nat fuel ->
    pb_decode_varint64_loop wide_shift (S fuel + extra) varint bit_pos d
    = pb_decode_varint64_loop wide_shift (S fuel) varint bit_pos d.
Proof.
  induction fuel as [|fuel IH]; intros extra varint bit_pos d Hb Hcap.
  all: cbn [Nat.add pb_decode_varint64_loop].
  all: destruct (read d 1) as [[[|byte [|]]|] d']; try reflexivity.
  all: destruct (bit_pos >=? 64) eqn:E; try reflexivity.
  all: rewrite Z.geb_leb in E; apply Z.leb_gt in E.
  - lia.
  - destruct (byte >? 0x80); [|reflexivity].
    assert (Hu : uint8_t (bit_pos + 7) = bit_pos + 7)
      by (apply Z.mod_small; simpl; lia).
    rewrite Hu. apply (IH extra); lia.
Qed.

(** C10.  Whatever the source holds and whatever the target does with
    an oversized shift: one call of the 32-bit reader takes at most 6
    bytes from the source and one call of the 64-bit reader at most 11,
    counting them in [read_]; the tag reader, which is the 32-bit reader,
    takes at most 6.  The bounds come from [bit_pos] reaching the cap, not
    from the fuel of the model: any larger fuel gives the same result.
    On a source of continuation bytes the bounds are reached. *)
Theorem bounded_varint_consumption :
  forall (wide_shift : Z -> Z -> Z) (d : pson_decoder),
    (exists k, (k <= 6)%nat /\ snd (pb_decode_varint32 d) = advanced d k) /\
    (exists k, (k <= 11)%nat /\
       snd (pb_decode_varint64 wide_shift d) = advanced d k) /\
    (exists k, (k <= 6)%nat /\ snd (pb_decode_tag d) = advanced d k) /\
    (forall extra,
       pb_decode_varint32_loop (6 + extra) 0 0 d = pb_decode_varint32 d) /\
    (forall extra,
       pb_decode_varint64_loop wide_shift (11 + extra) 0 0 d
       = pb_decode_varint64 wide_shift d) /\
    bytes_read (snd (pb_decode_varint32 (start (repeat 0xFF 20)))) = 6 /\
    bytes_read (snd (pb_decode_varint64 wide_shift (start (repeat 0xFF 20)))) = 11.
Proof.
  intros wide_shift d.
  split; [apply varint32_loop_advances|].
  split; [apply varint64_loop_advances|].
  split.
  { unfold pb_decode_tag.
    destruct (varint32_loop_advances 6 0 0 d) as [k [Hk E]].
    exists k. split; [exact Hk|].
    unfold pb_decode_varint32. destruct (pb_decode_varint32_loop 6 0 0 d).
    exact E. }
  split; [intros extra; apply (varint32_loop_fuel 5 extra); simpl; lia|].
  split; [intros extra; apply (varint64_loop_fuel wide_shift 10 extra); simpl; lia|].
  split; reflexivity.
Qed.

(** ** The encoder's varint writer *)

(** What [pb_encode_varint(uint64_t)] writes is what
    [pson::pb_encode_varint] stores, and it is of minimal size, the size
    [get_varint_size] computes. *)
Lemma encoder_varint_minimal (M : Z) :
  0 <= M < 2 ^ 64 ->
  sink_ (pb_encode_varint write_sink M fresh) = Pson.pb_encode_varint M /\
  len (Pson.pb_encode_varint M) = minimal_varint_size M /\
  minimal_varint_size M = Pson.get_varint_size M.
Proof.
  intros HM.
  assert (E : uint64_t M = M) by (apply Z.mod_small; exact HM).
  split; [apply (emits_sink _ _ (emits_varint M))|].
  rewrite pb_encode_varint_length, get_varint_size_minimal, E. now split.
Qed.

(** C2, at the magnitude 128.  The encoder writes the two bytes
    [0x80 0x01], the minimal size and the size [get_varint_size] gives;
    [pb_decode_varint64] stops after the first byte, because [0x80] is
    not [> 0x80], and returns 0 with [0x01] still in the source.  At
    2^35 - 1 no byte is [0x80], and the group shifted by 28 loses its
    upper bits to the 32-bit cast: the result is 2^32 - 1.
    [pson::pb_decode_varint], which tests [>= 0x80] and shifts in 64
    bits, reads both magnitudes back. *)
Theorem varint64_reader_misreads :
  forall wide_shift : Z -> Z -> Z,
    sink_ (pb_encode_varint write_sink 128 fresh) = [0x80; 0x01] /\
    minimal_varint_size 128 = 2 /\
    Pson.get_varint_size 128 = 2 /\
    pb_decode_varint64 wide_shift (start [0x80; 0x01]) = (0, mk_decoder 1 [0x01]) /\
    Pson.pb_decode_varint (block [0x80; 0x01]) = 128 /\
    sink_ (pb_encode_varint write_sink (2 ^ 35 - 1) fresh)
    = [0xFF; 0xFF; 0xFF; 0xFF; 0x7F] /\
    pb_decode_varint64 wide_shift (start [0xFF; 0xFF; 0xFF; 0xFF; 0x7F])
    = (2 ^ 32 - 1, mk_decoder 5 []) /\
    Pson.pb_decode_varint (block [0xFF; 0xFF; 0xFF; 0xFF; 0x7F]) = 2 ^ 35 - 1.
Proof.
  intros wide_shift. repeat split.
Qed.

(** ** One-byte tags and lengths *)

Lemma varint32_single (r byte : Z) (rest : list Z) :
  0 <= byte < 128 ->
  pb_decode_varint32 (mk_decoder r (byte :: rest)) = (byte, mk_decoder (r + 1) rest).
Proof.
  intros Hb. unfold pb_decode_varint32. cbn [pb_decode_varint32_loop].
  pose proof (read_one (mk_decoder r (byte :: rest))) as R. cbn [source_] in R.
  rewrite R. cbn [Z.geb Z.compare].
  replace (byte >? 0x80) with false by (symmetry; rewrite Z.gtb_ltb; apply Z.ltb_ge; lia).
  rewrite Z.shiftl_0_r, land_127, Z.lor_0_l.
  unfold uint32_t. rewrite (Z.mod_small byte 128) by lia.
  rewrite Z.mod_small by (change (2 ^ 32) with 4294967296; lia).
  reflexivity.
Qed.

Lemma varint32_end_of_source (r : Z) :
  pb_decode_varint32 (mk_decoder r []) = (0, mk_decoder r []).
Proof. reflexivity. Qed.

Lemma tag_single (r tag : Z) (rest : list Z) :
  0 <= tag < 128 ->
  pb_decode_tag (mk_decoder r (tag :: rest))
  = (Z.land tag 0x07, Z.shiftr tag 3, mk_decoder (r + 1) rest).
Proof. intros Ht. unfold pb_decode_tag. now rewrite varint32_single. Qed.

Lemma read_nothing (d : pson_decoder) : read d 0 = (Some [], d).
Proof.
  destruct d as [r source]. unfold read. cbn [source_ read_].
  replace (0 <=? len source) with true
    by (symmetry; apply Z.leb_le, len_nonneg).
  cbn. now rewrite Z.add_0_r.
Qed.

(** ** A source that ends after the tag *)

(** C3, as the code has it.  Let the source hold one more byte, a tag
    below 128, whatever its wire kind and type.  Then [decode]
    returns, for any fuel; it has taken the tag byte and nothing else, so
    [bytes_read] has advanced by exactly one and the source is empty; the
    value's tag is the type number of the tag.  Nothing tells the caller
    that the payload was missing: under the length-delimited kind the
    length is read as 0, and a string, a byte buffer, an object or an
    array comes out empty, as from a source that does hold an empty one;
    an unknown type skips nothing; a varint type leaves the payload
    pointer as it was. *)
Theorem truncated_after_tag :
  forall (fuel : nat) (value : pson) (r tag : Z),
    0 <= tag < 128 ->
    let wire_type := Z.land tag 0x07 in
    let field_number := Z.shiftr tag 3 in
    exists value',
      decode (S fuel) value (mk_decoder r [tag]) = Some (value', mk_decoder (r + 1) [])
      /\ field_type_ value' = field_number
      /\ (wire_type = length_delimited ->
          value_ value' =
            if field_number =? string_field then block [0]
            else if field_number =? bytes_field then block [0]
            else if field_number =? object_field then object_ptr []
            else if field_number =? array_field then array_ptr []
            else value_ value)
      /\ (wire_type <> length_delimited ->
          field_number <> float_field -> field_number <> double_field ->
          value_ value' = value_ value).
Proof.
  intros fuel value r tag Ht wire_type field_number.
  cbn [decode]. rewrite tag_single by exact Ht.
  fold wire_type field_number.
  destruct (wire_type =? length_delimited) eqn:Ew.
  - rewrite varint32_end_of_source.
    destruct (field_number =? string_field) eqn:E1;
      [|destruct (field_number =? bytes_field) eqn:E2;
        [|destruct (field_number =? object_field) eqn:E3;
          [|destruct (field_number =? array_field) eqn:E4]]].
    + eexists. unfold pb_read_string. rewrite read_nothing.
      split; [reflexivity|]. split; [reflexivity|].
      split; [intros _; reflexivity|].
      intros Hw. apply Z.eqb_eq in Ew. contradiction.
    + eexists. rewrite read_nothing.
      split; [reflexivity|]. split; [reflexivity|].
      split; [intros _; reflexivity|].
      intros Hw. apply Z.eqb_eq in Ew. contradiction.
    + eexists. destruct fuel; cbn [decode_items bytes_read read_].
      all: rewrite Z.sub_diag; cbn.
      all: split; [reflexivity|]; split; [reflexivity|].
      all: split; [intros _; reflexivity|].
      all: intros Hw; apply Z.eqb_eq in Ew; contradiction.
    + eexists. destruct fuel; cbn [decode_items bytes_read read_].
      all: rewrite Z.sub_diag; cbn.
      all: split; [reflexivity|]; split; [reflexivity|].
      all: split; [intros _; reflexivity|].
      all: intros Hw; apply Z.eqb_eq in Ew; contradiction.
    + eexists. cbn.
      split; [reflexivity|]. split; [reflexivity|].
      split; [intros _; reflexivity|].
      intros Hw. apply Z.eqb_eq in Ew. contradiction.
  - apply Z.eqb_neq in Ew.
    destruct ((field_number =? svarint_field) || (field_number =? varint_field)) eqn:E1;
      [|destruct (field_number =? float_field) eqn:E2;
        [|destruct (field_number =? double_field) eqn:E3]].
    + eexists. cbn.
      split; [reflexivity|]. split; [reflexivity|].
      split; [intros Hw; contradiction|]. reflexivity.
    + eexists. cbn.
      split; [reflexivity|]. split; [reflexivity|].
      split; [intros Hw; contradiction|].
      intros _ Hf. apply Z.eqb_eq in E2. contradiction.
    + eexists. cbn.
      split; [reflexivity|]. split; [reflexivity|].
      split; [intros Hw; contradiction|].
      intros _ _ Hf. apply Z.eqb_eq in E3. contradiction.
    + eexists.
      split; [reflexivity|]. split; [reflexivity|].
      split; [intros Hw; contradiction|]. reflexivity.
Qed.

Lemma truncated_after_tag_witness :
  0 <= 74 < 128 /\
  exists value',
    decode 1 pson_default (mk_decoder 0 [74]) = Some (value', mk_decoder 1 [])
    /\ field_type_ value' = string_field.
Proof.
  split; [lia|].
  destruct (truncated_after_tag 0 pson_default 0 74 ltac:(lia))
    as (value' & Hd & Ht & _).
  exists value'. split; [exact Hd|exact Ht].
Defined.

(** C3 as stated fails.  A source that ends after a string tag decodes
    to the empty string, the very value a source holding a complete empty
    string decodes to, and in both cases the whole source has been
    consumed: the missing length is not reported, decoding goes on as if
    it had succeeded.  A source that ends after a varint tag makes
    [pb_read_varint] return [false]; [decode] drops that status and
    leaves a varint value whose payload pointer is [NULL]. *)
Lemma truncated_payload_goes_unreported :
  decode 1 pson_default (start [74])
  = Some (mk_pson string_field (block [0]), mk_decoder 1 []) /\
  decode 1 pson_default (start [74; 0])
  = Some (mk_pson string_field (block [0]), mk_decoder 2 []) /\
  pb_read_varint (mk_pson varint_field NULL) (mk_decoder 1 [])
  = (false, mk_pson varint_field NULL, mk_decoder 1 []) /\
  decode 1 pson_default (start [8])
  = Some (mk_pson varint_field NULL, mk_decoder 1 []).
Proof. repeat split; reflexivity. Qed.

(** ** Unknown type tags *)

Lemma pb_skip_loop_available (payload rest : list Z) :
  forall r success,
    pb_skip_loop (length payload) success (mk_decoder r (payload ++ rest))
    = (success, mk_decoder (r + len payload) rest).
Proof.
  induction payload as [|byte payload IH]; intros r success.
  - cbn. now rewrite Z.add_0_r.
  - cbn [length pb_skip_loop app].
    pose proof (read_one (mk_decoder r (byte :: payload ++ rest))) as R.
    cbn [source_] in R. rewrite R.
    unfold advanced. cbn [read_ source_ skipn Z.of_nat Pos.of_succ_nat succeeded].
    rewrite andb_true_r, IH. unfold len. cbn [length].
    f_equal. f_equal. lia.
Qed.

(** Where the declared length fits one byte, an unknown type under the
    length-delimited kind is skipped in full, and an unknown type under
    another kind takes nothing beyond its tag. *)
Lemma unknown_tag_skipped (fuel : nat) (value : pson) (r tag : Z)
  (payload rest : list Z) :
  0 <= tag < 128 -> len payload < 128 ->
  Z.land tag 0x07 = length_delimited ->
  known_length_delimited (Z.shiftr tag 3) = false ->
  decode (S fuel) value (mk_decoder r (tag :: len payload :: payload ++ rest))
  = Some (set_type value (Z.shiftr tag 3), mk_decoder (r + 1 + 1 + len payload) rest).
Proof.
  intros Ht Hn Hw Hk. unfold known_length_delimited in Hk.
  apply orb_false_elim in Hk. destruct Hk as [Hk E4].
  apply orb_false_elim in Hk. destruct Hk as [Hk E3].
  apply orb_false_elim in Hk. destruct Hk as [E1 E2].
  cbn [decode]. rewrite tag_single by exact Ht. rewrite Hw. cbn [Z.eqb length_delimited Pos.eqb].
  rewrite varint32_single by (pose proof (len_nonneg payload); lia).
  rewrite E1, E2, E3, E4. unfold pb_skip, len at 1. rewrite Nat2Z.id.
  now rewrite pb_skip_loop_available.
Qed.

Lemma unknown_tag_without_payload (fuel : nat) (value : pson) (r tag : Z)
  (rest : list Z) :
  0 <= tag < 128 ->
  Z.land tag 0x07 <> length_delimited ->
  known_with_payload (Z.shiftr tag 3) = false ->
  decode (S fuel) value (mk_decoder r (tag :: rest))
  = Some (set_type value (Z.shiftr tag 3), mk_decoder (r + 1) rest).
Proof.
  intros Ht Hw Hk. unfold known_with_payload in Hk.
  apply orb_false_elim in Hk. destruct Hk as [Hk E4].
  apply orb_false_elim in Hk. destruct Hk as [E12 E3].
  cbn [decode]. rewrite tag_single by exact Ht.
  apply Z.eqb_neq in Hw. rewrite Hw, E12, E3, E4. reflexivity.
Qed.

(** C7, at a declared length of 128.  The field has the unknown type 13
    under the length-delimited kind (tag byte 106), declares 128 payload
    bytes (varint [0x80 0x01]), holds them, and is followed by a field of
    type zero.  The length read is the 32-bit reader's, which stops on
    [0x80] and returns 0: nothing is skipped, [bytes_read] is 2 instead
    of 131, and the source still holds [0x01], the payload and the next
    field.  With 127 bytes declared the field is skipped in full. *)
Theorem unknown_tag_length_misread :
  decode 1 pson_default (start ([106; 0x80; 0x01] ++ repeat 0xAA 128 ++ [56]))
  = Some (mk_pson 13 NULL, mk_decoder 2 ([0x01] ++ repeat 0xAA 128 ++ [56])) /\
  decode 1 pson_default (start ([106; 127] ++ repeat 0xAA 127 ++ [56]))
  = Some (mk_pson 13 NULL, mk_decoder 129 [56]).
Proof. split; vm_compute; reflexivity. Qed.

(** ** Objects: lookup, get-or-create, and decoding *)

Lemma c_chars_strdup (str : list Z) : c_chars (strdup str) = c_chars str.
Proof.
  unfold strdup. induction str as [|c rest IH]; [reflexivity|].
  cbn [c_chars]. destruct (c =? 0) eqn:E; [reflexivity|].
  cbn [app c_chars]. now rewrite E, IH.
Qed.

Lemma strlen_c_chars (str : list Z) : strlen str = len (c_chars str).
Proof.
  unfold len. induction str as [|c rest IH]; [reflexivity|].
  cbn [strlen c_chars]. destruct (c =? 0); [reflexivity|].
  cbn [length]. rewrite IH. lia.
Qed.

Lemma len_strdup (str : list Z) : len (strdup str) = strlen str + 1.
Proof. unfold strdup. rewrite len_app, strlen_c_chars. reflexivity. Qed.

Lemma streq_strdup (str : list Z) : streq (strdup str) str = true.
Proof.
  unfold streq. rewrite c_chars_strdup.
  destruct (list_eq_dec Z.eq_dec (c_chars str) (c_chars str)); congruence.
Qed.

Lemma set_name_default (name : list Z) :
  Object.set_name Object.pair_default name = mk_pair (strdup name) pson_default.
Proof.
  unfold Object.set_name. rewrite memcpy_whole by (symmetry; apply len_strdup).
  reflexivity.
Qed.

Lemma nth_created {T : Type} (dflt : T) (c : list T) :
  nth (length c) (c ++ [dflt]) dflt = dflt.
Proof. rewrite app_nth2 by lia. now rewrite Nat.sub_diag. Qed.

Lemma store_created {T : Type} (dflt x : T) (c : list T) :
  store_item (c ++ [dflt]) (length c) x = c ++ [x].
Proof. induction c as [|y c IH]; cbn; [|rewrite IH]; reflexivity. Qed.


Lemma find_present (object : pson_object) (name : list Z) :
  forall i j,
    Object.find object name i = Some j ->
    (i <= j < i + length object)%nat /\
    streq (pair_name (nth (j - i) object Object.pair_default)) name = true.
Proof.
  induction object as [|item object IH]; intros i j; cbn [Object.find];
    [discriminate|].
  destruct (streq (pair_name item) name) eqn:E.
  - intros [= <-]. cbn [length]. rewrite Nat.sub_diag. split; [lia|exact E].
  - intros H. destruct (IH _ _ H) as [Hb Hs]. cbn [length]. split; [lia|].
    replace (j - i)%nat with (S (j - S i)) by lia. exact Hs.
Qed.

Lemma find_created (object : pson_object) (name : list Z) (value : pson) :
  forall i,
    Object.find object name i = None ->
    Object.find (object ++ [mk_pair (strdup name) value]) name i
    = Some (i + length object)%nat.
Proof.
  induction object as [|item object IH]; intros i; cbn [Object.find app length].
  - intros _. cbn [pair_name]. rewrite streq_strdup. f_equal. lia.
  - destruct (streq (pair_name item) name); [discriminate|].
    intros H. rewrite (IH _ H). f_equal. lia.
Qed.

Section Loop.
Context {T : Type}.
Variable dflt : T.
Variable decode_item : T -> pson_decoder -> option (T * pson_decoder).

Lemma decode_items_step (fuel : nat) (c : list T) (size start_read : Z)
  (d d' : pson_decoder) (item : T) :
  size_t (size - (bytes_read d - start_read)) > 0 ->
  decode_item dflt d = Some (item, d') ->
  decode_items dflt decode_item (S fuel) c size start_read d
  = decode_items dflt decode_item fuel (c ++ [item]) size start_read d'.
Proof.
  intros Hc Hd. cbn [decode_items].
  replace (size_t (size - (bytes_read d - start_read)) >? 0) with true
    by (symmetry; apply Z.gtb_lt; lia).
  unfold create_item. rewrite nth_created, Hd, store_created. reflexivity.
Qed.

Lemma decode_items_done (fuel : nat) (c : list T) (size start_read : Z)
  (d : pson_decoder) :
  size_t (size - (bytes_read d - start_read)) = 0 ->
  decode_items dflt decode_item fuel c size start_read d = Some (c, d).
Proof. intros Hc. destruct fuel; cbn [decode_items]; now rewrite Hc. Qed.
End Loop.



(** ** Floating-point assignment *)

Lemma le_bytes_length (n : nat) : forall z, length (IEEE.le_bytes n z) = n.
Proof. induction n as [|n IH]; intros z; cbn; [|rewrite IH]; reflexivity. Qed.

Lemma set_float_block (p : pson) (value : spec_float) :
  Pson.set_float p value = mk_pson (field_type_ p) (block (IEEE.float_bytes value))
  /\ len (IEEE.float_bytes value) = 4.
Proof.
  assert (H : len (IEEE.float_bytes value) = 4)
    by (unfold len, IEEE.float_bytes; now rewrite le_bytes_length).
  split; [|exact H]. unfold Pson.set_float. now rewrite memcpy_whole.
Qed.

Lemma set_double_block (p : pson) (value : spec_float) :
  Pson.set_double p value = mk_pson (field_type_ p) (block (IEEE.double_bytes value))
  /\ len (IEEE.double_bytes value) = 8.
Proof.
  assert (H : len (IEEE.double_bytes value) = 8)
    by (unfold len, IEEE.double_bytes; now rewrite le_bytes_length).
  split; [|exact H]. unfold Pson.set_double. now rewrite memcpy_whole.
Qed.

Lemma assign_int_tag (p : pson) (i : Z) :
  In (field_type_ (Pson.assign_int p i)) integer_tags.
Proof.
  unfold Pson.assign_int, integer_tags.
  destruct (i =? 0); [now left|].
  destruct (i =? 1); [right; now left|].
  cbn [field_type_]. destruct (i <? 0); cbn; auto.
Qed.

(** The literal [0.00001] is the double nearest to 1/100000. *)
Lemma tolerance_is_1e_5 :
  IEEE.tolerance = SFdiv 53 1024 (IEEE.double_of_int 1) (IEEE.double_of_int 100000)
  /\ valid_binary 53 1024 IEEE.tolerance = true.
Proof. split; vm_compute; reflexivity. Qed.

(** C4, as the code has it.  Let [value] be a double whose conversion
    to [int64_t] is defined and gives [i].  If [value] equals [i], the
    assignment is the integer assignment of [i], so the tag is zero, one,
    varint or svarint and never a float tag.  Otherwise, if the double
    differs from its 32-bit reconstruction [f] by at most 0.00001, the
    assignment is the float assignment of [f]: when [f] equals its own
    truncation [j] that is the integer assignment of [j], and when it
    does not the tag is float32 and the payload the 4 bytes of [f].
    Otherwise the tag is float64 and the payload the 8 bytes of
    [value]. *)
Theorem float_downgrade_policy :
  forall (p : pson) (value : spec_float) (i : Z),
    IEEE.to_int64 value = Some i ->
    let f := IEEE.to_float value in
    let integral := SFeqb value (IEEE.double_of_int i) in
    let close :=
      SFleb (SFabs (SFsub 53 1024 value (IEEE.to_double f))) IEEE.tolerance in
    (integral = true ->
     Pson.assign_double p value = Some (Pson.assign_int p i) /\
     In (field_type_ (Pson.assign_int p i)) integer_tags) /\
    (integral = false -> close = true ->
     Pson.assign_double p value = Pson.assign_float p f /\
     forall j, IEEE.to_int64 f = Some j ->
       (SFeqb f (IEEE.float_of_int j) = true ->
        Pson.assign_double p value = Some (Pson.assign_int p j)) /\
       (SFeqb f (IEEE.float_of_int j) = false ->
        Pson.assign_double p value
        = Some (mk_pson float_field (block (IEEE.float_bytes f))) /\
        len (IEEE.float_bytes f) = 4)) /\
    (integral = false -> close = false ->
     Pson.assign_double p value
     = Some (mk_pson double_field (block (IEEE.double_bytes value))) /\
     len (IEEE.double_bytes value) = 8).
Proof.
  intros p value i Hi f integral close.
  unfold Pson.assign_double. rewrite Hi. fold f integral close.
  split; [|split].
  - intros ->. split; [reflexivity|apply assign_int_tag].
  - intros -> ->. split; [reflexivity|].
    intros j Hj. unfold Pson.assign_float. rewrite Hj.
    split; intros ->; [reflexivity|].
    destruct (set_float_block (mk_pson float_field (value_ p)) f) as [E L].
    rewrite E. split; [reflexivity|exact L].
  - intros -> ->.
    destruct (set_double_block (mk_pson double_field (value_ p)) value) as [E L].
    rewrite E. split; [reflexivity|exact L].
Qed.

Lemma float_downgrade_policy_witness :
  IEEE.to_int64 double_1_5 = Some 1 /\
  Pson.assign_double pson_default double_1_5
  = Some (mk_pson float_field (block [0; 0; 192; 63])).
Proof.
  split; [reflexivity|].
  destruct (float_downgrade_policy pson_default double_1_5 1 eq_refl)
    as (_ & Hfloat & _).
  destruct (Hfloat eq_refl eq_refl) as [_ Hj].
  destruct (Hj 1 eq_refl) as [_ Hf].
  destruct (Hf eq_refl) as [E _]. exact E.
Defined.

(** C4 as stated fails.  The double 3 + 2^-30 is a valid binary64
    number that is not equal to its truncation 3; its 32-bit
    reconstruction is 3.0f, which differs from it by 2^-30, less than
    0.00001; the claim wants tag float32 and a 4-byte payload, and the
    assignment gives tag varint with the one-byte payload 3. *)
Lemma nonintegral_double_stored_as_integer :
  valid_binary 53 1024 double_3_and_a_bit = true /\
  IEEE.to_int64 double_3_and_a_bit = Some 3 /\
  SFeqb double_3_and_a_bit (IEEE.double_of_int 3) = false /\
  IEEE.to_float double_3_and_a_bit = IEEE.float_of_int 3 /\
  SFleb (SFabs (SFsub 53 1024 double_3_and_a_bit
                  (IEEE.to_double (IEEE.to_float double_3_and_a_bit))))
    IEEE.tolerance = true /\
  Pson.assign_double pson_default double_3_and_a_bit
  = Some (mk_pson varint_field (block [3])) /\
  varint_field <> float_field.
Proof. repeat split; try reflexivity. discriminate. Qed.

(** The assignments the specification gives as examples: 1.5 is stored
    as float32, 3.0 as the varint 3, 1000 + 2^-16 as float64; the double
    nearest to 0.1 + 1e-12 is within the tolerance of its float and is
    stored as float32. *)
Lemma float_downgrade_examples :
  Pson.assign_double pson_default double_1_5
  = Some (mk_pson float_field (block [0; 0; 192; 63])) /\
  Pson.assign_double pson_default (IEEE.double_of_int 3)
  = Some (mk_pson varint_field (block [3])) /\
  Pson.assign_double pson_default double_1000_and_a_bit
  = Some (mk_pson double_field (block [0; 0; 0; 8; 0; 64; 143; 64])) /\
  double_0_1_offset
  = SFadd 53 1024
      (SFdiv 53 1024 (IEEE.double_of_int 1) (IEEE.double_of_int 10))
      (SFdiv 53 1024 (IEEE.double_of_int 1) (IEEE.double_of_int 1000000000000)) /\
  Pson.assign_double pson_default double_0_1_offset
  = Some (mk_pson float_field (block [205; 204; 204; 61])).
Proof. repeat split; vm_compute; reflexivity. Qed.

(** ** Round trip *)

(** C1, at a string of 128 characters.  Its length is written as the
    varint [0x80 0x01]; the decoder reads the length with the 32-bit
    reader, which stops on [0x80] and returns 0.  The value decoded is
    the empty string, two bytes have been consumed, and the rest of the
    encoding is left in the source. *)
Theorem string_of_128_not_restored :
  let V := Pson.assign_string pson_default (repeat 97 128) in
  V = mk_pson string_field (block (repeat 97 128 ++ [0])) /\
  encoded V = [74; 0x80; 0x01] ++ repeat 97 128 /\
  decode 1 pson_default (start (encoded V))
  = Some (mk_pson string_field (block [0]), mk_decoder 2 ([0x01] ++ repeat 97 128)) /\
  mk_pson string_field (block [0]) <> V.
Proof.
  cbv zeta. split; [vm_compute; reflexivity|].
  split; [vm_compute; reflexivity|].
  split; [vm_compute; reflexivity|].
  vm_compute. discriminate.
Qed.

(** *** Values whose lengths all fit one varint byte *)

Lemma varint_single_byte (n : Z) : 0 <= n < 128 -> Pson.pb_encode_varint n = [n].
Proof.
  intros Hn. unfold Pson.pb_encode_varint.
  replace (uint64_t n) with n
    by (symmetry; apply Z.mod_small; change (2 ^ 64) with 18446744073709551616; lia).
  cbn [Pson.pb_encode_varint_loop].
  rewrite shiftr_7, uint8_group, Z.div_small, Z.mod_small by lia.
  reflexivity.
Qed.

Lemma get_varint_size_single (n : Z) : 0 <= n < 128 -> Pson.get_varint_size n = 1.
Proof.
  intros Hn. rewrite <- pb_encode_varint_length, varint_single_byte by exact Hn.
  reflexivity.
Qed.

Lemma short_c_string_inv (buffer : list Z) :
  short_c_string buffer = true ->
  buffer = c_chars buffer ++ [0] /\ strlen buffer = len (c_chars buffer)
  /\ len (c_chars buffer) < 128.
Proof.
  unfold short_c_string. intros H. apply andb_true_iff in H. destruct H as [H1 H2].
  destruct (list_eq_dec Z.eq_dec buffer (strdup buffer)) as [E|]; [|discriminate].
  apply Z.ltb_lt in H2. rewrite strlen_c_chars in H2.
  split; [exact E|]. split; [apply strlen_c_chars|exact H2].
Qed.

Lemma firstn_chars (chars rest : list Z) :
  firstn (Z.to_nat (len chars)) (chars ++ rest) = chars.
Proof.
  unfold len. rewrite Nat2Z.id, firstn_app, Nat.sub_diag, firstn_all.
  cbn. apply app_nil_r.
Qed.

Lemma skipn_chars (chars rest : list Z) :
  skipn (Z.to_nat (len chars)) (chars ++ rest) = rest.
Proof.
  unfold len. rewrite Nat2Z.id, skipn_app, Nat.sub_diag, skipn_all. reflexivity.
Qed.

(** A read of bytes the source holds. *)
Lemma read_available (r : Z) (bytes rest : list Z) :
  read (mk_decoder r (bytes ++ rest)) (len bytes)
  = (Some bytes, mk_decoder (r + len bytes) rest).
Proof.
  unfold read. cbn [source_ read_].
  replace (len bytes <=? len (bytes ++ rest)) with true
    by (symmetry; apply Z.leb_le; rewrite len_app; pose proof (len_nonneg rest); lia).
  now rewrite firstn_chars, skipn_chars.
Qed.

Lemma pb_read_string_available (r : Z) (chars rest : list Z) :
  len chars < 2 ^ 32 - 1 ->
  pb_read_string (allocate (uint32_t (len chars + 1))) (len chars)
    (mk_decoder r (chars ++ rest))
  = (true, chars ++ [0], mk_decoder (r + len chars) rest).
Proof.
  intros Hn. unfold pb_read_string. rewrite read_available.
  cbn [succeeded]. f_equal. f_equal.
  unfold uint32_t. rewrite Z.mod_small by (pose proof (len_nonneg chars); lia).
  change 1 with (len [0]) at 1. apply memcpy_tail. reflexivity.
Qed.

Lemma complete_varint_prefix (buffer : list Z) :
  complete_varint buffer = true -> varint_prefix buffer = buffer.
Proof.
  induction buffer as [|byte rest IH]; [discriminate|].
  cbn [complete_varint varint_prefix].
  destruct (byte >=? 0x80).
  - intros H. now rewrite IH.
  - destruct rest; [reflexivity|discriminate].
Qed.

Lemma pb_read_varint_loop_complete (buffer : list Z) :
  complete_varint buffer = true ->
  forall fuel temp r rest,
    (length buffer <= fuel)%nat ->
    pb_read_varint_loop fuel temp (mk_decoder r (buffer ++ rest))
    = (Some (temp ++ buffer), mk_decoder (r + len buffer) rest).
Proof.
  induction buffer as [|byte tail IH]; [discriminate|].
  intros Hc fuel temp r rest Hf. cbn [complete_varint] in Hc.
  destruct fuel as [|fuel]; [cbn in Hf; lia|].
  cbn [pb_read_varint_loop app].
  pose proof (read_one (mk_decoder r (byte :: tail ++ rest))) as R.
  cbn [source_] in R. rewrite R. unfold advanced. cbn [read_ source_ skipn Z.of_nat Pos.of_succ_nat].
  destruct (byte >=? 0x80).
  - rewrite IH by (try exact Hc; cbn [length] in Hf; lia).
    rewrite <- app_assoc. unfold len. cbn [app length].
    f_equal. f_equal. lia.
  - destruct tail; [|discriminate]. cbn [app]. unfold len. reflexivity.
Qed.

Lemma pb_read_varint_complete (value : pson) (buffer rest : list Z) (r : Z) :
  complete_varint buffer = true ->
  pb_read_varint value (mk_decoder r (buffer ++ rest))
  = (true, set_value value (block buffer), mk_decoder (r + len buffer) rest).
Proof.
  intros Hc. unfold pb_read_varint. cbn [source_].
  rewrite (pb_read_varint_loop_complete buffer Hc)
    by (rewrite length_app; lia).
  cbn [app]. now rewrite memcpy_whole.
Qed.

(** *** What the encoder writes for each kind of value *)

Ltac encoded_by H :=
  match goal with
  | |- encoded ?v = _ =>
      apply (emits_unique (fun w => encode w v));
      [apply encoded_emits
      |eapply emits_ext; [|exact H];
       intros w e; rewrite encode_unfold; reflexivity]
  end.

Lemma encoded_string (buffer : list Z) :
  encoded (mk_pson string_field (block buffer))
  = tag_bytes length_delimited string_field
    ++ Pson.pb_encode_varint (strlen buffer)
    ++ firstn (Z.to_nat (strlen buffer)) buffer.
Proof.
  encoded_by
    (emits_seq (fun w => pb_encode_tag w length_delimited string_field)
       (fun w => pb_encode_string w buffer) _ _
       (emits_tag length_delimited string_field) (emits_string buffer)).
Qed.

Lemma encoded_bytes (buffer : list Z) :
  encoded (mk_pson bytes_field (block buffer))
  = tag_bytes length_delimited bytes_field ++ bytes_payload (block buffer).
Proof.
  encoded_by
    (emits_seq (fun w => pb_encode_tag w length_delimited bytes_field) _ _ _
       (emits_tag length_delimited bytes_field)
       (emits_bytes_payload (block buffer))).
Qed.

Lemma encoded_varint (type : Z) (buffer : list Z) :
  type = varint_field \/ type = svarint_field ->
  encoded (mk_pson type (block buffer))
  = tag_bytes varint type ++ varint_prefix buffer.
Proof.
  intros [-> | ->].
  - encoded_by
      (emits_seq (fun w => pb_encode_tag w varint varint_field) _ _ _
         (emits_tag varint varint_field) (emits_write_varint buffer)).
  - encoded_by
      (emits_seq (fun w => pb_encode_tag w varint svarint_field) _ _ _
         (emits_tag varint svarint_field) (emits_write_varint buffer)).
Qed.

Lemma encoded_float (buffer : list Z) :
  encoded (mk_pson float_field (block buffer))
  = tag_bytes fixed_32 float_field ++ firstn 4 buffer.
Proof.
  encoded_by
    (emits_seq (fun w => pb_encode_tag w fixed_32 float_field) _ _ _
       (emits_tag fixed_32 float_field) (emits_write (firstn 4 buffer))).
Qed.

Lemma encoded_double (buffer : list Z) :
  encoded (mk_pson double_field (block buffer))
  = tag_bytes fixed_64 double_field ++ firstn 8 buffer.
Proof.
  encoded_by
    (emits_seq (fun w => pb_encode_tag w fixed_64 double_field) _ _ _
       (emits_tag fixed_64 double_field) (emits_write (firstn 8 buffer))).
Qed.

(** *** Decoding a run of items *)

Section Run.
Context {T : Type}.
Variable dflt : T.
Variable decode_item : T -> pson_decoder -> option (T * pson_decoder).
Variable wire : T -> list Z.

Lemma decode_items_all (items : list T) :
  forall fuel c r rest size start_read,
    (forall x, In x items -> restores dflt decode_item wire x) ->
    (length items <= fuel)%nat ->
    size - (r - start_read) = len (flat_map wire items) ->
    len (flat_map wire items) < 2 ^ 64 ->
    decode_items dflt decode_item fuel c size start_read
      (mk_decoder r (flat_map wire items ++ rest))
    = Some (c ++ items, mk_decoder (r + len (flat_map wire items)) rest).
Proof.
  induction items as [|x items IH]; intros fuel c r rest size start_read Hall Hf Hs Hb.
  - cbn [flat_map app]. rewrite decode_items_done.
    + rewrite app_nil_r. unfold len. cbn. now rewrite Z.add_0_r.
    + cbn [bytes_read read_]. rewrite Hs. reflexivity.
  - destruct fuel as [|fuel]; [cbn in Hf; lia|].
    destruct (Hall x (or_introl eq_refl)) as [Hpos Hx].
    cbn [flat_map] in *. rewrite len_app in Hs, Hb.
    pose proof (len_nonneg (flat_map wire items)) as Hnn.
    rewrite <- app_assoc.
    rewrite (decode_items_step dflt decode_item fuel c size start_read
               (mk_decoder r (wire x ++ flat_map wire items ++ rest))
               (mk_decoder (r + len (wire x)) (flat_map wire items ++ rest)) x).
    + rewrite IH.
      * rewrite <- app_assoc, len_app. cbn [app]. f_equal. f_equal. f_equal. lia.
      * intros y Hy. apply Hall. now right.
      * cbn [length] in Hf. lia.
      * lia.
      * lia.
    + cbn [bytes_read read_]. rewrite Hs. unfold size_t.
      rewrite Z.mod_small by lia. lia.
    + apply Hx.
Qed.
End Run.

(** *** Each kind of value *)

Ltac len_arith :=
  repeat rewrite len_app; unfold len; cbn [length];
  repeat rewrite length_app; cbn [length]; lia.

Lemma round_trip_tag_only (type : Z) (fuel : nat) :
  In type zero_payload_tags -> round_trips (S fuel) (mk_pson type NULL).
Proof.
  intros Hin r rest. cbn in Hin.
  destruct Hin as [<-|[<-|[<-|[<-|[<-|[]]]]]].
  all: match goal with
       | |- context [encoded ?v] =>
           let bs := eval vm_compute in (encoded v) in change (encoded v) with bs
       end.
  all: cbn [app decode]; rewrite tag_single by lia; reflexivity.
Qed.

Lemma round_trip_string (buffer : list Z) (fuel : nat) :
  short_c_string buffer = true ->
  round_trips (S fuel) (mk_pson string_field (block buffer)).
Proof.
  intros Hs r rest.
  destruct (short_c_string_inv _ Hs) as (Ebuf & Hlen & Hlt).
  remember (c_chars buffer) as chars eqn:Hc. clear Hc. subst buffer.
  pose proof (len_nonneg chars) as Hnn.
  rewrite encoded_string, Hlen, varint_single_byte, firstn_chars by lia.
  change (tag_bytes length_delimited string_field) with [74].
  cbn [app decode]. rewrite tag_single by lia.
  change (Z.land 74 7) with 2. change (Z.shiftr 74 3) with 9.
  cbn [Z.eqb Pos.eqb length_delimited string_field].
  rewrite varint32_single by lia.
  rewrite pb_read_string_available by (change (2 ^ 32) with 4294967296; lia).
  unfold set_value, set_type, pson_default. cbn [field_type_ value_].
  f_equal. f_equal. f_equal. len_arith.
Qed.

Lemma short_bytes_inv (buffer : list Z) :
  short_bytes buffer = true ->
  exists bytes, buffer = len bytes :: bytes /\ len bytes < 128.
Proof.
  destruct buffer as [|size bytes]; [discriminate|]. cbn [short_bytes].
  intros H. apply andb_true_iff in H. destruct H as [H1 H2].
  apply Z.eqb_eq in H1. apply Z.ltb_lt in H2. subst size.
  exists bytes. now split.
Qed.

Lemma bytes_payload_short (bytes : list Z) :
  len bytes < 128 -> bytes_payload (block (len bytes :: bytes)) = len bytes :: bytes.
Proof.
  intros Hn. pose proof (len_nonneg bytes) as Hnn.
  unfold bytes_payload. cbn [bytes_at varint_prefix].
  replace (len bytes >=? 0x80) with false
    by (symmetry; rewrite Z.geb_leb; apply Z.leb_gt; lia).
  replace (Pson.pb_decode_varint (block (len bytes :: bytes))) with (len bytes).
  - change (Z.to_nat (len [len bytes])) with 1%nat. cbn [skipn app].
    unfold len at 2. now rewrite Nat2Z.id, firstn_all.
  - symmetry. change (len bytes :: bytes) with ([len bytes] ++ bytes).
    rewrite <- (varint_single_byte (len bytes)) by lia.
    apply (pb_decode_varint_encode (len bytes) bytes).
    change (2 ^ 64) with 18446744073709551616. lia.
Qed.

Lemma round_trip_bytes (buffer : list Z) (fuel : nat) :
  short_bytes buffer = true ->
  round_trips (S fuel) (mk_pson bytes_field (block buffer)).
Proof.
  intros Hs r rest.
  destruct (short_bytes_inv _ Hs) as (bytes & -> & Hlt).
  pose proof (len_nonneg bytes) as Hnn.
  rewrite encoded_bytes, bytes_payload_short by exact Hlt.
  change (tag_bytes length_delimited bytes_field) with [82].
  cbn [app decode]. rewrite tag_single by lia.
  change (Z.land 82 7) with 2. change (Z.shiftr 82 3) with 10.
  cbn [Z.eqb Pos.eqb length_delimited string_field bytes_field].
  rewrite varint32_single by lia.
  rewrite get_varint_size_single, varint_single_byte, read_available by lia.
  rewrite (Z.add_comm (len bytes) 1).
  change 1 with (len [len bytes]) at 1 2.
  rewrite memcpy_tail by reflexivity.
  unfold set_value, set_type, pson_default. cbn [field_type_ value_ app].
  f_equal. f_equal. f_equal. len_arith.
Qed.

Lemma round_trip_varint (type : Z) (buffer : list Z) (fuel : nat) :
  type = varint_field \/ type = svarint_field ->
  complete_varint buffer = true ->
  round_trips (S fuel) (mk_pson type (block buffer)).
Proof.
  intros Ht Hc r rest.
  rewrite encoded_varint, complete_varint_prefix by assumption.
  destruct Ht as [-> | ->].
  - change (tag_bytes varint varint_field) with [8].
    cbn [app decode]. rewrite tag_single by lia.
    change (Z.land 8 7) with 0. change (Z.shiftr 8 3) with 1.
    cbn [Z.eqb Pos.eqb length_delimited svarint_field varint_field orb].
    rewrite pb_read_varint_complete by exact Hc.
    unfold set_value, set_type, pson_default. cbn [field_type_ value_].
    f_equal. f_equal. f_equal. len_arith.
  - change (tag_bytes varint svarint_field) with [16].
    cbn [app decode]. rewrite tag_single by lia.
    change (Z.land 16 7) with 0. change (Z.shiftr 16 3) with 2.
    cbn [Z.eqb Pos.eqb length_delimited svarint_field varint_field orb].
    rewrite pb_read_varint_complete by exact Hc.
    unfold set_value, set_type, pson_default. cbn [field_type_ value_].
    f_equal. f_equal. f_equal. len_arith.
Qed.

Lemma firstn_whole (n : nat) (buffer : list Z) :
  len buffer = Z.of_nat n -> firstn n buffer = buffer.
Proof. unfold len. intros H. apply firstn_all2. lia. Qed.

Lemma round_trip_float (buffer : list Z) (fuel : nat) :
  len buffer = 4 -> round_trips (S fuel) (mk_pson float_field (block buffer)).
Proof.
  intros Hl r rest.
  rewrite encoded_float, (firstn_whole 4) by exact Hl.
  change (tag_bytes fixed_32 float_field) with [29].
  cbn [app decode]. rewrite tag_single by lia.
  change (Z.land 29 7) with 5. change (Z.shiftr 29 3) with 3.
  cbn [Z.eqb Pos.eqb length_delimited svarint_field varint_field float_field orb].
  rewrite <- Hl, read_available, memcpy_whole by reflexivity.
  unfold set_value, set_type, pson_default. cbn [field_type_ value_].
  f_equal. f_equal. f_equal. len_arith.
Qed.

Lemma round_trip_double (buffer : list Z) (fuel : nat) :
  len buffer = 8 -> round_trips (S fuel) (mk_pson double_field (block buffer)).
Proof.
  intros Hl r rest.
  rewrite encoded_double, (firstn_whole 8) by exact Hl.
  change (tag_bytes fixed_64 double_field) with [33].
  cbn [app decode]. rewrite tag_single by lia.
  change (Z.land 33 7) with 1. change (Z.shiftr 33 3) with 4.
  cbn [Z.eqb Pos.eqb length_delimited svarint_field varint_field float_field
         double_field orb].
  rewrite <- Hl, read_available, memcpy_whole by reflexivity.
  unfold set_value, set_type, pson_default. cbn [field_type_ value_].
  f_equal. f_equal. f_equal. len_arith.
Qed.

Lemma encoded_pair_nonempty (item : pson_pair) : 0 < len (pair_wire item).
Proof.
  unfold pair_wire. rewrite !len_app, pb_encode_varint_length, get_varint_size_minimal.
  pose proof (len_nonneg (encoded (pair_value item))).
  pose proof (len_nonneg (firstn (Z.to_nat (strlen (pair_name item))) (pair_name item))).
  unfold minimal_varint_size. lia.
Qed.

Lemma round_trip_pair
  (decode_value : pson -> pson_decoder -> option (pson * pson_decoder))
  (item : pson_pair) :
  short_c_string (pair_name item) = true ->
  (forall r rest,
     decode_value pson_default (mk_decoder r (encoded (pair_value item) ++ rest))
     = Some (pair_value item,
             mk_decoder (r + len (encoded (pair_value item))) rest)) ->
  restores Object.pair_default (decode_pair_with decode_value) pair_wire item.
Proof.
  intros Hs Hv. split; [apply encoded_pair_nonempty|].
  intros r rest. destruct item as [buffer value]. cbn [pair_name pair_value] in *.
  destruct (short_c_string_inv _ Hs) as (Ebuf & Hlen & Hlt).
  remember (c_chars buffer) as chars eqn:Hc. clear Hc. subst buffer.
  pose proof (len_nonneg chars) as Hnn.
  unfold pair_wire, decode_pair_with. cbn [pair_name pair_value Object.pair_default].
  rewrite Hlen, varint_single_byte, firstn_chars by lia.
  rewrite <- !app_assoc. cbn [app].
  rewrite varint32_single by lia.
  rewrite pb_read_string_available by (change (2 ^ 32) with 4294967296; lia).
  rewrite Hv. f_equal. f_equal. f_equal. len_arith.
Qed.

(** *** The whole tree *)

Lemma nodes_positive (v : pson) : (1 <= nodes v)%nat.
Proof. destruct v as [type [| | |]]; cbn; lia. Qed.

Lemma nodes_of_pairs (object : pson_object) (item : pson_pair) :
  In item object ->
  (nodes (pair_value item)
   <= fold_right (fun item n => (nodes (pair_value item) + n)%nat) O object)%nat.
Proof.
  induction object as [|x object IH]; intros []; cbn [fold_right].
  - subst. lia.
  - specialize (IH H). lia.
Qed.

Lemma count_of_pairs (object : pson_object) :
  (length object
   <= fold_right (fun item n => (nodes (pair_value item) + n)%nat) O object)%nat.
Proof.
  induction object as [|x object IH]; cbn [fold_right length]; [lia|].
  pose proof (nodes_positive (pair_value x)). lia.
Qed.

Lemma nodes_of_items (array : pson_array) (item : pson) :
  In item array ->
  (nodes item <= fold_right (fun item n => (nodes item + n)%nat) O array)%nat.
Proof.
  induction array as [|x array IH]; intros []; cbn [fold_right].
  - subst. lia.
  - specialize (IH H). lia.
Qed.

Lemma count_of_items (array : pson_array) :
  (length array <= fold_right (fun item n => (nodes item + n)%nat) O array)%nat.
Proof.
  induction array as [|x array IH]; cbn [fold_right length]; [lia|].
  pose proof (nodes_positive x). lia.
Qed.

Lemma tag_byte_first (wire_type field_number : Z) (tail : list Z) :
  0 < len (tag_bytes wire_type field_number ++ tail).
Proof.
  rewrite len_app. unfold tag_bytes.
  rewrite pb_encode_varint_length, get_varint_size_minimal.
  pose proof (len_nonneg tail). unfold minimal_varint_size. lia.
Qed.

(** Decoding the encoding of a tree of short lengths, with fuel for
    every value in it, gives the tree back and consumes exactly its
    encoding, whatever follows it in the source. *)
Lemma round_trip_short_tree (v : pson) :
  short_tree v = true ->
  0 < len (encoded v) /\
  forall fuel, (nodes v <= fuel)%nat -> round_trips fuel v.
Proof.
  induction v as [type slot IH]. intros Hs.
  destruct slot as [|buffer|object|array]; cbn [short_tree field_type_ value_] in Hs.
  - assert (Hin : In type zero_payload_tags).
    { unfold zero_payload_tags.
      repeat (apply orb_true_iff in Hs; destruct Hs as [Hs|Hs]);
        apply Z.eqb_eq in Hs; subst type; cbn; auto 6. }
    split.
    + cbn in Hin. destruct Hin as [<-|[<-|[<-|[<-|[<-|[]]]]]]; reflexivity.
    + intros [|fuel] Hf; [cbn in Hf; lia|]. now apply round_trip_tag_only.
  - destruct (type =? string_field) eqn:E1.
    { apply Z.eqb_eq in E1. subst type. split.
      - rewrite encoded_string. apply tag_byte_first.
      - intros [|fuel] Hf; [cbn in Hf; lia|]. now apply round_trip_string. }
    destruct (type =? bytes_field) eqn:E2.
    { apply Z.eqb_eq in E2. subst type. split.
      - rewrite encoded_bytes. apply tag_byte_first.
      - intros [|fuel] Hf; [cbn in Hf; lia|]. now apply round_trip_bytes. }
    destruct ((type =? svarint_field) || (type =? varint_field)) eqn:E3.
    { apply andb_true_iff in Hs. destruct Hs as [Hc _].
      assert (Ht : type = varint_field \/ type = svarint_field).
      { apply orb_true_iff in E3. destruct E3 as [E|E]; apply Z.eqb_eq in E; auto. }
      split.
      - rewrite encoded_varint by exact Ht. apply tag_byte_first.
      - intros [|fuel] Hf; [cbn in Hf; lia|]. now apply round_trip_varint. }
    destruct (type =? float_field) eqn:E4.
    { apply Z.eqb_eq in E4. subst type. apply Z.eqb_eq in Hs. split.
      - rewrite encoded_float. apply tag_byte_first.
      - intros [|fuel] Hf; [cbn in Hf; lia|]. now apply round_trip_float. }
    destruct (type =? double_field) eqn:E5; [|discriminate].
    apply Z.eqb_eq in E5. subst type. apply Z.eqb_eq in Hs. split.
    + rewrite encoded_double. apply tag_byte_first.
    + intros [|fuel] Hf; [cbn in Hf; lia|]. now apply round_trip_double.
  - apply andb_true_iff in Hs. destruct Hs as [Hs Hlen].
    apply andb_true_iff in Hs. destruct Hs as [Ht Hall].
    apply Z.eqb_eq in Ht. subst type. apply Z.ltb_lt in Hlen.
    rewrite forallb_forall in Hall.
    inversion IH as [| |object' Hitems|]; subst object'.
    pose proof (list_all_In
                  (fun item =>
                     short_tree (pair_value item) = true ->
                     0 < len (encoded (pair_value item)) /\
                     forall fuel, (nodes (pair_value item) <= fuel)%nat ->
                                  round_trips fuel (pair_value item))
                  (pair_all_value _) Hitems) as IHo.
    clear IH Hitems.
    pose proof (len_nonneg (object_wire object)) as Hnn.
    unfold round_trips. rewrite !encoded_object, !varint_single_byte by lia.
    change (tag_bytes length_delimited object_field) with [90].
    split; [len_arith|].
    intros [|fuel] Hf; [cbn in Hf; lia|]. cbn [nodes value_] in Hf.
    intros r rest. cbn [app decode]. rewrite tag_single by lia.
    change (Z.land 90 7) with 2. change (Z.shiftr 90 3) with 11.
    cbn [Z.eqb Pos.eqb length_delimited string_field bytes_field object_field].
    rewrite varint32_single by lia.
    unfold object_wire.
    rewrite (decode_items_all Object.pair_default (decode_pair_with (decode fuel))
               pair_wire object fuel [] (r + 1 + 1) rest).
    + unfold set_value, set_type, pson_default. cbn [field_type_ value_ app].
      f_equal. f_equal. f_equal. len_arith.
    + intros item Hitem. specialize (Hall item Hitem).
      apply andb_true_iff in Hall. destruct Hall as [Hname Hvalue].
      apply round_trip_pair; [exact Hname|].
      apply (IHo item Hitem Hvalue).
      pose proof (nodes_of_pairs object item Hitem). lia.
    + pose proof (count_of_pairs object). lia.
    + cbn [bytes_read read_]. fold (object_wire object). lia.
    + fold (object_wire object). change (2 ^ 64) with 18446744073709551616. lia.
  - apply andb_true_iff in Hs. destruct Hs as [Hs Hlen].
    apply andb_true_iff in Hs. destruct Hs as [Ht Hall].
    apply Z.eqb_eq in Ht. subst type. apply Z.ltb_lt in Hlen.
    rewrite forallb_forall in Hall.
    inversion IH as [| | |array' Hitems]; subst array'.
    pose proof (list_all_In_prop Hitems) as IHa. cbv beta in IHa.
    clear IH Hitems.
    pose proof (len_nonneg (array_wire array)) as Hnn.
    unfold round_trips. rewrite !encoded_array, !varint_single_byte by lia.
    change (tag_bytes length_delimited array_field) with [98].
    split; [len_arith|].
    intros [|fuel] Hf; [cbn in Hf; lia|]. cbn [nodes value_] in Hf.
    intros r rest. cbn [app decode]. rewrite tag_single by lia.
    change (Z.land 98 7) with 2. change (Z.shiftr 98 3) with 12.
    cbn [Z.eqb Pos.eqb length_delimited string_field bytes_field object_field
           array_field].
    rewrite varint32_single by lia.
    unfold array_wire.
    rewrite (decode_items_all pson_default (decode fuel)
               encoded array fuel [] (r + 1 + 1) rest).
    + unfold set_value, set_type, pson_default. cbn [field_type_ value_ app].
      f_equal. f_equal. f_equal. len_arith.
    + intros item Hitem. destruct (IHa item Hitem (Hall item Hitem)) as [Hpos Hrt].
      split; [exact Hpos|]. apply Hrt.
      pose proof (nodes_of_items array item Hitem). lia.
    + pose proof (count_of_items array). lia.
    + cbn [bytes_read read_]. fold (array_wire array). lia.
    + fold (array_wire array). change (2 ^ 64) with 18446744073709551616. lia.
Qed.

(** Round trip, where no length reaches 128: decoding the bytes the
    encoder produces for such a tree into a new value returns the tree,
    pairs and items in their order, and leaves the decoder at the end of
    the encoding. *)
Theorem round_trip_below_128 :
  forall (v : pson) (fuel : nat),
    short_tree v = true -> (nodes v <= fuel)%nat ->
    decode fuel pson_default (start (encoded v))
    = Some (v, mk_decoder (len (encoded v)) []).
Proof.
  intros v fuel Hs Hf.
  destruct (round_trip_short_tree v Hs) as [_ H].
  specialize (H fuel Hf 0 []). rewrite app_nil_r in H. exact H.
Qed.

Lemma round_trip_below_128_witness :
  short_tree sample_tree = true /\ (nodes sample_tree <= 8)%nat /\
  decode 8 pson_default (start (encoded sample_tree))
  = Some (sample_tree, mk_decoder 29 []).
Proof.
  split; [reflexivity|]. split; [apply Nat.leb_le; reflexivity|].
  apply (round_trip_below_128 sample_tree 8);
    [reflexivity|apply Nat.leb_le; reflexivity].
Defined.

(** *** The values the assignments build are such trees *)

Lemma complete_varint_loop (fuel : nat) :
  forall v, 0 <= v < 2 ^ (7 * Z.of_nat (S fuel)) ->
    complete_varint (Pson.pb_encode_varint_loop (S fuel) v) = true.
Proof.
  induction fuel as [|fuel IH]; intros v Hv.
  all: pose proof (Z.mod_pos_bound v 128 ltac:(lia)) as Hg.
  - change (2 ^ (7 * Z.of_nat 1)) with 128 in Hv.
    cbn [Pson.pb_encode_varint_loop].
    rewrite shiftr_7, group_rest_zero, uint8_group by lia.
    replace (v <? 128) with true by (symmetry; apply Z.ltb_lt; lia).
    cbn [complete_varint].
    now replace (v mod 128 >=? 128) with false
      by (symmetry; rewrite Z.geb_leb; apply Z.leb_gt; lia).
  - change (Pson.pb_encode_varint_loop (S (S fuel)) v)
      with ((if Z.shiftr v 7 =? 0 then uint8_t (Z.land v 0x7F)
             else Z.lor (uint8_t (Z.land v 0x7F)) 0x80)
            :: (if Z.shiftr v 7 =? 0 then []
                else Pson.pb_encode_varint_loop (S fuel) (Z.shiftr v 7))).
    rewrite shiftr_7, group_rest_zero, uint8_group by lia.
    destruct (v <? 128) eqn:E; cbn [complete_varint].
    + now replace (v mod 128 >=? 128) with false
        by (symmetry; rewrite Z.geb_leb; apply Z.leb_gt; lia).
    + rewrite group_mark by lia.
      replace (v mod 128 + 128 >=? 128) with true
        by (symmetry; rewrite Z.geb_leb; apply Z.leb_le; lia).
      apply IH. apply group_rest_bound. exact Hv.
Qed.

Lemma minimal_varint_size_bound (M : Z) :
  0 <= M < 2 ^ 64 -> 1 <= minimal_varint_size M <= 10.
Proof.
  intros HM. unfold minimal_varint_size, bitlength.
  destruct (M =? 0) eqn:E; [cbn; lia|].
  apply Z.eqb_neq in E.
  assert (Z.log2 M < 64) by (apply Z.log2_lt_pow2; lia).
  pose proof (Z.log2_nonneg M).
  assert ((Z.log2 M + 1 + 6) / 7 <= 10)
    by (apply Z.lt_succ_r, Z.div_lt_upper_bound; lia).
  lia.
Qed.

Lemma complete_varint_encode (M : Z) :
  complete_varint (Pson.pb_encode_varint M) = true /\
  len (Pson.pb_encode_varint M) <= 10.
Proof.
  split.
  - apply complete_varint_loop, uint64_bound.
  - rewrite pb_encode_varint_length, get_varint_size_minimal.
    apply minimal_varint_size_bound. apply Z.mod_pos_bound. reflexivity.
Qed.

Lemma assign_int_short (value : Z) :
  - 2 ^ 63 <= value < 2 ^ 64 ->
  short_tree (Pson.assign_int pson_default value) = true.
Proof.
  intros Hr.
  destruct (Z.eq_dec value 0) as [->|H0]; [reflexivity|].
  destruct (Z.eq_dec value 1) as [->|H1]; [reflexivity|].
  rewrite assign_int_stores by assumption.
  destruct (complete_varint_encode (Z.abs value)) as [Hc Hl].
  destruct (value <? 0); cbn [short_tree field_type_ value_];
    cbn [Z.eqb Pos.eqb svarint_field varint_field string_field bytes_field orb];
    rewrite Hc; apply Z.leb_le; exact Hl.
Qed.

Lemma assign_bool_short (value : bool) :
  short_tree (Pson.assign_bool pson_default value) = true.
Proof. destruct value; reflexivity. Qed.

Lemma assign_string_short (str : list Z) :
  strlen str < 128 -> short_tree (Pson.assign_string pson_default str) = true.
Proof.
  intros Hl. unfold Pson.assign_string.
  rewrite memcpy_whole by (symmetry; apply len_strdup).
  cbn [short_tree field_type_ value_ Z.eqb Pos.eqb string_field].
  unfold short_c_string.
  assert (E : strdup (strdup str) = strdup str)
    by (unfold strdup at 1; now rewrite c_chars_strdup).
  rewrite E.
  destruct (list_eq_dec Z.eq_dec (strdup str) (strdup str)); [|congruence].
  rewrite strlen_c_chars, c_chars_strdup, <- strlen_c_chars.
  now apply Z.ltb_lt.
Qed.

Lemma set_bytes_short (bytes : list Z) :
  len bytes < 128 -> short_tree (Pson.set_bytes pson_default bytes) = true.
Proof.
  intros Hl. pose proof (len_nonneg bytes) as Hnn. unfold Pson.set_bytes.
  rewrite get_varint_size_single, varint_single_byte by lia.
  rewrite (Z.add_comm 1 (len bytes)), (Z.add_comm (len bytes) 1).
  change 1 with (len [len bytes]) at 1 2.
  rewrite memcpy_tail by reflexivity.
  cbn [app short_tree field_type_ value_ Z.eqb Pos.eqb string_field bytes_field
         short_bytes].
  rewrite Z.eqb_refl. now apply Z.ltb_lt.
Qed.

(** Integers, booleans, and strings and byte buffers of fewer than 128
    bytes come back from their encoding as they were assigned. *)
Lemma round_trip_assigned (v : pson) :
  (exists value, - 2 ^ 63 <= value < 2 ^ 64 /\ v = Pson.assign_int pson_default value)
  \/ (exists value, v = Pson.assign_bool pson_default value)
  \/ (exists str, strlen str < 128 /\ v = Pson.assign_string pson_default str)
  \/ (exists bytes, len bytes < 128 /\ v = Pson.set_bytes pson_default bytes) ->
  decode 1 pson_default (start (encoded v)) = Some (v, mk_decoder (len (encoded v)) []).
Proof.
  intros H.
  assert (Hs : short_tree v = true /\ nodes v = 1%nat).
  { destruct H as [(value & Hr & ->)|[(value & ->)|[(str & Hl & ->)|(bytes & Hl & ->)]]].
    - split; [now apply assign_int_short|].
      unfold Pson.assign_int.
      destruct (value =? 0); [reflexivity|]. destruct (value =? 1); reflexivity.
    - split; [apply assign_bool_short|reflexivity].
    - split; [now apply assign_string_short|reflexivity].
    - split; [now apply set_bytes_short|reflexivity]. }
  destruct Hs as [Hs Hn].
  destruct (round_trip_short_tree v Hs) as [_ Hrt].
  specialize (Hrt 1%nat ltac:(lia) 0 []). now rewrite app_nil_r in Hrt.
Qed.

(** ** Fuel *)

(** [pb_read_varint] consumes a byte in every round that does not
    return, so the fuel it gives its loop is never used up. *)
Lemma pb_read_varint_loop_fuel (d : pson_decoder) :
  forall fuel extra temp,
    (length (source_ d) < fuel)%nat ->
    pb_read_varint_loop (fuel + extra) temp d = pb_read_varint_loop fuel temp d.
Proof.
  destruct d as [r source]. revert r.
  induction source as [|byte rest IH]; intros r fuel extra temp Hf.
  all: destruct fuel as [|fuel]; [cbn in Hf; lia|].
  all: cbn [Nat.add pb_read_varint_loop].
  - reflexivity.
  - pose proof (read_one (mk_decoder r (byte :: rest))) as R.
    cbn [source_] in R. rewrite R.
    destruct (byte >=? 0x80); [|reflexivity].
    unfold advanced. cbn [read_ source_ skipn].
    apply IH. cbn [source_ length] in *. lia.
Qed.

(** The loop over a composite has no such bound.  An object that
    declares five bytes in a source that ends after the declaration is
    never finished: each round links a pair with an empty name and a
    null value, the failed reads count nothing, and the condition of the
    loop stays true. *)
Lemma decode_items_exhausted (k : nat) :
  forall n c,
    decode_items Object.pair_default (decode_pair_with (decode k)) n c 5 2
      (mk_decoder 2 []) = None.
Proof.
  induction n as [|n IH]; intros c; [reflexivity|].
  cbn [decode_items bytes_read read_ create_item].
  change (size_t (5 - (2 - 2)) >? 0) with true. cbv iota.
  rewrite nth_created.
  destruct k as [|k]; [reflexivity|].
  unfold decode_pair_with at 1. rewrite varint32_end_of_source.
  unfold pb_read_string. rewrite read_nothing.
  cbn [decode]. unfold pb_decode_tag. rewrite varint32_end_of_source.
  cbn. rewrite store_created. apply IH.
Qed.

Lemma decode_truncated_object_never_returns (fuel : nat) :
  decode fuel pson_default (start [90; 5]) = None.
Proof.
  destruct fuel as [|fuel]; [reflexivity|].
  unfold start. cbn [decode]. rewrite tag_single by lia.
  change (Z.land 90 7) with 2. change (Z.shiftr 90 3) with 11.
  cbn [Z.eqb Pos.eqb length_delimited string_field bytes_field object_field].
  rewrite varint32_single by lia.
  cbn [bytes_read read_ Z.add Pos.add Pos.succ].
  now rewrite decode_items_exhausted.
Qed.

(** * Further properties of the code *)

(** ** Varints in memory and on the wire *)

(** X1.  For every magnitude below 2^64, the block [operator=(T)] and
    [set_bytes] allocate with [get_varint_size] is exactly as long as the
    varint [pb_encode_varint] stores in it, between 1 and 10 bytes, and
    [pb_decode_varint] reads the magnitude back from that block, whatever
    bytes follow the varint. *)
Theorem stored_varint_reads_back :
  forall (M : Z) (rest : list Z),
    0 <= M < 2 ^ 64 ->
    Pson.pb_decode_varint (block (Pson.pb_encode_varint M ++ rest)) = M /\
    len (Pson.pb_encode_varint M) = Pson.get_varint_size M /\
    1 <= Pson.get_varint_size M <= 10.
Proof.
  intros M rest HM.
  split; [now apply pb_decode_varint_encode|].
  split; [apply pb_encode_varint_length|].
  rewrite get_varint_size_minimal.
  apply minimal_varint_size_bound.
  unfold uint64_t. rewrite Z.mod_small; exact HM.
Qed.

Lemma stored_varint_reads_back_witness :
  0 <= 300 < 2 ^ 64 /\
  Pson.pb_decode_varint (block (Pson.pb_encode_varint 300 ++ [7; 7])) = 300.
Proof.
  split; [lia|].
  destruct (stored_varint_reads_back 300 [7; 7] ltac:(lia)) as [H _]. exact H.
Defined.

(** X2.  For every magnitude below 2^64, the encoder's varint writer
    appends to the sink the bytes [pson::pb_encode_varint] stores, and
    their number is ceil(bitlength/7), at least 1: no varint is written
    longer than it has to be. *)
Theorem written_varint_is_minimal :
  forall (M : Z) (e : pson_encoder),
    0 <= M < 2 ^ 64 ->
    pb_encode_varint write_sink M e
    = mk_encoder (written_ e + minimal_varint_size M)
        (sink_ e ++ Pson.pb_encode_varint M) /\
    bytes_written (pb_encode_varint write M e)
    = bytes_written e + minimal_varint_size M.
Proof.
  intros M e HM.
  assert (E : uint64_t M = M) by (apply Z.mod_small; exact HM).
  assert (L : len (Pson.pb_encode_varint M) = minimal_varint_size M)
    by (now rewrite pb_encode_varint_length, get_varint_size_minimal, E).
  destruct (emits_varint M e) as [H1 H2].
  rewrite H1, H2, L. split; reflexivity.
Qed.

Lemma written_varint_is_minimal_witness :
  0 <= 300 < 2 ^ 64 /\
  pb_encode_varint write_sink 300 fresh = mk_encoder 2 [172; 2].
Proof.
  split; [lia|].
  destruct (written_varint_is_minimal 300 fresh ltac:(lia)) as [H _]. exact H.
Defined.

(** ** The encoder *)

(** X3.  What the encoder writes for a value depends on the value alone:
    from any encoder state, a sink that keeps its bytes receives the same
    byte string appended to what it held, and the tally [bytes_written]
    grows by the length of that string, with the counting-only [write] as
    with a sink that keeps the bytes. *)
Theorem encoding_ignores_encoder_state :
  forall (value : pson) (e : pson_encoder),
    encode write_sink value e
    = mk_encoder (written_ e + len (encoded value)) (sink_ e ++ encoded value) /\
    encode write value e = mk_encoder (written_ e + len (encoded value)) (sink_ e).
Proof.
  intros value e. destruct (encoded_emits value e) as [H1 H2]. now split.
Qed.

(** X4.  A value whose type number is none of 1 to 12 -- the null type
    0, or a number [set_type] stored from outside the enumeration -- is
    written as the single byte 0, whatever its payload pointer holds, and
    that byte decodes to the null value. *)
Theorem other_types_encode_as_null :
  forall (type : Z) (v : slot pson),
    type < 1 \/ 12 < type ->
    encoded (mk_pson type v) = [0] /\
    decode 1 pson_default (start (encoded (mk_pson type v)))
    = Some (pson_default, mk_decoder 1 []).
Proof.
  intros type v Ht.
  assert (E : encoded (mk_pson type v) = [0]).
  { apply (emits_unique (fun w => encode w (mk_pson type v))).
    - apply encoded_emits.
    - eapply emits_ext; [|apply (emits_tag varint null_field)].
      intros w e. rewrite encode_unfold. cbn [get_type field_type_].
      repeat match goal with
             | |- context [type =? ?k] =>
                 replace (type =? k) with false
                   by (symmetry; apply Z.eqb_neq; unfold k; lia)
             end.
      reflexivity. }
  rewrite E. split; reflexivity.
Qed.

Lemma other_types_encode_as_null_witness :
  (13 < 1 \/ 12 < 13) /\ encoded (mk_pson 13 (block [1; 2; 3])) = [0].
Proof.
  split; [right; lia|].
  destruct (other_types_encode_as_null 13 (block [1; 2; 3]) ltac:(right; lia))
    as [H _].
  exact H.
Defined.

(** ** Reading a value back *)

Lemma int64_of_small (x : Z) : - 2 ^ 63 <= x < 2 ^ 63 -> int64_t x = x.
Proof.
  intros Hx. unfold int64_t.
  change (2 ^ 63) with 9223372036854775808 in *.
  change (2 ^ 64) with 18446744073709551616.
  rewrite Z.mod_small; lia.
Qed.

Lemma int64_of_negated (m : Z) :
  0 < m <= 2 ^ 63 -> int64_t (uint64_t (- m)) = - m.
Proof.
  intros Hm. unfold int64_t, uint64_t.
  change (2 ^ 63) with 9223372036854775808 in *.
  change (2 ^ 64) with 18446744073709551616.
  replace ((- m) mod 18446744073709551616) with (18446744073709551616 - m)
    by (apply Z.mod_unique with (q := -1); lia).
  replace ((18446744073709551616 - m + 9223372036854775808) mod 18446744073709551616)
    with (9223372036854775808 - m)
    by (apply Z.mod_unique with (q := 1); lia).
  lia.
Qed.

Lemma stored_magnitude (m : Z) :
  0 <= m < 2 ^ 64 -> Pson.pb_decode_varint (block (Pson.pb_encode_varint m)) = m.
Proof.
  intros Hm. rewrite <- (app_nil_r (Pson.pb_encode_varint m)).
  now apply pb_decode_varint_encode.
Qed.

(** X5.  Every [int64_t] assigned to a value, on whatever the value held
    before, is read back by the conversion to [int64_t], the least
    integer -2^63 included; a boolean is read back as 1 or 0. *)
Theorem integer_reads_back :
  forall (p : pson) (value : Z) (b : bool),
    - 2 ^ 63 <= value < 2 ^ 63 ->
    Value.to_int64 (Pson.assign_int p value) = Some value /\
    Value.to_int64 (Pson.assign_bool p b) = Some (if b then 1 else 0).
Proof.
  intros p value b Hr. split; [|destruct b; reflexivity].
  destruct (Z.eq_dec value 0) as [->|H0]; [reflexivity|].
  destruct (Z.eq_dec value 1) as [->|H1]; [reflexivity|].
  assert (Hr' : - 2 ^ 63 <= value < 2 ^ 64)
    by (change (2 ^ 63) with 9223372036854775808 in Hr;
        change (2 ^ 64) with 18446744073709551616;
        change (2 ^ 63) with 9223372036854775808; lia).
  rewrite assign_int_stores by assumption.
  unfold Value.to_int64. cbn [field_type_ value_].
  change (2 ^ 63) with 9223372036854775808 in Hr.
  destruct (value <? 0) eqn:E.
  - apply Z.ltb_lt in E.
    cbn [Z.eqb Pos.eqb svarint_field zero_field false_field one_field true_field
           float_field double_field varint_field orb].
    rewrite stored_magnitude
      by (change (2 ^ 64) with 18446744073709551616; lia).
    rewrite int64_of_negated
      by (change (2 ^ 63) with 9223372036854775808; lia).
    f_equal. lia.
  - apply Z.ltb_ge in E.
    cbn [Z.eqb Pos.eqb svarint_field zero_field false_field one_field true_field
           float_field double_field varint_field orb].
    rewrite stored_magnitude
      by (change (2 ^ 64) with 18446744073709551616; lia).
    rewrite Z.abs_eq by lia.
    rewrite int64_of_small
      by (change (2 ^ 63) with 9223372036854775808; lia).
    reflexivity.
Qed.

Lemma integer_reads_back_witness :
  - 2 ^ 63 <= - 2 ^ 63 < 2 ^ 63 /\
  Value.to_int64 (Pson.assign_int pson_default (- 2 ^ 63)) = Some (- 2 ^ 63).
Proof.
  split; [split; [apply Z.le_refl|reflexivity]|].
  destruct (integer_reads_back pson_default (- 2 ^ 63) true
              (conj (Z.le_refl _) eq_refl)) as [H _].
  exact H.
Defined.

(** X6.  Read as a double, a non-negative integer gives the double
    nearest to it, but a negative integer does not give its value: the
    magnitude is negated as a [uint64_t] before the conversion, so the
    result is the double nearest to 2^64 + value, a number of at least
    2^63. *)
Theorem integer_read_as_double :
  forall (p : pson) (value : Z),
    - 2 ^ 63 <= value < 2 ^ 64 ->
    Value.to_double (Pson.assign_int p value)
    = IEEE.double_of_int (if value <? 0 then 2 ^ 64 + value else value).
Proof.
  intros p value Hr.
  change (2 ^ 63) with 9223372036854775808 in Hr.
  change (2 ^ 64) with 18446744073709551616 in Hr.
  destruct (Z.eq_dec value 0) as [->|H0]; [reflexivity|].
  destruct (Z.eq_dec value 1) as [->|H1]; [reflexivity|].
  rewrite assign_int_stores
    by (try assumption; change (2 ^ 63) with 9223372036854775808;
        change (2 ^ 64) with 18446744073709551616; lia).
  unfold Value.to_double. cbn [field_type_ value_].
  destruct (value <? 0) eqn:E.
  - apply Z.ltb_lt in E.
    cbn [Z.eqb Pos.eqb svarint_field zero_field false_field one_field true_field
           float_field double_field varint_field orb].
    rewrite stored_magnitude
      by (change (2 ^ 64) with 18446744073709551616; lia).
    f_equal. unfold uint64_t. change (2 ^ 64) with 18446744073709551616.
    symmetry. apply Z.mod_unique with (q := -1); lia.
  - apply Z.ltb_ge in E.
    cbn [Z.eqb Pos.eqb svarint_field zero_field false_field one_field true_field
           float_field double_field varint_field orb].
    rewrite stored_magnitude
      by (change (2 ^ 64) with 18446744073709551616; lia).
    f_equal. lia.
Qed.

Lemma integer_read_as_double_witness :
  - 2 ^ 63 <= -3 < 2 ^ 64 /\
  Value.to_double (Pson.assign_int pson_default (-3))
  = S754_finite false 4503599627370496 12.
Proof.
  split; [lia|].
  rewrite (integer_read_as_double pson_default (-3) ltac:(lia)). reflexivity.
Defined.

(** X7.  A string assigned to a value is read back as a C string with
    the same characters; a byte buffer of any length below 2^64 given to
    [set_bytes] is read back through the buffer descriptor with its
    length and its bytes. *)
Theorem string_and_bytes_read_back :
  forall (p : pson) (str bytes : list Z),
    len bytes < 2 ^ 64 ->
    Value.to_c_str (Pson.assign_string p str) = c_chars str ++ [0] /\
    Value.to_buffer (Pson.set_bytes p bytes)
    = Value.mk_descriptor (Some bytes) (len bytes).
Proof.
  intros p str bytes Hl. split.
  - unfold Pson.assign_string, Value.to_c_str. cbn [field_type_ value_ bytes_at].
    rewrite memcpy_whole by (symmetry; apply len_strdup). reflexivity.
  - pose proof (len_nonneg bytes) as Hnn.
    unfold Pson.set_bytes. rewrite <- pb_encode_varint_length.
    rewrite memcpy_tail by reflexivity.
    unfold Value.to_buffer. cbn [field_type_ value_ bytes_at].
    rewrite Z.eqb_refl.
    rewrite pb_decode_varint_encode by lia.
    rewrite <- pb_encode_varint_length, skipn_chars. reflexivity.
Qed.

Lemma string_and_bytes_read_back_witness :
  len [1; 2; 3] < 2 ^ 64 /\
  Value.to_buffer (Pson.set_bytes pson_default [1; 2; 3])
  = Value.mk_descriptor (Some [1; 2; 3]) 3.
Proof.
  split; [reflexivity|].
  destruct (string_and_bytes_read_back pson_default [] [1; 2; 3] eq_refl)
    as [_ H].
  exact H.
Defined.

(** X8.  A read that does not match the tag gives a default instead of
    failing: a value that is no number reads as the integer 0, a value
    that is no string as the empty string, a value that is no byte buffer
    as the descriptor with no buffer and size 0, and the const lookup of
    any name in a value that is no object as the static empty value,
    leaving the value as it is. *)
Theorem mismatched_reads_give_defaults :
  forall (p : pson) (name : list Z),
    (Value.is_number p = false -> Value.is_boolean p = false ->
     Value.to_int64 p = Some 0) /\
    (Value.is_string p = false -> Value.to_c_str p = [0]) /\
    (Value.is_bytes p = false ->
     Value.to_buffer p = Value.mk_descriptor None 0) /\
    (Value.is_object p = false ->
     Value.subscript_const p name = (p, empty_value)).
Proof.
  intros p name. repeat split.
  - unfold Value.is_number, Value.is_boolean, Value.to_int64. intros Hn Hb.
    repeat (apply orb_false_elim in Hn; destruct Hn as [Hn ?]).
    apply orb_false_elim in Hb. destruct Hb as [? ?].
    repeat match goal with H : (_ =? _) = false |- _ => rewrite H; clear H end.
    reflexivity.
  - unfold Value.is_string, Value.to_c_str. now intros ->.
  - unfold Value.is_bytes, Value.to_buffer. now intros ->.
  - unfold Value.is_object, Value.subscript_const. now intros ->.
Qed.

Lemma mismatched_reads_give_defaults_witness :
  Value.to_int64 (Pson.assign_string pson_default [104; 105]) = Some 0 /\
  Value.to_c_str (Pson.assign_int pson_default 5) = [0] /\
  Value.subscript_const (Pson.assign_int pson_default 5) [97]
  = (Pson.assign_int pson_default 5, empty_value).
Proof.
  destruct (mismatched_reads_give_defaults
              (Pson.assign_string pson_default [104; 105]) []) as (H1 & _).
  destruct (mismatched_reads_give_defaults
              (Pson.assign_int pson_default 5) [97]) as (_ & H2 & _ & H4).
  split; [apply H1; reflexivity|].
  split; [apply H2; reflexivity|apply H4; reflexivity].
Defined.

(** ** Lookup by name in a value *)

Lemma streq_true (a b : list Z) : streq a b = true <-> c_chars a = c_chars b.
Proof.
  unfold streq. destruct (list_eq_dec Z.eq_dec (c_chars a) (c_chars b)).
  - now split.
  - split; [discriminate|contradiction].
Qed.

Lemma streq_false (a b : list Z) : streq a b = false <-> c_chars a <> c_chars b.
Proof.
  unfold streq. destruct (list_eq_dec Z.eq_dec (c_chars a) (c_chars b)).
  - split; [discriminate|contradiction].
  - now split.
Qed.

Lemma store_item_length {T : Type} (c : list T) :
  forall i x, length (store_item c i x) = length c.
Proof.
  induction c as [|y c IH]; intros [|i] x; cbn; try reflexivity.
  now rewrite IH.
Qed.

Lemma store_item_nth {T : Type} (dflt : T) (c : list T) :
  forall i j x,
    nth j (store_item c i x) dflt
    = if (j =? i)%nat && (i <? length c)%nat then x else nth j c dflt.
Proof.
  induction c as [|y c IH]; intros i j x.
  - cbn [store_item length]. destruct i; cbn [store_item].
    all: replace (_ <? 0)%nat with false by (symmetry; apply Nat.ltb_ge; lia).
    all: now rewrite andb_false_r.
  - destruct i as [|i], j as [|j]; cbn [store_item nth length]; try reflexivity.
    rewrite IH. reflexivity.
Qed.

(** Storing a value under the name a pair already has changes no
    search. *)
Lemma find_after_store (object : pson_object) (name : list Z) :
  forall i k value,
    Object.find
      (store_item object i
         (mk_pair (pair_name (nth i object Object.pair_default)) value))
      name k
    = Object.find object name k.
Proof.
  induction object as [|item object IH]; intros [|i] k value;
    cbn [store_item Object.find nth pair_name]; try reflexivity.
  destruct (streq (pair_name item) name); [reflexivity|]. apply IH.
Qed.

Lemma find_in_range (object : pson_object) (name : list Z) (k j : nat) :
  Object.find object name k = Some j ->
  (k <= j < k + length object)%nat /\
  streq (pair_name (nth (j - k) object Object.pair_default)) name = true.
Proof. apply find_present. Qed.

Lemma subscript_found (object object1 : pson_object) (name : list Z) (i : nat) :
  Object.subscript object name = (object1, i) ->
  Object.find object1 name 0 = Some i /\ (i < length object1)%nat /\
  (object1 = object \/
   (object1 = object ++ [mk_pair (strdup name) pson_default] /\
    i = length object /\ Object.find object name 0 = None)).
Proof.
  unfold Object.subscript.
  destruct (Object.find object name 0) as [j|] eqn:F.
  - intros [= <- <-]. destruct (find_present _ _ _ _ F) as [Hb _].
    split; [exact F|]. split; [lia|now left].
  - unfold create_item. rewrite nth_created, store_created, set_name_default.
    intros [= <- <-].
    pose proof (find_created object name pson_default 0 F) as F'.
    cbn [Nat.add] in F'.
    split; [exact F'|]. split; [rewrite length_app; cbn; lia|].
    right. now split.
Qed.

Lemma find_other_created (object : pson_object) (name other : list Z) (value : pson) :
  forall k,
    streq (strdup name) other = false ->
    Object.find (object ++ [mk_pair (strdup name) value]) other k
    = Object.find object other k.
Proof.
  intros k Hne. revert k.
  induction object as [|item object IH]; intros k; cbn [app Object.find pair_name].
  - now rewrite Hne.
  - destruct (streq (pair_name item) other); [reflexivity|apply IH].
Qed.

(** The value the mutable subscript of [pson_object] refers to: the
    value of the pair found, or the null value of the pair it links. *)
Lemma subscript_refers (object : pson_object) (name : list Z) :
  pair_value
    (nth (snd (Object.subscript object name)) (fst (Object.subscript object name))
       Object.pair_default)
  = Object.subscript_const object name.
Proof.
  unfold Object.subscript, Object.subscript_const.
  destruct (Object.find object name 0) as [j|]; [reflexivity|].
  unfold create_item. rewrite nth_created, store_created, set_name_default.
  cbn [fst snd]. rewrite app_nth2 by lia. now rewrite Nat.sub_diag.
Qed.

Lemma subscript_const_refers (p : pson) (name : list Z) :
  snd (Value.subscript_const p name)
  = if negb (field_type_ p =? object_field) then empty_value
    else Object.subscript_const (object_at (value_ p)) name.
Proof.
  unfold Value.subscript_const.
  destruct (negb (field_type_ p =? object_field)); [reflexivity|].
  rewrite <- subscript_refers.
  destruct (Object.subscript (object_at (value_ p)) name) as [object i].
  reflexivity.
Qed.

(** X9.  Insert, then look up.  Take any value and any name; the
    mutable lookup turns the value into an object if it is none and
    returns a reference to the named pair's value, and an assignment is
    made through that reference.  Afterwards the const lookup of the name
    returns what was assigned and leaves the object as it is, and the
    const lookup of every name that differs under [strcmp] returns what
    it returned on the value before anything was done to it.  The const
    lookup is not a pure read: a name the object does not hold is linked
    as a new last pair with a null value, and only a name it holds leaves
    the object unchanged. *)
Theorem insert_then_lookup :
  forall (p : pson) (name other : list Z) (assign : pson -> pson),
    let r := Value.subscript p name in
    let p2 := Value.assign_at (fst r) (snd r) assign in
    Value.is_object p2 = true /\
    Value.subscript_const p2 name
    = (p2, assign (snd (Value.subscript_const (fst r) name))) /\
    (c_chars other <> c_chars name ->
     snd (Value.subscript_const p2 other) = snd (Value.subscript_const p other)) /\
    (Object.find (object_at (value_ p2)) other 0 = None ->
     fst (Value.subscript_const p2 other)
     = mk_pson object_field
         (object_ptr
            (object_at (value_ p2) ++ [mk_pair (strdup other) pson_default]))) /\
    (Object.find (object_at (value_ p2)) other 0 <> None ->
     fst (Value.subscript_const p2 other) = p2).
Proof.
  intros p name other assign r p2. subst p2 r. unfold Value.subscript.
  destruct (Object.subscript (object_at (value_ (Value.as_object p))) name)
    as [object1 i] eqn:S.
  cbn [fst snd].
  destruct (subscript_found _ _ _ _ S) as (F & Hi & Hshape).
  assert (Hobj : field_type_ (Value.as_object p) = object_field).
  { unfold Value.as_object. destruct (field_type_ p =? object_field) eqn:E;
      [apply Z.eqb_eq in E; exact E|reflexivity]. }
  rewrite Hobj. cbv zeta.
  assert (Hsame : snd (Value.subscript_const p other)
                  = match Object.find (object_at (value_ (Value.as_object p))) other 0 with
                    | Some j => pair_value
                                  (nth j (object_at (value_ (Value.as_object p)))
                                     Object.pair_default)
                    | None => empty_value
                    end).
  { rewrite subscript_const_refers.
    unfold Value.as_object, Object.subscript_const.
    destruct (field_type_ p =? object_field); reflexivity. }
  rewrite Hsame, !subscript_const_refers.
  unfold Value.assign_at, Value.is_object.
  cbn [field_type_ value_ object_at Z.eqb Pos.eqb object_field negb].
  set (object2 := store_item object1 i
                    (mk_pair (pair_name (nth i object1 Object.pair_default))
                       (assign (pair_value (nth i object1 Object.pair_default))))).
  assert (F2 : forall n k, Object.find object2 n k = Object.find object1 n k)
    by (intros n k; apply find_after_store).
  split; [reflexivity|]. split; [|split; [|split]].
  - unfold Value.subscript_const.
    cbn [field_type_ value_ object_at Z.eqb Pos.eqb object_field negb].
    unfold Object.subscript, Object.subscript_const. rewrite F2, F.
    f_equal. unfold object2. rewrite store_item_nth, Nat.eqb_refl.
    replace (i <? length object1)%nat with true
      by (symmetry; apply Nat.ltb_lt; exact Hi).
    reflexivity.
  - intros Hne. unfold Object.subscript_const. rewrite F2.
    assert (Hfind : Object.find object1 other 0
                    = Object.find (object_at (value_ (Value.as_object p))) other 0).
    { destruct Hshape as [->|(-> & _ & _)]; [reflexivity|].
      apply find_other_created. apply streq_false.
      rewrite c_chars_strdup. congruence. }
    rewrite Hfind.
    destruct (Object.find (object_at (value_ (Value.as_object p))) other 0)
      as [j|] eqn:Fo; [|reflexivity].
    unfold object2. rewrite store_item_nth.
    destruct (find_present _ _ _ _ Fo) as [Hj Hs]. rewrite Nat.sub_0_r in Hs.
    destruct (Nat.eqb_spec j i) as [->|Hji].
    + exfalso. apply Hne.
      destruct (find_present _ _ _ _ F) as [_ Hs']. rewrite Nat.sub_0_r in Hs'.
      apply streq_true in Hs, Hs'.
      destruct Hshape as [->|(-> & _ & _)].
      * congruence.
      * rewrite app_nth1 in Hs' by lia. congruence.
    + cbn [andb]. f_equal.
      destruct Hshape as [->|(-> & _ & _)]; [reflexivity|].
      apply app_nth1. lia.
  - intros Fo. unfold Value.subscript_const.
    cbn [field_type_ value_ object_at Z.eqb Pos.eqb object_field negb].
    unfold Object.subscript. rewrite Fo.
    unfold create_item. rewrite nth_created, store_created, set_name_default.
    reflexivity.
  - intros Fo. unfold Value.subscript_const.
    cbn [field_type_ value_ object_at Z.eqb Pos.eqb object_field negb].
    unfold Object.subscript.
    destruct (Object.find object2 other 0) as [j|]; [reflexivity|contradiction].
Qed.

Lemma insert_then_lookup_witness :
  c_chars [98; 0] <> c_chars [97; 0] /\
  Value.subscript_const
    (Value.assign_at (fst (Value.subscript (Pson.assign_int pson_default 5) [97; 0]))
       (snd (Value.subscript (Pson.assign_int pson_default 5) [97; 0]))
       (fun q => Pson.assign_int q 7))
    [97; 0]
  = (mk_pson object_field
       (object_ptr [mk_pair [97; 0] (mk_pson varint_field (block [7]))]),
     mk_pson varint_field (block [7])) /\
  snd (Value.subscript_const
         (Value.assign_at
            (fst (Value.subscript (Pson.assign_int pson_default 5) [97; 0]))
            (snd (Value.subscript (Pson.assign_int pson_default 5) [97; 0]))
            (fun q => Pson.assign_int q 7))
         [98; 0])
  = empty_value /\
  fst (Value.subscript_const
         (Value.assign_at
            (fst (Value.subscript (Pson.assign_int pson_default 5) [97; 0]))
            (snd (Value.subscript (Pson.assign_int pson_default 5) [97; 0]))
            (fun q => Pson.assign_int q 7))
         [98; 0])
  = mk_pson object_field
      (object_ptr [mk_pair [97; 0] (mk_pson varint_field (block [7]));
                   mk_pair [98; 0] pson_default]).
Proof.
  split; [discriminate|].
  destruct (insert_then_lookup (Pson.assign_int pson_default 5) [97; 0] [98; 0]
              (fun q => Pson.assign_int q 7)) as (_ & H1 & H2 & H3 & _).
  split; [exact H1|]. split; [apply H2; discriminate|].
  apply H3. reflexivity.
Defined.

(** X10.  The coercions make or view.  On a value that is an object the
    coercion to an object changes nothing, and likewise for arrays; on any
    other value it replaces tag and payload by an empty container, so the
    mutable lookup of a name in a value that is no object leaves an object
    whose only pair carries that name and a null value: what the value
    held is gone.  The const lookup never changes the tag. *)
Theorem coercions_make_or_view :
  forall (p : pson) (name : list Z),
    (Value.is_object p = true -> Value.as_object p = p) /\
    (Value.is_array p = true -> Value.as_array p = p) /\
    (Value.is_object p = false ->
     Value.as_object p = mk_pson object_field (object_ptr []) /\
     Value.subscript p name
     = (mk_pson object_field (object_ptr [mk_pair (c_chars name ++ [0]) pson_default]),
        0%nat)) /\
    (Value.is_array p = false ->
     Value.as_array p = mk_pson array_field (array_ptr [])) /\
    Value.as_object (Value.as_object p) = Value.as_object p /\
    Value.as_array (Value.as_array p) = Value.as_array p.
Proof.
  intros p name.
  unfold Value.is_object, Value.is_array, Value.subscript, Value.as_object,
    Value.as_array.
  split; [now intros ->|]. split; [now intros ->|].
  split.
  { intros ->. cbn [negb]. split; [reflexivity|].
    cbn [value_ object_at field_type_ Object.subscript Object.find create_item app
           length nth store_item].
    now rewrite set_name_default. }
  split; [now intros ->|].
  split.
  - destruct (field_type_ p =? object_field) eqn:E; cbn [negb field_type_];
      [now rewrite E|reflexivity].
  - destruct (field_type_ p =? array_field) eqn:E; cbn [negb field_type_];
      [now rewrite E|reflexivity].
Qed.

Lemma coercions_make_or_view_witness :
  Value.subscript (Pson.assign_string pson_default [104; 105]) [97; 0]
  = (mk_pson object_field (object_ptr [mk_pair [97; 0] pson_default]), 0%nat).
Proof.
  destruct (coercions_make_or_view (Pson.assign_string pson_default [104; 105]) [97; 0])
    as (_ & _ & H & _).
  destruct (H eq_refl) as [_ E]. exact E.
Defined.

(** ** Arrays *)

(** X11.  [add] links one item after the existing ones and assigns to
    it; the items that were there are untouched, and the encoded body of
    the array grows by exactly the encoding of the new item. *)
Theorem array_add_appends :
  forall (assign : pson -> pson) (array : pson_array),
    Array.add assign array = array ++ [assign pson_default] /\
    array_wire (Array.add assign array)
    = array_wire array ++ encoded (assign pson_default) /\
    encode_array write_sink (Array.add assign array) fresh
    = encode write_sink (assign pson_default) (encode_array write_sink array fresh).
Proof.
  intros assign array.
  assert (E : Array.add assign array = array ++ [assign pson_default]).
  { unfold Array.add, create_item. now rewrite nth_created, store_created. }
  rewrite E. split; [reflexivity|]. split.
  - unfold array_wire. rewrite flat_map_app. cbn. now rewrite app_nil_r.
  - unfold encode_array. now rewrite fold_left_app.
Qed.

(** ** The ring allocator *)

Lemma size_t_small (z : Z) : 0 <= z < 2 ^ 64 -> size_t z = z.
Proof. intros Hz. apply Z.mod_small. exact Hz. Qed.

Lemma allocate_fits (buffer_size : Z) (a : Allocator.circular_memory_allocator)
  (size : Z) :
  buffer_size < 2 ^ 64 -> 0 <= Allocator.index_ a -> 0 <= size ->
  Allocator.index_ a + size <= buffer_size ->
  Allocator.allocate buffer_size a size
  = (Allocator.index_ a, Allocator.mk_allocator (Allocator.index_ a + size)).
Proof.
  intros Hb Hi Hs Hfit. unfold Allocator.allocate.
  rewrite size_t_small by lia.
  replace (Allocator.index_ a + size >? buffer_size) with false
    by (symmetry; rewrite Z.gtb_ltb; apply Z.ltb_ge; lia).
  now rewrite size_t_small by lia.
Qed.

Lemma allocate_wraps (buffer_size : Z) (a : Allocator.circular_memory_allocator)
  (size : Z) :
  0 <= Allocator.index_ a -> 0 <= size -> Allocator.index_ a + size < 2 ^ 64 ->
  buffer_size < Allocator.index_ a + size ->
  Allocator.allocate buffer_size a size = (0, Allocator.mk_allocator size).
Proof.
  intros Hi Hs Hb Hover. unfold Allocator.allocate.
  rewrite size_t_small by lia.
  replace (Allocator.index_ a + size >? buffer_size) with true
    by (symmetry; rewrite Z.gtb_ltb; apply Z.ltb_lt; lia).
  cbn [Z.add]. now rewrite size_t_small by lia.
Qed.

(** X12.  In a buffer of fewer than 2^63 bytes, every request that is
    no larger than the buffer is given a block that lies within the
    buffer, from any allocator state a run of such requests can reach;
    the block starts where the last one ended or, when it would not fit
    there, at offset 0.  [index_] never passes the end of the buffer, and
    [deallocate] changes nothing. *)
Theorem ring_block_within_buffer :
  forall (buffer_size : Z) (a : Allocator.circular_memory_allocator) (size : Z),
    buffer_size < 2 ^ 63 ->
    0 <= Allocator.index_ a <= buffer_size ->
    0 <= size <= buffer_size ->
    let position := fst (Allocator.allocate buffer_size a size) in
    let a' := snd (Allocator.allocate buffer_size a size) in
    within buffer_size (position, size) /\
    (position = Allocator.index_ a \/ position = 0) /\
    Allocator.index_ a' = position + size /\
    0 <= Allocator.index_ a' <= buffer_size /\
    Allocator.deallocate a' position = a'.
Proof.
  intros buffer_size a size Hb Hi Hs. cbv zeta. unfold within.
  change (2 ^ 63) with 9223372036854775808 in Hb.
  assert (Hb' : 2 ^ 64 = 18446744073709551616) by reflexivity.
  destruct (Z_le_gt_dec (Allocator.index_ a + size) buffer_size) as [Hfit|Hover].
  - rewrite allocate_fits by lia. cbn [fst snd Allocator.index_].
    repeat split; try lia; reflexivity.
  - rewrite allocate_wraps by lia. cbn [fst snd Allocator.index_].
    repeat split; try lia; reflexivity.
Qed.

Lemma ring_block_within_buffer_witness :
  16 < 2 ^ 63 /\
  within 16 (fst (Allocator.allocate 16 (Allocator.mk_allocator 12) 8), 8).
Proof.
  split; [reflexivity|].
  destruct (ring_block_within_buffer 16 (Allocator.mk_allocator 12) 8
              eq_refl ltac:(cbn; lia) ltac:(lia)) as [H _].
  exact H.
Defined.

(** X13.  While the requests fit in what is left of the buffer, the
    blocks are handed out back to back from [index_]: each starts where
    the one before ends, so no two of them overlap, all lie within the
    buffer, and [index_] has advanced by their total size. *)
Theorem ring_blocks_back_to_back :
  forall (buffer_size : Z) (sizes : list Z) (a : Allocator.circular_memory_allocator),
    buffer_size < 2 ^ 64 ->
    0 <= Allocator.index_ a ->
    Forall (fun size => 0 <= size) sizes ->
    Allocator.index_ a + total sizes <= buffer_size ->
    allocate_all buffer_size a sizes
    = (laid_out (Allocator.index_ a) sizes,
       Allocator.mk_allocator (Allocator.index_ a + total sizes)) /\
    Forall (within buffer_size) (laid_out (Allocator.index_ a) sizes).
Proof.
  intros buffer_size sizes. induction sizes as [|size rest IH];
    intros a Hb Hi Hpos Hfit.
  - cbn. rewrite Z.add_0_r. destruct a. split; [reflexivity|constructor].
  - inversion Hpos as [|? ? Hsize Hrest]; subst.
    cbn [total fold_right] in Hfit. fold (total rest) in Hfit.
    assert (Htot : 0 <= total rest).
    { clear - Hrest. induction Hrest; cbn; [lia|]. fold (total l). lia. }
    cbn [allocate_all laid_out].
    rewrite allocate_fits by lia.
    destruct (IH (Allocator.mk_allocator (Allocator.index_ a + size)) Hb)
      as [E W]; cbn [Allocator.index_]; try lia; try assumption.
    rewrite E. cbn [Allocator.index_ total fold_right]. fold (total rest).
    split.
    + f_equal. f_equal. lia.
    + constructor; [unfold within; cbn [fst snd]; lia|exact W].
Qed.

Lemma ring_blocks_back_to_back_witness :
  16 < 2 ^ 64 /\
  fst (allocate_all 16 Allocator.fresh [4; 1; 8]) = [(0, 4); (4, 1); (5, 8)].
Proof.
  split; [reflexivity|].
  destruct (ring_blocks_back_to_back 16 [4; 1; 8] Allocator.fresh eq_refl
              ltac:(cbn; lia)
              ltac:(repeat constructor; lia) ltac:(cbn; lia)) as [E _].
  now rewrite E.
Defined.

(** X14.  A request that does not fit in what is left of the buffer is
    never refused: it is given the block at offset 0, whatever was
    allocated there and is still in use; and a request larger than the
    whole buffer is given a block at offset 0 that runs past the end of
    the buffer. *)
Theorem ring_reuses_start_of_buffer :
  forall (buffer_size : Z) (a : Allocator.circular_memory_allocator) (size : Z),
    0 <= Allocator.index_ a -> 0 <= size ->
    Allocator.index_ a + size < 2 ^ 64 ->
    buffer_size < Allocator.index_ a + size ->
    Allocator.allocate buffer_size a size = (0, Allocator.mk_allocator size) /\
    (buffer_size < size -> ~ within buffer_size (0, size)).
Proof.
  intros buffer_size a size Hi Hs Hb Hover.
  split; [now apply allocate_wraps|].
  unfold within. cbn [fst snd]. lia.
Qed.

Lemma ring_reuses_start_of_buffer_witness :
  Allocator.allocate 16 (Allocator.mk_allocator 4) 20
  = (0, Allocator.mk_allocator 20) /\
  ~ within 16 (0, 20).
Proof.
  destruct (ring_reuses_start_of_buffer 16 (Allocator.mk_allocator 4) 20
              ltac:(cbn; lia) ltac:(lia) ltac:(cbn; lia) ltac:(cbn; lia))
    as [E W].
  split; [exact E|apply W; lia].
Defined.

(** ** Traversal of a container *)

Lemma while_valid_fold {T S : Type} (dflt : T) (body : T -> S -> S) (c : list T) :
  forall fuel s,
    (length c <= fuel)%nat ->
    Container.while_valid fuel dflt body (Container.begin c) s
    = Some (fold_left (fun s x => body x s) c s).
Proof.
  unfold Container.begin.
  induction c as [|x c IH]; intros fuel s Hf.
  - destruct fuel; reflexivity.
  - destruct fuel as [|fuel]; [cbn in Hf; lia|].
    cbn [Container.while_valid Container.valid Container.item hd Container.next
           fold_left].
    apply IH. cbn in Hf. lia.
Qed.

(** X15.  A traversal from [begin()] with [valid()], [item()] and
    [next()] ends after as many steps as the container has items and has
    visited every item once, in link order; an item made by
    [create_item] is visited last.  The loops of [encode(pson_object&)]
    and [encode(pson_array&)] are such traversals: they write the pairs,
    or the items, one after the other in that order. *)
Theorem traversal_in_link_order :
  forall (w : writer) (object : pson_object) (array : pson_array)
         (e : pson_encoder) (fuel : nat),
    (length object <= fuel)%nat -> (length array <= fuel)%nat ->
    Container.while_valid fuel Object.pair_default (encode_pair w)
      (Container.begin object) e
    = Some (encode_object w object e) /\
    Container.while_valid fuel pson_default (encode w) (Container.begin array) e
    = Some (encode_array w array e) /\
    Container.while_valid (S fuel) pson_default (fun x visited => visited ++ [x])
      (Container.begin (fst (create_item pson_default array))) []
    = Some (array ++ [pson_default]).
Proof.
  intros w object array e fuel Ho Ha.
  split; [now apply while_valid_fold|].
  split; [now apply while_valid_fold|].
  unfold create_item. cbn [fst].
  rewrite while_valid_fold by (rewrite length_app; cbn; lia).
  f_equal. generalize (array ++ [pson_default]). intros l.
  assert (H : forall acc, fold_left (fun s x => s ++ [x]) l acc = acc ++ l).
  { induction l as [|x l IH]; intros acc; cbn [fold_left].
    - now rewrite app_nil_r.
    - rewrite IH, <- app_assoc. reflexivity. }
  apply (H []).
Qed.

Lemma traversal_in_link_order_witness :
  (length sample_tree_pairs <= 3)%nat /\
  Container.while_valid 3 Object.pair_default (encode_pair write_sink)
    (Container.begin sample_tree_pairs) fresh
  = Some (encode_object write_sink sample_tree_pairs fresh).
Proof.
  split; [cbn; lia|].
  destruct (traversal_in_link_order write_sink sample_tree_pairs [] fresh 3
              ltac:(cbn; lia) ltac:(cbn; lia)) as [H _].
  exact H.
Defined.

(** ** What the decoder takes from its source *)

Lemma took_refl (d : pson_decoder) : took d d.
Proof. exists []. split; [reflexivity|]. unfold len. cbn. lia. Qed.

Lemma took_trans (d1 d2 d3 : pson_decoder) : took d1 d2 -> took d2 d3 -> took d1 d3.
Proof.
  intros (t1 & S1 & R1) (t2 & S2 & R2). exists (t1 ++ t2). split.
  - rewrite S1, S2. apply app_assoc.
  - rewrite R2, R1, len_app. lia.
Qed.

Lemma read_took (d d' : pson_decoder) (size : Z) (r : option (list Z)) :
  0 <= size -> read d size = (r, d') -> took d d'.
Proof.
  intros Hs. unfold read. destruct (size <=? len (source_ d)) eqn:E.
  - apply Z.leb_le in E. intros [= <- <-].
    exists (firstn (Z.to_nat size) (source_ d)). cbn [source_ read_]. split.
    + symmetry. apply firstn_skipn.
    + unfold len in *. rewrite length_firstn, Nat.min_l by lia. lia.
  - intros [= <- <-]. apply took_refl.
Qed.

Lemma varint32_loop_took (fuel : nat) :
  forall varint bit_pos d,
    0 <= varint ->
    took d (snd (pb_decode_varint32_loop fuel varint bit_pos d)) /\
    0 <= fst (pb_decode_varint32_loop fuel varint bit_pos d).
Proof.
  induction fuel as [|fuel IH]; intros varint bit_pos d Hv.
  - cbn. split; [apply took_refl|exact Hv].
  - cbn [pb_decode_varint32_loop].
    destruct (read d 1) as [r d1] eqn:R.
    pose proof (read_took d d1 1 r ltac:(lia) R) as T.
    destruct r as [[|byte [|]]|]; cbn [fst snd]; try (split; assumption).
    destruct (bit_pos >=? 32); cbn [fst snd]; [split; assumption|].
    assert (Hv' : 0 <= Z.lor varint (uint32_t (Z.shiftl (Z.land byte 0x7F) bit_pos))).
    { apply Z.lor_nonneg. split; [exact Hv|].
      apply Z.mod_pos_bound. reflexivity. }
    destruct (byte >? 0x80); cbn [fst snd]; [|split; assumption].
    destruct (IH (Z.lor varint (uint32_t (Z.shiftl (Z.land byte 0x7F) bit_pos)))
                (uint8_t (bit_pos + 7)) d1 Hv') as [T' P'].
    split; [exact (took_trans _ _ _ T T')|exact P'].
Qed.

Lemma varint32_took (d : pson_decoder) :
  took d (snd (pb_decode_varint32 d)) /\ 0 <= fst (pb_decode_varint32 d).
Proof. apply varint32_loop_took. lia. Qed.

Lemma skip_loop_took (n : nat) :
  forall success d, took d (snd (pb_skip_loop n success d)).
Proof.
  induction n as [|n IH]; intros success d; [apply took_refl|].
  cbn [pb_skip_loop]. destruct (read d 1) as [r d1] eqn:R.
  apply took_trans with d1; [apply (read_took d d1 1 r); [lia|exact R]|apply IH].
Qed.

Lemma read_string_took (str : list Z) (size : Z) (d : pson_decoder) :
  0 <= size -> took d (snd (pb_read_string str size d)).
Proof.
  intros Hs. unfold pb_read_string. destruct (read d size) as [r d1] eqn:R.
  cbn [snd]. apply (read_took d d1 size r Hs R).
Qed.

Lemma read_varint_loop_took (fuel : nat) :
  forall temp d, took d (snd (pb_read_varint_loop fuel temp d)).
Proof.
  induction fuel as [|fuel IH]; intros temp d; [apply took_refl|].
  cbn [pb_read_varint_loop]. destruct (read d 1) as [r d1] eqn:R.
  pose proof (read_took d d1 1 r ltac:(lia) R) as T.
  destruct r as [[|byte [|]]|]; cbn [snd]; try exact T.
  destruct (byte >=? 0x80); cbn [snd]; [|exact T].
  exact (took_trans _ _ _ T (IH _ _)).
Qed.

Lemma read_varint_took (value : pson) (d : pson_decoder) :
  took d (snd (pb_read_varint value d)).
Proof.
  unfold pb_read_varint.
  pose proof (read_varint_loop_took (S (length (source_ d))) [] d) as T.
  destruct (pb_read_varint_loop (S (length (source_ d))) [] d) as [[temp|] d1];
    exact T.
Qed.

Section Took.
Context {T : Type}.
Variable dflt : T.
Variable decode_item : T -> pson_decoder -> option (T * pson_decoder).
Hypothesis item_took :
  forall x d x' d', decode_item x d = Some (x', d') -> took d d'.

Lemma decode_items_took (fuel : nat) :
  forall c size start_read d c' d',
    decode_items dflt decode_item fuel c size start_read d = Some (c', d') ->
    took d d'.
Proof.
  induction fuel as [|fuel IH]; intros c size start_read d c' d';
    cbn [decode_items].
  - destruct (size_t (size - (bytes_read d - start_read)) >? 0); [discriminate|].
    intros [= <- <-]. apply took_refl.
  - destruct (size_t (size - (bytes_read d - start_read)) >? 0);
      [|intros [= <- <-]; apply took_refl].
    unfold create_item.
    destruct (decode_item (nth (length c) (c ++ [dflt]) dflt) d)
      as [[x d1]|] eqn:D; [|discriminate].
    intros H. apply took_trans with d1; [exact (item_took _ _ _ _ D)|].
    exact (IH _ _ _ _ _ _ H).
Qed.
End Took.

Lemma decode_took (fuel : nat) :
  forall value d value' d',
    decode fuel value d = Some (value', d') -> took d d'.
Proof.
  induction fuel as [|fuel IH]; intros value d value' d'; [discriminate|].
  cbn [decode]. unfold pb_decode_tag.
  destruct (varint32_took d) as [T1 _].
  destruct (pb_decode_varint32 d) as [temp d1]. cbn [snd] in T1.
  destruct (Z.land temp 7 =? length_delimited).
  - destruct (varint32_took d1) as [T2 P2].
    destruct (pb_decode_varint32 d1) as [size d2]. cbn [fst snd] in T2, P2.
    pose proof (took_trans _ _ _ T1 T2) as T12.
    destruct (Z.shiftr temp 3 =? string_field).
    { pose proof (read_string_took (allocate (uint32_t (size + 1))) size d2 P2) as T3.
      destruct (pb_read_string (allocate (uint32_t (size + 1))) size d2) as [[ok str] d3].
      intros [= <- <-]. exact (took_trans _ _ _ T12 T3). }
    destruct (Z.shiftr temp 3 =? bytes_field).
    { destruct (read d2 size) as [r d3] eqn:R.
      intros [= <- <-].
      exact (took_trans _ _ _ T12 (read_took d2 d3 size r P2 R)). }
    destruct (Z.shiftr temp 3 =? object_field).
    { destruct (decode_items Object.pair_default (decode_pair_with (decode fuel))
                  fuel [] size (bytes_read d2) d2) as [[object d3]|] eqn:D;
        [|discriminate].
      intros [= <- <-]. apply took_trans with d2; [exact T12|].
      refine (decode_items_took Object.pair_default _ _ fuel _ _ _ _ _ _ D).
      intros x dx x' dx'. unfold decode_pair_with.
      destruct (varint32_took dx) as [Ta Pa].
      destruct (pb_decode_varint32 dx) as [name_size da]. cbn [fst snd] in Ta, Pa.
      pose proof (read_string_took (allocate (uint32_t (name_size + 1)))
                    name_size da Pa) as Tb.
      destruct (pb_read_string (allocate (uint32_t (name_size + 1))) name_size da)
        as [[ok name] db]. cbn [snd] in Tb.
      destruct (decode fuel (pair_value x) db) as [[v dc]|] eqn:Dv; [|discriminate].
      intros [= <- <-].
      exact (took_trans _ _ _ (took_trans _ _ _ Ta Tb) (IH _ _ _ _ Dv)). }
    destruct (Z.shiftr temp 3 =? array_field).
    { destruct (decode_items pson_default (decode fuel) fuel [] size
                  (bytes_read d2) d2) as [[array d3]|] eqn:D; [|discriminate].
      intros [= <- <-]. apply took_trans with d2; [exact T12|].
      exact (decode_items_took pson_default _ IH fuel _ _ _ _ _ _ D). }
    pose proof (skip_loop_took (Z.to_nat size) true d2) as T3.
    unfold pb_skip. destruct (pb_skip_loop (Z.to_nat size) true d2) as [ok d3].
    intros [= <- <-]. exact (took_trans _ _ _ T12 T3).
  - destruct ((Z.shiftr temp 3 =? svarint_field) || (Z.shiftr temp 3 =? varint_field)).
    { pose proof (read_varint_took (set_type value (Z.shiftr temp 3)) d1) as T2.
      destruct (pb_read_varint (set_type value (Z.shiftr temp 3)) d1) as [[ok v] d2].
      intros [= <- <-]. exact (took_trans _ _ _ T1 T2). }
    destruct (Z.shiftr temp 3 =? float_field).
    { destruct (read d1 4) as [r d2] eqn:R. intros [= <- <-].
      exact (took_trans _ _ _ T1 (read_took d1 d2 4 r ltac:(lia) R)). }
    destruct (Z.shiftr temp 3 =? double_field).
    { destruct (read d1 8) as [r d2] eqn:R. intros [= <- <-].
      exact (took_trans _ _ _ T1 (read_took d1 d2 8 r ltac:(lia) R)). }
    intros [= <- <-]. exact T1.
Qed.

(** X16.  Whatever bytes the source holds, a call of [decode] that
    returns has only taken bytes from the head of the source, in order and
    none twice, and has counted exactly those: what the source held is
    what was taken followed by what is left, and [bytes_read] has grown by
    the number of bytes taken.  The same holds for the decoding of an
    object's or an array's body. *)
Theorem decoder_counts_what_it_takes :
  forall (fuel : nat) (value value' : pson) (d d' : pson_decoder),
    decode fuel value d = Some (value', d') ->
    exists taken,
      source_ d = taken ++ source_ d' /\
      bytes_read d' = bytes_read d + len taken /\
      len taken <= len (source_ d).
Proof.
  intros fuel value value' d d' H.
  destruct (decode_took fuel value d value' d' H) as (taken & S & R).
  exists taken. split; [exact S|]. split; [exact R|].
  rewrite S, len_app. pose proof (len_nonneg (source_ d')). lia.
Qed.

Lemma decoder_counts_what_it_takes_witness :
  exists taken,
    [74; 2; 104; 105; 56] = taken ++ [56] /\ 4 = 0 + len taken.
Proof.
  destruct (decoder_counts_what_it_takes 1 pson_default
              (mk_pson string_field (block [104; 105; 0]))
              (start [74; 2; 104; 105; 56]) (mk_decoder 4 [56]) eq_refl)
    as (taken & S & R & _).
  exists taken. split; [exact S|exact R].
Defined.

(** ** The 32-bit varint reader on what the encoder writes *)

Lemma encode_varint_step (k : nat) (v : Z) :
  0 <= v ->
  Pson.pb_encode_varint_loop (S k) v
  = if v <? 128 then [v]
    else (v mod 128 + 128) :: Pson.pb_encode_varint_loop k (v / 128).
Proof.
  intros Hv. cbn [Pson.pb_encode_varint_loop].
  rewrite shiftr_7, group_rest_zero, uint8_group by exact Hv.
  destruct (v <? 128) eqn:E.
  - apply Z.ltb_lt in E. now rewrite Z.mod_small by lia.
  - f_equal. change 0x80 with (1 * 2 ^ 7). rewrite lor_disjoint; [lia|lia|].
    pose proof (Z.mod_pos_bound v 128 ltac:(lia)). simpl; lia.
Qed.

Lemma decode_varint32_step (fuel : nat) (acc j r b : Z) (rest : list Z) :
  0 <= j -> 7 * j < 32 ->
  pb_decode_varint32_loop (S fuel) acc (7 * j) (mk_decoder r (b :: rest))
  = if b >? 0x80
    then pb_decode_varint32_loop fuel
           (Z.lor acc (uint32_t (Z.shiftl (Z.land b 0x7F) (7 * j))))
           (7 * (j + 1)) (mk_decoder (r + 1) rest)
    else (Z.lor acc (uint32_t (Z.shiftl (Z.land b 0x7F) (7 * j))),
          mk_decoder (r + 1) rest).
Proof.
  intros Hj Hb. cbn [pb_decode_varint32_loop].
  pose proof (read_one (mk_decoder r (b :: rest))) as R. cbn [source_] in R.
  rewrite R. unfold advanced. cbn [read_ source_ skipn Z.of_nat Pos.of_succ_nat].
  replace (7 * j >=? 32) with false
    by (symmetry; rewrite Z.geb_leb; apply Z.leb_gt; lia).
  replace (uint8_t (7 * j + 7)) with (7 * (j + 1))
    by (unfold uint8_t; change (2 ^ 8) with 256;
        rewrite Z.mod_small by lia; lia).
  reflexivity.
Qed.

Lemma group_into_accumulator (acc v j : Z) :
  0 <= v -> 0 <= j -> 0 <= acc < 2 ^ (7 * j) -> v * 2 ^ (7 * j) < 2 ^ 32 ->
  Z.lor acc (uint32_t (Z.shiftl (v mod 128) (7 * j)))
  = acc + v mod 128 * 2 ^ (7 * j) /\
  0 <= acc + v mod 128 * 2 ^ (7 * j) < 2 ^ (7 * (j + 1)).
Proof.
  intros Hv Hj Hacc Hfit.
  assert (HP : 0 < 2 ^ (7 * j)) by (apply Z.pow_pos_nonneg; lia).
  pose proof (Z.mod_pos_bound v 128 ltac:(lia)) as Hg.
  assert (Hle : v mod 128 * 2 ^ (7 * j) <= v * 2 ^ (7 * j)).
  { apply Z.mul_le_mono_nonneg_r; [lia|]. apply Z.mod_le; lia. }
  assert (H0 : 0 <= v mod 128 * 2 ^ (7 * j)) by (apply Z.mul_nonneg_nonneg; lia).
  assert (H1 : v mod 128 * 2 ^ (7 * j) <= 127 * 2 ^ (7 * j))
    by (apply Z.mul_le_mono_nonneg_r; lia).
  split.
  - rewrite Z.shiftl_mul_pow2 by lia. unfold uint32_t.
    rewrite Z.mod_small by lia. apply lor_disjoint; lia.
  - replace (7 * (j + 1)) with (7 * j + 7) by lia.
    rewrite Z.pow_add_r by lia. change (2 ^ 7) with 128. lia.
Qed.

Lemma next_group_fits (v j : Z) :
  128 <= v -> 0 <= j -> v * 2 ^ (7 * j) < 2 ^ 32 ->
  7 * (j + 1) < 32 /\ v / 128 * 2 ^ (7 * (j + 1)) < 2 ^ 32.
Proof.
  intros Hv Hj Hfit.
  assert (HP : 0 < 2 ^ (7 * j)) by (apply Z.pow_pos_nonneg; lia).
  assert (E : 2 ^ (7 * (j + 1)) = 128 * 2 ^ (7 * j)).
  { replace (7 * (j + 1)) with (7 + 7 * j) by lia.
    now rewrite Z.pow_add_r by lia. }
  pose proof (Z.mul_div_le v 128 ltac:(lia)) as Hd.
  assert (0 <= v / 128) by (apply Z.div_pos; lia).
  assert (Hle : 128 * (v / 128) * 2 ^ (7 * j) <= v * 2 ^ (7 * j))
    by (apply Z.mul_le_mono_nonneg_r; lia).
  split.
  - apply (Z.pow_lt_mono_r_iff 2); [lia|lia|].
    rewrite E.
    assert (128 * 2 ^ (7 * j) <= v * 2 ^ (7 * j))
      by (apply Z.mul_le_mono_nonneg_r; lia).
    lia.
  - rewrite E. lia.
Qed.

Lemma group_of_continuation (v : Z) : Z.land (v mod 128 + 128) 0x7F = v mod 128.
Proof.
  rewrite land_127.
  replace (v mod 128 + 128) with (v mod 128 + 1 * 128) by lia.
  rewrite Z.mod_add by lia. apply Z.mod_mod. lia.
Qed.

(** Without a byte [0x80] in the encoding, the reader returns the value
    and stands behind the encoding. *)
Lemma varint32_loop_reads (k : nat) :
  forall v acc j r rest extra,
    0 <= v < 2 ^ (7 * Z.of_nat (S k)) ->
    0 <= j -> 7 * j < 32 -> 0 <= acc < 2 ^ (7 * j) ->
    v * 2 ^ (7 * j) < 2 ^ 32 ->
    ~ In 0x80 (Pson.pb_encode_varint_loop (S k) v) ->
    pb_decode_varint32_loop (S k + extra) acc (7 * j)
      (mk_decoder r (Pson.pb_encode_varint_loop (S k) v ++ rest))
    = (acc + v * 2 ^ (7 * j),
       mk_decoder (r + len (Pson.pb_encode_varint_loop (S k) v)) rest).
Proof.
  induction k as [|k IH]; intros v acc j r rest extra Hv Hj Hb Hacc Hfit Hno;
    rewrite encode_varint_step in * by lia.
  - replace (v <? 128) with true
      by (symmetry; apply Z.ltb_lt; simpl in Hv; lia).
    change (1 + extra)%nat with (S extra). cbn [app].
    rewrite decode_varint32_step by assumption.
    replace (v >? 0x80) with false
      by (symmetry; rewrite Z.gtb_ltb; apply Z.ltb_ge; simpl in Hv; lia).
    rewrite land_127.
    destruct (group_into_accumulator acc v j) as [E _]; try assumption; [lia|].
    rewrite E, Z.mod_small by (simpl in Hv; lia). reflexivity.
  - change (S (S k) + extra)%nat with (S (S k + extra)).
    destruct (v <? 128) eqn:E.
    + apply Z.ltb_lt in E. cbn [app].
      rewrite decode_varint32_step by assumption.
      replace (v >? 0x80) with false
        by (symmetry; rewrite Z.gtb_ltb; apply Z.ltb_ge; lia).
      rewrite land_127.
      destruct (group_into_accumulator acc v j) as [Ea _]; try assumption; [lia|].
      rewrite Ea, Z.mod_small by lia. reflexivity.
    + apply Z.ltb_ge in E. cbn [app].
      rewrite decode_varint32_step by assumption.
      pose proof (Z.mod_pos_bound v 128 ltac:(lia)) as Hg.
      assert (Hnz : v mod 128 <> 0).
      { intros Z0. apply Hno. left. rewrite Z0. reflexivity. }
      replace (v mod 128 + 128 >? 0x80) with true
        by (symmetry; rewrite Z.gtb_ltb; apply Z.ltb_lt; lia).
      rewrite group_of_continuation.
      destruct (group_into_accumulator acc v j) as [Ea Ba]; try assumption; [lia|].
      destruct (next_group_fits v j) as [Hb' Hfit']; try assumption.
      rewrite Ea.
      rewrite (IH (v / 128) _ (j + 1) (r + 1) rest extra);
        [ | apply group_rest_bound; exact Hv | lia | exact Hb' | exact Ba
          | exact Hfit' | intros Hin; apply Hno; right; exact Hin ].
      f_equal.
      * replace (7 * (j + 1)) with (7 + 7 * j) by lia.
        rewrite Z.pow_add_r by lia. change (2 ^ 7) with 128.
        apply group_split.
      * f_equal. unfold len. cbn [length]. lia.
Qed.

(** At the first byte [0x80] of the encoding the reader returns, with
    the groups before it. *)
Lemma varint32_loop_cut (k : nat) :
  forall v acc j r rest extra pre post,
    0 <= v < 2 ^ (7 * Z.of_nat (S k)) ->
    0 <= j -> 7 * j < 32 -> 0 <= acc < 2 ^ (7 * j) ->
    v * 2 ^ (7 * j) < 2 ^ 32 ->
    Pson.pb_encode_varint_loop (S k) v = pre ++ 0x80 :: post ->
    ~ In 0x80 pre ->
    pb_decode_varint32_loop (S k + extra) acc (7 * j)
      (mk_decoder r (Pson.pb_encode_varint_loop (S k) v ++ rest))
    = (acc + v mod 2 ^ (7 * len pre) * 2 ^ (7 * j),
       mk_decoder (r + len pre + 1) (post ++ rest)).
Proof.
  induction k as [|k IH];
    intros v acc j r rest extra pre post Hv Hj Hb Hacc Hfit Henc Hno;
    rewrite encode_varint_step in * by lia.
  - exfalso.
    replace (v <? 128) with true in Henc
      by (symmetry; apply Z.ltb_lt; simpl in Hv; lia).
    destruct pre as [|b [|c pre]]; cbn in Henc; try discriminate.
    injection Henc as Henc. simpl in Hv. lia.
  - change (S (S k) + extra)%nat with (S (S k + extra)).
    destruct (v <? 128) eqn:E.
    + exfalso. apply Z.ltb_lt in E.
      destruct pre as [|b [|c pre]]; cbn in Henc; try discriminate.
      injection Henc as Henc. lia.
    + apply Z.ltb_ge in E. cbn [app].
      rewrite decode_varint32_step by assumption.
      pose proof (Z.mod_pos_bound v 128 ltac:(lia)) as Hg.
      rewrite group_of_continuation.
      destruct (group_into_accumulator acc v j) as [Ea Ba]; try assumption; [lia|].
      destruct (next_group_fits v j) as [Hb' Hfit']; try assumption.
      rewrite Ea.
      destruct pre as [|b pre]; cbn [app] in Henc;
        pose proof (f_equal (hd 0) Henc) as Hhead;
        pose proof (f_equal (@tl Z) Henc) as Htail;
        cbn [hd tl] in Hhead, Htail.
      * assert (Z0 : v mod 128 = 0) by lia.
        rewrite Z0. rewrite Htail. cbn [app].
        change (0 + 128 >? 0x80) with false. cbv iota.
        unfold len. cbn [length Z.of_nat]. rewrite Z.mul_0_r.
        change (2 ^ 0) with 1. rewrite Z.mod_1_r.
        f_equal; try lia. f_equal; lia.
      * assert (Hnz : v mod 128 <> 0).
        { intros Z0. apply Hno. left. lia. }
        replace (v mod 128 + 128 >? 0x80) with true
          by (symmetry; rewrite Z.gtb_ltb; apply Z.ltb_lt; lia).
        rewrite (IH (v / 128) _ (j + 1) (r + 1) rest extra pre post);
          [ | apply group_rest_bound; exact Hv | lia | exact Hb' | exact Ba
            | exact Hfit' | exact Htail | intros Hin; apply Hno; right; exact Hin ].
        assert (Hl : len (b :: pre) = len pre + 1)
          by (unfold len; cbn [length]; lia).
        rewrite Hl. f_equal; [|f_equal; lia].
        replace (7 * (len pre + 1)) with (7 + 7 * len pre) by lia.
        pose proof (len_nonneg pre) as Hp.
        rewrite (Z.pow_add_r 2 7 (7 * len pre)) by lia. change (2 ^ 7) with 128.
        rewrite Z.rem_mul_r
          by (try lia; apply Z.pow_pos_nonneg; lia).
        replace (7 * (j + 1)) with (7 + 7 * j) by lia.
        rewrite Z.pow_add_r by lia. change (2 ^ 7) with 128. ring.
Qed.

Lemma encode_varint_five_groups (n : Z) :
  0 <= n < 2 ^ 32 ->
  Pson.pb_encode_varint n = Pson.pb_encode_varint_loop 5 n.
Proof.
  intros Hn. unfold Pson.pb_encode_varint, uint64_t.
  rewrite Z.mod_small
    by (assert (2 ^ 32 < 2 ^ 64) by (apply Z.pow_lt_mono_r; lia); lia).
  apply (pb_encode_varint_loop_fuel 4 n 5).
  assert (2 ^ 32 < 2 ^ (7 * Z.of_nat 5)) by (apply Z.pow_lt_mono_r; lia). lia.
Qed.

(** X17.  [pb_decode_varint32] applied to what [pb_encode_varint] stores
    for a value below 2^32: when no byte of the encoding is [0x80], the
    reader returns the value and has consumed exactly the encoding; when
    one is, the reader returns at the first such byte, with the low
    groups of the value that came before it, and the rest of the encoding
    stays in the source. *)
Theorem varint32_reads_encoder_output :
  forall (n r : Z) (rest : list Z),
    0 <= n < 2 ^ 32 ->
    (~ In 0x80 (Pson.pb_encode_varint n) ->
     pb_decode_varint32 (mk_decoder r (Pson.pb_encode_varint n ++ rest))
     = (n, mk_decoder (r + len (Pson.pb_encode_varint n)) rest)) /\
    (forall pre post,
       Pson.pb_encode_varint n = pre ++ 0x80 :: post -> ~ In 0x80 pre ->
       pb_decode_varint32 (mk_decoder r (Pson.pb_encode_varint n ++ rest))
       = (n mod 2 ^ (7 * len pre), mk_decoder (r + len pre + 1) (post ++ rest))).
Proof.
  intros n r rest Hn.
  assert (Hv : 0 <= n < 2 ^ (7 * Z.of_nat 5)).
  { assert (2 ^ 32 < 2 ^ (7 * Z.of_nat 5)) by (apply Z.pow_lt_mono_r; lia). lia. }
  assert (P0 : 2 ^ (7 * 0) = 1) by reflexivity.
  rewrite (encode_varint_five_groups n Hn). unfold pb_decode_varint32. split.
  - intros Hno.
    refine (eq_trans (varint32_loop_reads 4 n 0 0 r rest 1 Hv _ _ _ _ Hno) _);
      try lia.
    f_equal. lia.
  - intros pre post Henc Hno.
    refine (eq_trans
              (varint32_loop_cut 4 n 0 0 r rest 1 pre post Hv _ _ _ _ Henc Hno) _);
      try lia.
    f_equal. lia.
Qed.

Lemma varint32_reads_encoder_output_witness :
  pb_decode_varint32 (mk_decoder 0 [172; 2; 9]) = (300, mk_decoder 2 [9]) /\
  pb_decode_varint32 (mk_decoder 0 [129; 128; 1; 9]) = (1, mk_decoder 2 [1; 9]).
Proof.
  split.
  - refine (proj1 (varint32_reads_encoder_output 300 0 [9] _) _).
    + vm_compute. split; [discriminate|reflexivity].
    + vm_compute. intros [H|[H|[]]]; discriminate.
  - refine (proj2 (varint32_reads_encoder_output 16385 0 [9] _) [129] [1] eq_refl _).
    + vm_compute. split; [discriminate|reflexivity].
    + vm_compute. intros [H|[]]; discriminate.
Defined.

(** ** Encoder and decoder together *)

Lemma encode_stands_alone (w : writer) (type : Z) (v : slot pson) (e : pson_encoder) :
  existsb (Z.eqb type) zero_payload_tags = true ->
  encode w (mk_pson type v) e = encode w (mk_pson type NULL) e.
Proof.
  intros H. apply existsb_exists in H. destruct H as (t & Hin & Ht).
  apply Z.eqb_eq in Ht. subst t. cbn in Hin.
  destruct Hin as [<-|[<-|[<-|[<-|[<-|[]]]]]]; rewrite !encode_unfold; reflexivity.
Qed.

(** A pointer under a tag that stands alone is not seen by the
    encoder. *)
Lemma encode_cleared (v : pson) :
  forall w e, encode w (cleared v) e = encode w v e.
Proof.
  induction v as [type slot IH]. intros w e.
  cbn [cleared field_type_ value_].
  destruct (existsb (Z.eqb type) zero_payload_tags) eqn:Hz.
  { symmetry. now apply encode_stands_alone. }
  destruct IH as [|bytes|object Hall|array Hall]; try reflexivity.
  - assert (Hbody : forall w e,
              encode_object w
                (map (fun item => mk_pair (pair_name item) (cleared (pair_value item)))
                   object) e
              = encode_object w object e).
    { pose proof (list_all_In
                    (fun item => forall w e,
                         encode w (cleared (pair_value item)) e
                         = encode w (pair_value item) e)
                    (pair_all_value _) Hall) as IHo.
      clear Hall. unfold encode_object, encode_pair.
      induction object as [|item object IHl]; intros w' e'; [reflexivity|].
      cbn [map fold_left pair_name pair_value].
      rewrite (IHo item (or_introl eq_refl)).
      apply IHl. intros x Hx. apply IHo. now right. }
    rewrite !encode_unfold. cbn [get_type get_value field_type_ value_ bytes_at].
    repeat match goal with
           | |- (if ?c then _ else _) = _ => destruct c; try reflexivity
           end.
    unfold pb_encode_submessage. cbv beta. cbn [object_at array_at].
    now rewrite !Hbody.
  - assert (Hbody : forall w e,
              encode_array w (map cleared array) e = encode_array w array e).
    { pose proof (list_all_In_prop Hall) as IHa. cbv beta in IHa.
      clear Hall. unfold encode_array.
      induction array as [|item array IHl]; intros w' e'; [reflexivity|].
      cbn [map fold_left].
      rewrite (IHa item (or_introl eq_refl)).
      apply IHl. intros x Hx. apply IHa. now right. }
    rewrite !encode_unfold. cbn [get_type get_value field_type_ value_ bytes_at].
    repeat match goal with
           | |- (if ?c then _ else _) = _ => destruct c; try reflexivity
           end.
    unfold pb_encode_submessage. cbv beta. cbn [object_at array_at].
    now rewrite !Hbody.
Qed.

Lemma nodes_cleared (v : pson) : (nodes (cleared v) <= nodes v)%nat.
Proof.
  induction v as [type slot IH]. cbn [cleared field_type_ value_].
  destruct (existsb (Z.eqb type) zero_payload_tags).
  { apply (nodes_positive (mk_pson type slot)). }
  destruct IH as [|bytes|object Hall|array Hall]; cbn [nodes value_]; try lia.
  - apply le_n_S.
    pose proof (list_all_In
                  (fun item => (nodes (cleared (pair_value item))
                                <= nodes (pair_value item))%nat)
                  (pair_all_value _) Hall) as IHo.
    clear Hall. induction object as [|item object IHl]; cbn [map fold_right pair_value];
      [lia|].
    pose proof (IHo item (or_introl eq_refl)) as Hitem.
    assert (Hrest : forall x, In x object ->
                      (nodes (cleared (pair_value x)) <= nodes (pair_value x))%nat)
      by (intros x Hx; apply IHo; now right).
    specialize (IHl Hrest). lia.
  - apply le_n_S.
    pose proof (list_all_In_prop Hall) as IHa. cbv beta in IHa.
    clear Hall. induction array as [|item array IHl]; cbn [map fold_right]; [lia|].
    pose proof (IHa item (or_introl eq_refl)) as Hitem.
    assert (Hrest : forall x, In x array -> (nodes (cleared x) <= nodes x)%nat)
      by (intros x Hx; apply IHa; now right).
    specialize (IHl Hrest). lia.
Qed.

(** A tree that holds no such pointer is left as it is. *)
Lemma cleared_short_tree (v : pson) : short_tree v = true -> cleared v = v.
Proof.
  induction v as [type slot IH]. intros Hs.
  cbn [cleared field_type_ value_].
  destruct IH as [|bytes|object Hall|array Hall];
    cbn [short_tree field_type_ value_] in Hs.
  - destruct (existsb (Z.eqb type) zero_payload_tags); reflexivity.
  - replace (existsb (Z.eqb type) zero_payload_tags) with false; [reflexivity|].
    symmetry. unfold zero_payload_tags. cbn [existsb].
    destruct (type =? string_field) eqn:E1;
      [apply Z.eqb_eq in E1; subst type; reflexivity|].
    destruct (type =? bytes_field) eqn:E2;
      [apply Z.eqb_eq in E2; subst type; reflexivity|].
    destruct (type =? svarint_field) eqn:E3;
      [apply Z.eqb_eq in E3; subst type; reflexivity|].
    destruct (type =? varint_field) eqn:E4;
      [apply Z.eqb_eq in E4; subst type; reflexivity|].
    cbn [orb] in Hs.
    destruct (type =? float_field) eqn:E5;
      [apply Z.eqb_eq in E5; subst type; reflexivity|].
    destruct (type =? double_field) eqn:E6;
      [apply Z.eqb_eq in E6; subst type; reflexivity|discriminate].
  - apply andb_true_iff in Hs. destruct Hs as [Hs _].
    apply andb_true_iff in Hs. destruct Hs as [Ht Hshort].
    apply Z.eqb_eq in Ht. subst type. cbn [existsb zero_payload_tags Z.eqb Pos.eqb
      object_field null_field true_field false_field zero_field one_field orb].
    f_equal. f_equal. rewrite forallb_forall in Hshort.
    pose proof (list_all_In
                  (fun item => short_tree (pair_value item) = true ->
                               cleared (pair_value item) = pair_value item)
                  (pair_all_value _) Hall) as IHo.
    rewrite <- (map_id object) at 2. apply map_ext_in. intros [n x] Hin.
    cbn [pair_name pair_value]. f_equal.
    specialize (Hshort _ Hin). apply andb_true_iff in Hshort.
    destruct Hshort as [_ Hx]. exact (IHo _ Hin Hx).
  - apply andb_true_iff in Hs. destruct Hs as [Hs _].
    apply andb_true_iff in Hs. destruct Hs as [Ht Hshort].
    apply Z.eqb_eq in Ht. subst type. cbn [existsb zero_payload_tags Z.eqb Pos.eqb
      array_field null_field true_field false_field zero_field one_field orb].
    f_equal. f_equal. rewrite forallb_forall in Hshort.
    pose proof (list_all_In_prop Hall) as IHa. cbv beta in IHa.
    rewrite <- (map_id array) at 2. apply map_ext_in. intros x Hin.
    exact (IHa _ Hin (Hshort _ Hin)).
Qed.

(** X18.  Take a tree whose blocks are as the assignments and the
    decoder leave them -- a string block is the C string with its
    terminator, a bytes block a one-byte length and that many bytes, an
    integer block one varint, a float or double block 4 or 8 bytes,
    containers under the object and array tags -- and in which every
    string, name, buffer and composite body is shorter than 128 bytes;
    a tag that stands for its value on its own (null, true, false, zero,
    one) may hold any pointer, as after 0, 1 or a boolean was assigned to
    a value that held a payload.  What the encoder hands to a sink for
    the tree is read back by [decode] into a new value as the same tree,
    pairs and items in their order, with [NULL] under every such tag,
    whatever follows the encoding in the source; the decoder's
    [bytes_read] advances by the encoder's [bytes_written], and the
    counting encoder of the base class reports the same number.  A tree
    that holds no pointer under such a tag comes back as it is. *)
Theorem decoder_reads_what_encoder_wrote :
  forall (v : pson) (fuel : nat) (r : Z) (rest : list Z),
    short_tree (cleared v) = true -> (nodes v <= fuel)%nat ->
    decode fuel pson_default
      (mk_decoder r (sink_ (encode write_sink v Encoder.fresh) ++ rest))
    = Some (cleared v,
            mk_decoder (r + bytes_written (encode write_sink v Encoder.fresh)) rest)
    /\ bytes_written (encode write v Encoder.fresh)
       = bytes_written (encode write_sink v Encoder.fresh)
    /\ 0 < bytes_written (encode write v Encoder.fresh)
    /\ (short_tree v = true -> cleared v = v).
Proof.
  intros v fuel r rest Hs Hf.
  destruct (round_trip_short_tree (cleared v) Hs) as [Hpos H].
  assert (He : encoded (cleared v) = encoded v)
    by (unfold encoded; now rewrite encode_cleared).
  rewrite He in Hpos.
  destruct (encoded_emits v Encoder.fresh) as [Ew Es].
  rewrite Ew, Es. cbn [bytes_written written_ sink_ Encoder.fresh app].
  split; [|split; [reflexivity|split; [exact Hpos|apply cleared_short_tree]]].
  pose proof (nodes_cleared v) as Hn.
  specialize (H fuel ltac:(lia) r rest). rewrite He in H. exact H.
Qed.

Lemma decoder_reads_what_encoder_wrote_witness :
  decode 8 pson_default
    (mk_decoder 0 (sink_ (encode write_sink sample_tree Encoder.fresh) ++ [56]))
  = Some (sample_tree, mk_decoder 29 [56]) /\
  decode 3 pson_default
    (mk_decoder 0
       (sink_ (encode write_sink
                 (mk_pson array_field
                    (array_ptr
                       [Pson.assign_int (Pson.assign_string pson_default [104; 105]) 0;
                        Pson.assign_int pson_default 5]))
                 Encoder.fresh) ++ [56]))
  = Some (mk_pson array_field
            (array_ptr [mk_pson zero_field NULL; Pson.assign_int pson_default 5]),
          mk_decoder 5 [56]).
Proof.
  split.
  - refine (proj1 (decoder_reads_what_encoder_wrote sample_tree 8 0 [56] _ _)).
    + reflexivity.
    + apply Nat.leb_le. reflexivity.
  - refine (proj1 (decoder_reads_what_encoder_wrote
                     (mk_pson array_field
                        (array_ptr
                           [Pson.assign_int
                              (Pson.assign_string pson_default [104; 105]) 0;
                            Pson.assign_int pson_default 5]))
                     3 0 [56] _ _)).
    + reflexivity.
    + apply Nat.leb_le. reflexivity.
Defined.

(** X19.  An integer, a boolean, a string of fewer than 128 characters or
    a buffer of fewer than 128 bytes assigned to a new value comes back
    from its encoding as the value that was assigned, in one call of
    [decode] that consumes the encoding and nothing after it. *)
Theorem assigned_value_comes_back :
  forall (v : pson) (r : Z) (rest : list Z),
    (exists value, - 2 ^ 63 <= value < 2 ^ 64 /\ v = Pson.assign_int pson_default value)
    \/ (exists value, v = Pson.assign_bool pson_default value)
    \/ (exists str, strlen str < 128 /\ v = Pson.assign_string pson_default str)
    \/ (exists bytes, len bytes < 128 /\ v = Pson.set_bytes pson_default bytes) ->
    decode 1 pson_default (mk_decoder r (encoded v ++ rest))
    = Some (v, mk_decoder (r + len (encoded v)) rest).
Proof.
  intros v r rest H.
  assert (Hs : short_tree v = true /\ nodes v = 1%nat).
  { destruct H as [(value & Hr & ->)|[(value & ->)|[(str & Hl & ->)|(bytes & Hl & ->)]]].
    - split; [now apply assign_int_short|].
      unfold Pson.assign_int.
      destruct (value =? 0); [reflexivity|]. destruct (value =? 1); reflexivity.
    - split; [apply assign_bool_short|reflexivity].
    - split; [now apply assign_string_short|reflexivity].
    - split; [now apply set_bytes_short|reflexivity]. }
  destruct Hs as [Hs Hn].
  destruct (round_trip_short_tree v Hs) as [_ Hrt].
  apply (Hrt 1%nat). lia.
Qed.

Lemma assigned_value_comes_back_witness :
  decode 1 pson_default (mk_decoder 0 [16; 172; 2; 56])
  = Some (Pson.assign_int pson_default (-300), mk_decoder 3 [56]).
Proof.
  apply (assigned_value_comes_back (Pson.assign_int pson_default (-300)) 0 [56]).
  left. exists (-300). split; [|reflexivity].
  split; [discriminate|reflexivity].
Defined.

(** ** Fields of a type the decoder does not know *)

(** X20.  A field whose type [decode] does not know changes only the tag
    of the value.  Under the length-delimited kind, with a declared
    length below 128 and the payload present, the payload is skipped in
    full and the decoder stands behind it; under any other kind nothing
    beyond the tag byte is taken. *)
Theorem unknown_type_is_skipped :
  forall (fuel : nat) (value : pson) (r tag : Z) (payload rest : list Z),
    0 <= tag < 128 ->
    (Z.land tag 0x07 = length_delimited ->
     known_length_delimited (Z.shiftr tag 3) = false ->
     len payload < 128 ->
     decode (S fuel) value (mk_decoder r (tag :: len payload :: payload ++ rest))
     = Some (mk_pson (Z.shiftr tag 3) (value_ value),
             mk_decoder (r + 2 + len payload) rest)) /\
    (Z.land tag 0x07 <> length_delimited ->
     known_with_payload (Z.shiftr tag 3) = false ->
     decode (S fuel) value (mk_decoder r (tag :: rest))
     = Some (mk_pson (Z.shiftr tag 3) (value_ value), mk_decoder (r + 1) rest)).
Proof.
  intros fuel value r tag payload rest Ht. split.
  - intros Hw Hk Hl.
    rewrite (unknown_tag_skipped fuel value r tag payload rest Ht Hl Hw Hk).
    unfold set_type. do 3 f_equal. lia.
  - intros Hw Hk.
    exact (unknown_tag_without_payload fuel value r tag rest Ht Hw Hk).
Qed.

Lemma unknown_type_is_skipped_witness :
  decode 1 pson_default (mk_decoder 0 [106; 3; 7; 8; 9; 56])
  = Some (mk_pson 13 NULL, mk_decoder 5 [56]) /\
  decode 1 pson_default (mk_decoder 0 [104; 56])
  = Some (mk_pson 13 NULL, mk_decoder 1 [56]).
Proof.
  split.
  - refine (proj1 (unknown_type_is_skipped 0 pson_default 0 106 [7; 8; 9] [56] _)
              _ _ _); try reflexivity.
    split; [discriminate|reflexivity].
  - refine (proj2 (unknown_type_is_skipped 0 pson_default 0 104 [] [56] _) _ _);
      try reflexivity; try discriminate.
    split; [discriminate|reflexivity].
Defined.

(** ** A composite cut off after its declared length *)

Lemma object_body_exhausted (k : nat) (size r : Z) :
  0 < size < 2 ^ 64 ->
  forall n c,
    decode_items Object.pair_default (decode_pair_with (decode k)) n c size r
      (mk_decoder r []) = None.
Proof.
  intros Hs.
  assert (Hc : (size_t (size - (r - r)) >? 0) = true).
  { replace (size - (r - r)) with size by lia. unfold size_t.
    rewrite Z.mod_small by lia. apply Z.gtb_lt. lia. }
  induction n as [|n IH]; intros c;
    cbn [decode_items bytes_read read_ create_item]; rewrite Hc; [reflexivity|].
  rewrite nth_created.
  destruct k as [|k]; [reflexivity|].
  unfold decode_pair_with at 1. rewrite varint32_end_of_source.
  unfold pb_read_string. rewrite read_nothing.
  cbn [decode]. unfold pb_decode_tag. rewrite varint32_end_of_source.
  cbn. rewrite store_created. apply IH.
Qed.

Lemma array_body_exhausted (k : nat) (size r : Z) :
  0 < size < 2 ^ 64 ->
  forall n c,
    decode_items pson_default (decode k) n c size r (mk_decoder r []) = None.
Proof.
  intros Hs.
  assert (Hc : (size_t (size - (r - r)) >? 0) = true).
  { replace (size - (r - r)) with size by lia. unfold size_t.
    rewrite Z.mod_small by lia. apply Z.gtb_lt. lia. }
  induction n as [|n IH]; intros c;
    cbn [decode_items bytes_read read_ create_item]; rewrite Hc; [reflexivity|].
  rewrite nth_created.
  destruct k as [|k]; [reflexivity|].
  cbn [decode]. unfold pb_decode_tag. rewrite varint32_end_of_source.
  cbn. rewrite store_created. apply IH.
Qed.

(** X21.  With a source whose failed reads deliver and count nothing, an
    object or an array that declares a body of 1 to 127 bytes in a source
    that ends after the declaration is never finished: every round of the
    loop links one more item, [bytes_read] stays where it is, and the
    condition of the loop stays true, so no number of steps makes
    [decode] return. *)
Theorem truncated_composite_never_returns :
  forall (fuel : nat) (value : pson) (r tag size : Z),
    tag = 90 \/ tag = 98 -> 0 < size < 128 ->
    decode fuel value (mk_decoder r [tag; size]) = None.
Proof.
  intros fuel value r tag size Ht Hs.
  assert (Hs' : 0 < size < 2 ^ 64)
    by (change (2 ^ 64) with 18446744073709551616; lia).
  destruct fuel as [|fuel]; [reflexivity|].
  cbn [decode]. rewrite tag_single by lia.
  rewrite varint32_single by lia.
  destruct Ht as [-> | ->].
  - change (Z.land 90 7) with 2. change (Z.shiftr 90 3) with 11.
    cbn [Z.eqb Pos.eqb length_delimited string_field bytes_field object_field].
    cbn [bytes_read read_].
    now rewrite object_body_exhausted.
  - change (Z.land 98 7) with 2. change (Z.shiftr 98 3) with 12.
    cbn [Z.eqb Pos.eqb length_delimited string_field bytes_field object_field
           array_field].
    cbn [bytes_read read_].
    now rewrite array_body_exhausted.
Qed.

Lemma truncated_composite_never_returns_witness :
  decode 1000 pson_default (mk_decoder 0 [98; 5]) = None.
Proof.
  apply (truncated_composite_never_returns 1000 pson_default 0 98 5).
  - right. reflexivity.
  - split; reflexivity.
Defined.

(** ** Floating-point payloads *)

Lemma le_value_le_bytes (n : nat) :
  forall z, 0 <= z < 2 ^ (8 * Z.of_nat n) ->
    Memory.le_value (IEEE.le_bytes n z) = z.
Proof.
  induction n as [|n IH]; intros z Hz.
  - change (2 ^ (8 * Z.of_nat 0)) with 1 in Hz. cbn. lia.
  - cbn [IEEE.le_bytes Memory.le_value].
    rewrite Z.shiftr_div_pow2 by lia.
    rewrite IH.
    + symmetry. rewrite Z.add_comm. apply Z.div_mod. discriminate.
    + replace (8 * Z.of_nat (S n)) with (8 + 8 * Z.of_nat n) in Hz by lia.
      rewrite Z.pow_add_r in Hz by lia.
      split; [apply Z.div_pos; lia|].
      apply Z.div_lt_upper_bound; lia.
Qed.

Lemma digits2_bounds (m : positive) :
  2 ^ (Zpos (digits2_pos m) - 1) <= Zpos m < 2 ^ Zpos (digits2_pos m).
Proof.
  induction m as [m IH|m IH|]; cbn [digits2_pos].
  - rewrite Pos2Z.inj_succ, Z.pow_succ_r by lia.
    replace (Z.succ (Zpos (digits2_pos m)) - 1)
      with (Z.succ (Zpos (digits2_pos m) - 1)) by lia.
    rewrite Z.pow_succ_r by lia. lia.
  - rewrite Pos2Z.inj_succ, Z.pow_succ_r by lia.
    replace (Z.succ (Zpos (digits2_pos m)) - 1)
      with (Z.succ (Zpos (digits2_pos m) - 1)) by lia.
    rewrite Z.pow_succ_r by lia. lia.
  - cbn. lia.
Qed.

(** The three fields of a bit pattern. *)
Lemma pattern_fields (P E s b f z : Z) :
  0 < P -> 0 < E -> s = 0 \/ s = 1 -> 0 <= b < E -> 0 <= f < P ->
  z = s * (E * P) + b * P + f ->
  (E * P <=? z) = (s =? 1) /\ (z / P) mod E = b /\ z mod P = f.
Proof.
  intros HP HE Hs Hb Hf ->.
  assert (H0 : 0 <= b * P) by (apply Z.mul_nonneg_nonneg; lia).
  assert (H1 : b * P <= (E - 1) * P) by (apply Z.mul_le_mono_nonneg_r; lia).
  assert (HEP : (E - 1) * P = E * P - P) by ring.
  split; [|split].
  - destruct Hs as [-> | ->]; cbn [Z.eqb Pos.eqb].
    + apply Z.leb_gt. lia.
    + apply Z.leb_le. lia.
  - replace ((s * (E * P) + b * P + f) / P) with (s * E + b).
    + symmetry. apply Z.mod_unique with (q := s); lia.
    + apply Z.div_unique with (r := f); [lia|ring].
  - symmetry. apply Z.mod_unique with (q := s * E + b); [lia|ring].
Qed.

Section Pattern.
Variables prec emax width : Z.
Hypothesis prec_at_least_2 : 2 <= prec.
Hypothesis prec_below_width : prec + 2 <= width.
Hypothesis emax_of_width : emax = 2 ^ (width - prec - 1).

(** A number of the format is read back from its bit pattern, which
    fits the width. *)
Lemma of_bits_bits (x : spec_float) :
  valid_binary prec emax x = true ->
  Memory.of_bits prec emax width (IEEE.bits prec emax width x) = x /\
  0 <= IEEE.bits prec emax width x < 2 ^ width.
Proof.
  intros Hv.
  set (P := 2 ^ (prec - 1)). set (E := 2 ^ (width - prec)).
  assert (HP : 0 < P) by (apply Z.pow_pos_nonneg; lia).
  assert (HE2 : E = 2 * emax).
  { unfold E. rewrite emax_of_width, <- Z.pow_succ_r by lia. f_equal. lia. }
  assert (Hemax : 2 <= emax).
  { rewrite emax_of_width.
    change 2 with (2 ^ 1) at 1. apply Z.pow_le_mono_r; lia. }
  assert (HE : 0 < E) by lia.
  assert (HW1 : 2 ^ (width - 1) = E * P).
  { unfold E, P. rewrite <- Z.pow_add_r by lia. f_equal. lia. }
  assert (HW : 2 ^ width = 2 * (E * P)).
  { rewrite <- HW1, <- Z.pow_succ_r by lia. f_equal. lia. }
  assert (HP2 : P = 2 * 2 ^ (prec - 2)).
  { unfold P. rewrite <- Z.pow_succ_r by lia. f_equal. lia. }
  assert (HQ : 0 < 2 ^ (prec - 2)) by (apply Z.pow_pos_nonneg; lia).
  assert (Hfit : forall s b f, s = 0 \/ s = 1 -> 0 <= b < E -> 0 <= f < P ->
            0 <= s * (E * P) + b * P + f < 2 * (E * P)).
  { intros s b f Hs Hb Hf.
    assert (0 <= b * P) by (apply Z.mul_nonneg_nonneg; lia).
    assert (b * P <= (E - 1) * P) by (apply Z.mul_le_mono_nonneg_r; lia).
    assert ((E - 1) * P = E * P - P) by ring.
    assert (0 < E * P) by (apply Z.mul_pos_pos; lia).
    destruct Hs as [-> | ->]; lia. }
  assert (Hsign : forall s : bool,
            (if s then E * P else 0) = (if s then 1 else 0) * (E * P)
            /\ ((if s then 1 else 0) = 0 \/ (if s then 1 else 0) = 1)
            /\ ((if s then 1 else 0) =? 1) = s).
  { intros [|]; repeat split; try lia; auto. }
  unfold Memory.of_bits, IEEE.bits. cbv beta zeta.
  rewrite ?Z.shiftl_mul_pow2 by lia.
  change (2 ^ (prec - 1)) with P. change (2 ^ (width - prec)) with E.
  rewrite HW, ?HW1.
  destruct x as [s|s| |s m e].
  - destruct (Hsign s) as (Es & Hs & Eb).
    destruct (pattern_fields P E (if s then 1 else 0) 0 0
                (if s then E * P else 0) HP HE Hs) as (F1 & F2 & F3);
      [lia|lia|lia|].
    rewrite F1, F2, F3, Eb. cbn [Z.eqb]. split; [reflexivity|].
    rewrite Es. pose proof (Hfit _ 0 0 Hs ltac:(lia) ltac:(lia)). lia.
  - destruct (Hsign s) as (Es & Hs & Eb).
    destruct (pattern_fields P E (if s then 1 else 0) (E - 1) 0
                ((if s then E * P else 0) + (E - 1) * P) HP HE Hs)
      as (F1 & F2 & F3); [lia|lia|lia|].
    rewrite F1, F2, F3, Eb.
    replace (E - 1 =? 0) with false by (symmetry; apply Z.eqb_neq; lia).
    rewrite Z.eqb_refl. cbn [Z.eqb]. split; [reflexivity|].
    rewrite Es. pose proof (Hfit _ (E - 1) 0 Hs ltac:(lia) ltac:(lia)). lia.
  - destruct (pattern_fields P E 0 (E - 1) (2 ^ (prec - 2))
                ((E - 1) * P + 2 ^ (prec - 2)) HP HE) as (F1 & F2 & F3);
      [auto|lia|lia|lia|].
    rewrite F2, F3.
    replace (E - 1 =? 0) with false by (symmetry; apply Z.eqb_neq; lia).
    rewrite Z.eqb_refl.
    replace (2 ^ (prec - 2) =? 0) with false by (symmetry; apply Z.eqb_neq; lia).
    split; [reflexivity|].
    pose proof (Hfit 0 (E - 1) (2 ^ (prec - 2)) ltac:(auto) ltac:(lia) ltac:(lia)).
    lia.
  - cbn [valid_binary] in Hv. unfold bounded, canonical_mantissa, fexp in Hv.
    apply andb_true_iff in Hv. destruct Hv as [Hc Hb].
    apply Z.eqb_eq in Hc. apply Z.leb_le in Hb.
    pose proof (digits2_bounds m) as Hd.
    set (d := Zpos (digits2_pos m)) in *.
    assert (Hd0 : 1 <= d) by (unfold d; lia).
    unfold emin in *.
    destruct (Hsign s) as (Es & Hs & Eb).
    destruct (Zpos m <? P) eqn:Hm.
    + apply Z.ltb_lt in Hm.
      assert (Hdp : d < prec).
      { assert (d - 1 < prec - 1); [|lia].
        apply (Z.pow_lt_mono_r_iff 2); [lia|lia|]. fold P. lia. }
      assert (He : e = 3 - emax - prec) by lia.
      destruct (pattern_fields P E (if s then 1 else 0) 0 (Zpos m)
                  ((if s then E * P else 0) + Zpos m) HP HE Hs)
        as (F1 & F2 & F3); [lia|lia|lia|].
      rewrite F1, F2, F3, Eb. cbn [Z.eqb].
      split; [now rewrite He|].
      rewrite Es. pose proof (Hfit _ 0 (Zpos m) Hs ltac:(lia) ltac:(lia)). lia.
    + apply Z.ltb_ge in Hm.
      assert (Hdp : prec <= d).
      { assert (prec - 1 < d); [|lia].
        apply (Z.pow_lt_mono_r_iff 2); [lia|lia|]. fold P. lia. }
      assert (Hdq : d = prec) by lia.
      assert (He : 3 - emax - prec <= e) by lia.
      assert (Hm2 : Zpos m < 2 * P).
      { rewrite Hdq in Hd. unfold P. rewrite <- Z.pow_succ_r by lia.
        replace (Z.succ (prec - 1)) with prec by lia. lia. }
      rewrite ?Z.shiftl_mul_pow2 by lia. change (2 ^ (prec - 1)) with P.
      destruct (pattern_fields P E (if s then 1 else 0)
                  (e - (3 - emax - prec) + 1) (Zpos m - P)
                  ((if s then E * P else 0)
                   + (e - (3 - emax - prec) + 1) * P + (Zpos m - P)) HP HE Hs)
        as (F1 & F2 & F3); [lia|lia|lia|].
      rewrite F1, F2, F3, Eb.
      replace (e - (3 - emax - prec) + 1 =? 0) with false
        by (symmetry; apply Z.eqb_neq; lia).
      replace (e - (3 - emax - prec) + 1 =? E - 1) with false
        by (symmetry; apply Z.eqb_neq; lia).
      replace (Zpos m - P + P) with (Zpos m) by lia.
      split; [f_equal; lia|].
      rewrite Es.
      pose proof (Hfit _ (e - (3 - emax - prec) + 1) (Zpos m - P) Hs
                    ltac:(lia) ltac:(lia)).
      lia.
Qed.
End Pattern.

Lemma load_double_stored (x : spec_float) :
  valid_binary 53 1024 x = true ->
  Memory.load_double (block (IEEE.double_bytes x)) = x.
Proof.
  intros Hv.
  destruct (of_bits_bits 53 1024 64 ltac:(lia) ltac:(lia) eq_refl x Hv) as [E B].
  unfold Memory.load_double, IEEE.double_bytes. cbn [bytes_at].
  rewrite firstn_all2 by (rewrite le_bytes_length; lia).
  now rewrite le_value_le_bytes by exact B.
Qed.

Lemma load_float_stored (x : spec_float) :
  valid_binary 24 128 x = true ->
  Memory.load_float (block (IEEE.float_bytes x)) = x.
Proof.
  intros Hv.
  destruct (of_bits_bits 24 128 32 ltac:(lia) ltac:(lia) eq_refl x Hv) as [E B].
  unfold Memory.load_float, IEEE.float_bytes. cbn [bytes_at].
  rewrite firstn_all2 by (rewrite le_bytes_length; lia).
  now rewrite le_value_le_bytes by exact B.
Qed.

Lemma assign_float_not_double (p q : pson) (f : spec_float) :
  Pson.assign_float p f = Some q -> field_type_ q <> double_field.
Proof.
  unfold Pson.assign_float. destruct (IEEE.to_int64 f) as [j|]; [|discriminate].
  destruct (SFeqb f (IEEE.float_of_int j)); intros [= <-].
  - pose proof (assign_int_tag p j) as T. unfold integer_tags in T.
    intros E. rewrite E in T. cbn in T.
    destruct T as [T|[T|[T|[T|[]]]]]; discriminate.
  - destruct (set_float_block (mk_pson float_field (value_ p)) f) as [E _].
    rewrite E. cbn. discriminate.
Qed.

(** X22.  A float or double stored by [set] is read back bit for bit
    through the payload pointer: the conversion to [double] of a value
    tagged float64 gives the double that was stored, and of a value tagged
    float32 the stored float widened.  So a double that [operator=(double)]
    stores under the float64 tag is read back unchanged. *)
Theorem stored_floating_point_reads_back :
  forall (p : pson) (x : spec_float),
    (valid_binary 53 1024 x = true ->
     Memory.load_double (value_ (Pson.set_double p x)) = x /\
     Value.to_double (Pson.set_double (mk_pson double_field (value_ p)) x) = x /\
     forall q, Pson.assign_double p x = Some q ->
               field_type_ q = double_field -> Value.to_double q = x) /\
    (valid_binary 24 128 x = true ->
     Memory.load_float (value_ (Pson.set_float p x)) = x /\
     Value.to_double (Pson.set_float (mk_pson float_field (value_ p)) x)
     = IEEE.to_double x).
Proof.
  intros p x. split; intros Hv.
  - assert (A : forall p', Memory.load_double (value_ (Pson.set_double p' x)) = x).
    { intros p'. destruct (set_double_block p' x) as [E _]. rewrite E.
      cbn [value_]. now apply load_double_stored. }
    assert (B : Value.to_double
                  (Pson.set_double (mk_pson double_field (value_ p)) x) = x).
    { specialize (A (mk_pson double_field (value_ p))).
      destruct (set_double_block (mk_pson double_field (value_ p)) x) as [E _].
      rewrite E in A |- *. exact A. }
    split; [apply A|]. split; [exact B|].
    intros q Hq Ht. unfold Pson.assign_double in Hq.
    destruct (IEEE.to_int64 x) as [i|]; [|discriminate].
    destruct (SFeqb x (IEEE.double_of_int i)).
    { exfalso. injection Hq as <-.
      pose proof (assign_int_tag p i) as T. unfold integer_tags in T.
      rewrite Ht in T. cbn in T.
      destruct T as [T|[T|[T|[T|[]]]]]; discriminate. }
    destruct (SFleb _ _).
    { exfalso. exact (assign_float_not_double _ _ _ Hq Ht). }
    injection Hq as <-. exact B.
  - assert (A : forall p', Memory.load_float (value_ (Pson.set_float p' x)) = x).
    { intros p'. destruct (set_float_block p' x) as [E _]. rewrite E.
      cbn [value_]. now apply load_float_stored. }
    split; [apply A|].
    specialize (A (mk_pson float_field (value_ p))).
    destruct (set_float_block (mk_pson float_field (value_ p)) x) as [E _].
    rewrite E in A |- *.
    unfold Value.to_double. cbn [field_type_ value_] in A |- *.
    cbn [Z.eqb Pos.eqb zero_field false_field one_field true_field float_field orb].
    now rewrite A.
Qed.

Lemma stored_floating_point_reads_back_witness :
  Value.to_double (Pson.set_double (mk_pson double_field NULL) double_1_5)
  = double_1_5 /\
  Value.to_double
    (Pson.set_float (mk_pson float_field NULL) (S754_finite false 12582912 (-23)))
  = double_1_5.
Proof.
  split.
  - exact (proj1 (proj2 (proj1 (stored_floating_point_reads_back pson_default
                                  double_1_5) eq_refl))).
  - exact (proj2 (proj2 (stored_floating_point_reads_back pson_default
                           (S754_finite false 12582912 (-23))) eq_refl)).
Defined.

(** ** The kind of a value *)

Lemma assign_float_is_number (p q : pson) (f : spec_float) :
  Pson.assign_float p f = Some q -> Value.is_number q = true.
Proof.
  unfold Pson.assign_float. destruct (IEEE.to_int64 f) as [j|]; [|discriminate].
  destruct (SFeqb f (IEEE.float_of_int j)); intros [= <-].
  - pose proof (assign_int_tag p j) as T. unfold integer_tags in T.
    unfold Value.is_number.
    destruct T as [T|[T|[T|[T|[]]]]]; rewrite <- T; reflexivity.
  - destruct (set_float_block (mk_pson float_field (value_ p)) f) as [E _].
    rewrite E. reflexivity.
Qed.

(** X23.  The seven type predicates never overlap, and one of them holds
    exactly when the type number is one of the thirteen of the
    enumeration.  Each assignment leaves a value of the matching kind: an
    integer, a float or a double a number, a boolean a boolean, a string
    a string, a buffer bytes, and the two coercions an object and an
    array. *)
Theorem assignments_set_one_kind :
  forall (p : pson),
    (kinds_of p <= 1)%nat /\
    (kinds_of p = 1%nat <-> 0 <= field_type_ p <= 12) /\
    (forall value, Value.is_number (Pson.assign_int p value) = true) /\
    (forall value, Value.is_boolean (Pson.assign_bool p value) = true) /\
    (forall value q, Pson.assign_float p value = Some q -> Value.is_number q = true) /\
    (forall value q, Pson.assign_double p value = Some q -> Value.is_number q = true) /\
    (forall str, Value.is_string (Pson.assign_string p str) = true) /\
    (forall bytes, Value.is_bytes (Pson.set_bytes p bytes) = true) /\
    Value.is_object (Value.as_object p) = true /\
    Value.is_array (Value.as_array p) = true.
Proof.
  intros p.
  assert (Hint : forall value, Value.is_number (Pson.assign_int p value) = true).
  { intros value. pose proof (assign_int_tag p value) as T.
    unfold integer_tags in T. unfold Value.is_number.
    destruct T as [T|[T|[T|[T|[]]]]]; rewrite <- T; reflexivity. }
  assert (Hkinds : (kinds_of p <= 1)%nat
                   /\ (kinds_of p = 1%nat <-> 0 <= field_type_ p <= 12)).
  { unfold kinds_of, Value.is_null, Value.is_boolean, Value.is_number,
      Value.is_string, Value.is_bytes, Value.is_object, Value.is_array.
    cbv delta [null_field varint_field svarint_field float_field double_field
                 true_field false_field zero_field one_field string_field
                 bytes_field object_field array_field].
    cbn [filter].
    generalize (field_type_ p). intros t.
    assert (Ht : t < 0 \/ t = 0 \/ t = 1 \/ t = 2 \/ t = 3 \/ t = 4 \/ t = 5
                 \/ t = 6 \/ t = 7 \/ t = 8 \/ t = 9 \/ t = 10 \/ t = 11
                 \/ t = 12 \/ 12 < t) by lia.
    repeat (destruct Ht as [Ht|Ht];
            [try (subst t; cbn; split; [lia|split; [lia|reflexivity]])|]);
      try (subst t; cbn; split; [lia|split; [lia|reflexivity]]).
    all: repeat match goal with
         | |- context [?x =? ?c] =>
             is_var x;
             replace (x =? c) with false by (symmetry; apply Z.eqb_neq; lia)
         end;
      cbn; split; [lia|split; [discriminate|lia]]. }
  destruct Hkinds as [K1 K2].
  split; [exact K1|]. split; [exact K2|]. split; [exact Hint|].
  split; [intros [|]; reflexivity|].
  split; [intros value q; apply assign_float_is_number|].
  split.
  { intros value q. unfold Pson.assign_double.
    destruct (IEEE.to_int64 value) as [i|]; [|discriminate].
    destruct (SFeqb value (IEEE.double_of_int i)); [intros [= <-]; apply Hint|].
    destruct (SFleb _ _); [apply assign_float_is_number|].
    intros [= <-].
    destruct (set_double_block (mk_pson double_field (value_ p)) value) as [E _].
    rewrite E. reflexivity. }
  split; [reflexivity|]. split; [reflexivity|].
  unfold Value.as_object, Value.as_array, Value.is_object, Value.is_array.
  split.
  - destruct (field_type_ p =? object_field) eqn:E; [exact E|reflexivity].
  - destruct (field_type_ p =? array_field) eqn:E; [exact E|reflexivity].
Qed.

Lemma assignments_set_one_kind_witness :
  Value.is_number
    (Pson.set_float (mk_pson float_field NULL) (S754_finite false 12582912 (-23)))
  = true.
Proof.
  refine (proj1 (proj2 (proj2 (proj2 (proj2 (proj2
            (assignments_set_one_kind pson_default))))))
            double_1_5 _ _).
  vm_compute. reflexivity.
Defined.
